(** * GPU sort operators of [python/tvm/topi/cuda/sort.py]

    A shallow embedding of the kernels that [sort_ir] and [sort_nms_ir]
    build, of the facades [sort], [argsort] and [topk] around them, and the
    proofs of their specification.

    Conventions of the embedding.
    - A device buffer is a flat [list Z]; [buf !!! i] is a load and
      [<[i:=v]> buf] a store.  Element values are modelled as integers
      ordered by [<=]: they stand for the orderable (non-NaN) values of the
      element type.  Extents, thread indices and loop counters are natural
      numbers: the index arithmetic of the kernels never leaves the range of
      the index type for buffers that fit in device memory.
    - A kernel launch runs its body once per thread of the grid.  Within one
      launch the threads of these kernels write pairwise disjoint cells and
      read nothing another thread of the same launch writes, so a launch is
      modelled as the fold of the body over the grid; the barriers and the
      host loop order successive launches.
    - Python exceptions ([IndexError], [AssertionError]) are the [Raise]
      results of type [result]. *)

From Stdlib Require Import ZArith Lia ZifyNat List Sorted Permutation String.
From stdpp Require Import base tactics option list sorting.

Local Open Scope nat_scope.

(** ** Python and TIR primitives *)

Inductive exn := IndexError | AssertionError.

Inductive result (A : Type) :=
  | Ok (a : A)
  | Raise (e : exn).
Arguments Ok {A} a.
Arguments Raise {A} e.

Definition bind_result {A B} (r : result A) (k : A -> result B) : result B :=
  match r with
  | Ok a => k a
  | Raise e => Raise e
  end.

(** [arr[i]] on a Python sequence or a TVM [Array]: indices in
    [-len, len) are valid, negative ones count from the end. *)
Definition py_getitem {A} (arr : list A) (i : Z) : result A :=
  let len := Z.of_nat (length arr) in
  if ((i <? - len) || (len <=? i))%Z then Raise IndexError
  else match arr !! Z.to_nat (if (i <? 0)%Z then (i + len)%Z else i) with
       | Some x => Ok x
       | None => Raise IndexError
       end.

(** [enumerate(shape, 0)] *)
Definition enumerate {A} (l : list A) : list (nat * A) :=
  zip (seq 0 (length l)) l.

(** [ceil_div] of [sort_ir] *)
Definition ceil_div (a b : nat) : nat := (a + b - 1) / b.

(** The threads [tid = bx * nthread_tx + tx] of a launch with
    [nthread_bx] blocks of [nthread_tx] threads. *)
Definition thread_ids (nthread_bx nthread_tx : nat) : list nat :=
  bx ← seq 0 nthread_bx; tx ← seq 0 nthread_tx; [bx * nthread_tx + tx].

(** A launch over the grid [blockIdx.y], [blockIdx.z], [tid]. *)
Definition launch {St} (nthread_bx nthread_tx nthread_by nthread_bz : nat)
    (body : nat -> nat -> nat -> St -> St) (st : St) : St :=
  foldl (fun st by_ =>
    foldl (fun st bz =>
      foldl (fun st tid => body by_ bz tid st) st
            (thread_ids nthread_bx nthread_tx))
      st (seq 0 nthread_bz))
    st (seq 0 nthread_by).

(** ** Axis layout (lines 102-111 and 318-329) *)

Record Layout := mkLayout {
  axis_mul_before : nat;
  axis_len : nat;          (* shape[axis] *)
  axis_mul_after : nat
}.

Definition normalize_axis (ndim : nat) (axis : Z) : Z :=
  if (axis <? 0)%Z then (Z.of_nat ndim + axis)%Z else axis.

(** The loop over [enumerate(shape, 0)]: the state is
    [(axis_mul_before, axis_mul_after)]. *)
Definition axis_muls (shape : list nat) (axis : Z) : nat * nat :=
  foldl (fun acc iv =>
           if (Z.of_nat iv.1 <? axis)%Z then (acc.1 * iv.2, acc.2)
           else if (axis <? Z.of_nat iv.1)%Z then (acc.1, acc.2 * iv.2)
           else acc)
        (1, 1) (enumerate shape).

(** The layout [sort_ir] and [sort_nms_ir] compute from [data.shape] and
    [axis]; the only failure is the [IndexError] of [shape[axis]]. *)
Definition axis_layout (shape : list nat) (axis : Z) : result Layout :=
  let axis := normalize_axis (length shape) axis in
  let muls := axis_muls shape axis in
  bind_result (py_getitem shape axis) (fun n =>
  Ok (mkLayout muls.1 n muls.2)).

(** [size] of [sort_nms_ir]: the product of all extents. *)
Definition shape_size (shape : list nat) : nat :=
  foldl (fun acc value => acc * value) 1 shape.

(** ** MergeSortEngine: the kernels of [sort_ir] *)

Record Bufs := mkBufs {
  values_out : list Z;
  values_out_swap : list Z;
  indices_out : option (list Z);
  indices_out_swap : option (list Z)
}.

(** Loads and stores on the optional index buffers. *)
Definition iload (b : option (list Z)) (i : nat) : Z := default [] b !!! i.
Definition istore (b : option (list Z)) (i : nat) (v : Z) : option (list Z) :=
  (fun l => <[i:=v]> l) <$> b.

(** [compare] (lines 186-194) *)
Definition compare (is_ascend : bool) (a b : Z) : bool :=
  if is_ascend then (a <=? b)%Z else (b <=? a)%Z.

(** [tvm.tir.ceil(tvm.tir.log2(float64 n))] cast to int64.  For the extents
    of real tensors the float computation is exact and equals the integer
    ceiling of the binary logarithm; at [n = 0] the float value is
    [-inf], and this model takes the loop bound 0 there (no round runs for
    a non-positive bound). *)
Definition ceil_log2 (n : nat) : nat := Nat.log2_up n.

Section merge_sort_engine.
Context (L : Layout) (max_threads : nat) (is_ascend : bool).

Definition nthread_tx : nat := max_threads.
Definition nthread_bx : nat := ceil_div (axis_len L) max_threads.
Definition nthread_by : nat := axis_mul_before L.
Definition nthread_bz : nat := axis_mul_after L.

(** Seed pass (lines 131-146). *)
Definition seed_thread (data : list Z) (by_ bz tid : nat) (st : Bufs) : Bufs :=
  let idx := (by_ * axis_len L + tid) * axis_mul_after L + bz in
  if tid <? axis_len L then
    mkBufs (<[idx := data !!! idx]> (values_out st))
           (values_out_swap st)
           (if bool_decide (is_Some (indices_out st))
            then istore (indices_out st) idx (Z.of_nat tid)
            else indices_out st)
           (indices_out_swap st)
  else st.

(** The thread-local cells [i] and [j] together with the two destination
    buffers [swap_values] writes. *)
Record Cursor := mkCursor {
  cur_i : nat;
  cur_j : nat;
  cur_dest : list Z;
  cur_dest_idx : option (list Z)
}.

(** [swap_values] with its [assign_i] and [assign_j] (lines 212-239);
    [track] is [indices_out is not None]. *)
Definition assign_i (track : bool) (source : list Z) (source_idx : option (list Z))
    (k_idx i_idx : nat) (c : Cursor) : Cursor :=
  mkCursor (cur_i c + 1) (cur_j c)
           (<[k_idx := source !!! i_idx]> (cur_dest c))
           (if track then istore (cur_dest_idx c) k_idx (iload source_idx i_idx)
            else cur_dest_idx c).

Definition assign_j (track : bool) (source : list Z) (source_idx : option (list Z))
    (k_idx j_idx : nat) (c : Cursor) : Cursor :=
  mkCursor (cur_i c) (cur_j c + 1)
           (<[k_idx := source !!! j_idx]> (cur_dest c))
           (if track then istore (cur_dest_idx c) k_idx (iload source_idx j_idx)
            else cur_dest_idx c).

Definition swap_values (track : bool) (source : list Z) (source_idx : option (list Z))
    (middle end_ k_idx i_idx j_idx : nat) (c : Cursor) : Cursor :=
  if (cur_i c <? middle) && (cur_j c <? end_) then
    if compare is_ascend (source !!! i_idx) (source !!! j_idx)
    then assign_i track source source_idx k_idx i_idx c
    else assign_j track source source_idx k_idx j_idx c
  else
    if cur_i c <? middle
    then assign_i track source source_idx k_idx i_idx c
    else assign_j track source source_idx k_idx j_idx c.

(** One iteration of the output loop of [bottom_up_merge] (lines 207-245):
    the state is the pair of cursors and the four buffers. *)
Definition merge_iter (by_ bz start middle end_ : nat) (even : bool)
    (s : nat * nat * Bufs) (k : nat) : nat * nat * Bufs :=
  let '(i, j, st) := s in
  let base_idx := by_ * axis_len L * axis_mul_after L + bz in
  let i_idx := base_idx + i * axis_mul_after L in
  let j_idx := base_idx + j * axis_mul_after L in
  let k_idx := base_idx + (k + start) * axis_mul_after L in
  let track := bool_decide (is_Some (indices_out st)) in
  if even then
    let c := swap_values track (values_out st) (indices_out st)
               middle end_ k_idx i_idx j_idx
               (mkCursor i j (values_out_swap st) (indices_out_swap st)) in
    (cur_i c, cur_j c,
     mkBufs (values_out st) (cur_dest c) (indices_out st) (cur_dest_idx c))
  else
    let c := swap_values track (values_out_swap st) (indices_out_swap st)
               middle end_ k_idx i_idx j_idx
               (mkCursor i j (values_out st) (indices_out st)) in
    (cur_i c, cur_j c,
     mkBufs (cur_dest c) (values_out_swap st) (cur_dest_idx c) (indices_out_swap st)).

(** [bottom_up_merge] (lines 196-245). *)
Definition bottom_up_merge (by_ bz start middle end_ : nat) (even : bool)
    (st : Bufs) : Bufs :=
  (foldl (merge_iter by_ bz start middle end_ even)
         (start, middle, st) (seq 0 (end_ - start))).2.

(** [mergesort] (lines 247-256) called for round [l2_width]
    (lines 259-267). *)
Definition mergesort (l2_width : nat) (by_ bz tid : nat) (st : Bufs) : Bufs :=
  let width := Nat.shiftl 2 l2_width in
  let size := axis_len L in
  let even := l2_width mod 2 =? 0 in
  let start := width * tid in
  if start <? size then
    let middle := Nat.min (start + width / 2) size in
    let end_ := Nat.min (start + width) size in
    bottom_up_merge by_ bz start middle end_ even st
  else st.

(** The launch of round [l2_width] (lines 161-184). *)
Definition merge_round (st : Bufs) (l2_width : nat) : Bufs :=
  let width := Nat.shiftl 2 l2_width in
  launch (ceil_div (axis_len L) (width * max_threads)) nthread_tx
         nthread_by nthread_bz (mergesort l2_width) st.

(** Writeback (lines 270-287). *)
Definition writeback_thread (by_ bz tid : nat) (st : Bufs) : Bufs :=
  if tid <? axis_len L then
    let idx := (by_ * axis_len L + tid) * axis_mul_after L + bz in
    mkBufs (<[idx := values_out_swap st !!! idx]> (values_out st))
           (values_out_swap st)
           (if bool_decide (is_Some (indices_out st))
            then istore (indices_out st) idx (iload (indices_out_swap st) idx)
            else indices_out st)
           (indices_out_swap st)
  else st.

Definition seed_pass (data : list Z) (st : Bufs) : Bufs :=
  launch nthread_bx nthread_tx nthread_by nthread_bz (seed_thread data) st.

Definition merge_rounds (lim : nat) (st : Bufs) : Bufs :=
  foldl merge_round st (seq 0 lim).

Definition writeback (lim : nat) (st : Bufs) : Bufs :=
  if lim mod 2 =? 1
  then launch nthread_bx nthread_tx nthread_by nthread_bz writeback_thread st
  else st.

(** The statement [sort_ir] returns, run on the device buffers. *)
Definition sort_kernels (data : list Z) (st : Bufs) : Bufs :=
  let lim := ceil_log2 (axis_len L) in
  writeback lim (merge_rounds lim (seed_pass data st)).
End merge_sort_engine.

(** [sort_ir] (lines 65-289): the layout from [data.shape] and [axis], the
    assertion on the swap index buffer, then the kernels. *)
Definition sort_ir (max_threads : nat) (shape : list nat) (data : list Z)
    (st : Bufs) (axis : Z) (is_ascend : bool) : result Bufs :=
  let ax := normalize_axis (length shape) axis in
  let muls := axis_muls shape ax in
  if bool_decide (is_Some (indices_out st)) && negb (bool_decide (is_Some (indices_out_swap st)))
  then Raise AssertionError
  else
    bind_result (py_getitem shape ax) (fun n =>
    Ok (sort_kernels (mkLayout muls.1 n muls.2) max_threads is_ascend data st)).

(** ** SegmentedTranspositionSortEngine: the kernel of [sort_nms_ir] *)

Record NmsBufs := mkNmsBufs {
  nms_data : list Z;      (* [data], sorted in place *)
  nms_output : list Z     (* [output], the indices *)
}.

(** The kernel is one launch in which every thread walks the segments
    [(i, j)] and, per segment, the passes [k]; a barrier closes every pass.
    The embedding runs pass after pass, every pass over all threads. *)
Section segmented_engine.
Context (L : Layout) (size max_threads : nat) (is_ascend : bool)
        (valid_count : list Z).

(** [valid_count[i * axis_mul_after + j]]: it bounds the pass loop and is
    compared with thread and pair positions inside that loop only, so a
    non-positive count runs nothing and acts as 0. *)
Definition current_sort_num (i j : nat) : nat :=
  Z.to_nat (valid_count !!! (i * axis_mul_after L + j)).

Definition nms_threads : list nat :=
  thread_ids (size / max_threads + 1) max_threads.

(** Lines 353-354. *)
Definition nms_init_thread (i j tid : nat) (st : NmsBufs) : NmsBufs :=
  let base_idx := i * axis_len L * axis_mul_after L + j in
  if tid <? axis_len L then
    mkNmsBufs (nms_data st)
              (<[base_idx + tid * axis_mul_after L := Z.of_nat tid]> (nms_output st))
  else st.

(** The exchange of lines 366-371 (and 379-384) through the local cells
    [temp_data] and [temp_index]. *)
Definition nms_exchange (offset : nat) (st : NmsBufs) : NmsBufs :=
  let amf := axis_mul_after L in
  let temp_data := nms_data st !!! offset in
  let data1 := <[offset := nms_data st !!! (offset + amf)]> (nms_data st) in
  let data2 := <[offset + amf := temp_data]> data1 in
  let temp_index := nms_output st !!! offset in
  let output1 := <[offset := nms_output st !!! (offset + amf)]> (nms_output st) in
  let output2 := <[offset + amf := temp_index]> output1 in
  mkNmsBufs data2 output2.

(** One thread in pass [k] of segment [(i, j)] (lines 357-384). *)
Definition nms_pass_thread (i j k tid : nat) (st : NmsBufs) : NmsBufs :=
  let current_sort_num := current_sort_num i j in
  let base_idx := i * axis_len L * axis_mul_after L + j in
  if tid <? (current_sort_num + 1) / 2 then
    let offset := base_idx + (2 * tid + k mod 2) * axis_mul_after L in
    let lhs := nms_data st !!! offset in
    let rhs := nms_data st !!! (offset + axis_mul_after L) in
    let st1 :=
      if (Z.b2z is_ascend =? 1)%Z
         && (2 * tid + k mod 2 + 1 <? current_sort_num)
         && (lhs >? rhs)%Z
      then nms_exchange offset st else st in
    let lhs1 := nms_data st1 !!! offset in
    let rhs1 := nms_data st1 !!! (offset + axis_mul_after L) in
    if (Z.b2z is_ascend =? 0)%Z
       && (2 * tid + k mod 2 + 1 <? current_sort_num)
       && (lhs1 <? rhs1)%Z
    then nms_exchange offset st1 else st1
  else st.

Definition nms_pass (i j : nat) (st : NmsBufs) (k : nat) : NmsBufs :=
  foldl (fun st tid => nms_pass_thread i j k tid st) st nms_threads.

(** The body of the loops over [i] and [j] (lines 351-385). *)
Definition nms_segment (i j : nat) (st : NmsBufs) : NmsBufs :=
  let current_sort_num := current_sort_num i j in
  let st1 := foldl (fun st tid => nms_init_thread i j tid st) st nms_threads in
  foldl (nms_pass i j) st1 (seq 0 current_sort_num).

Definition sort_nms_kernel (st : NmsBufs) : NmsBufs :=
  foldl (fun st i =>
    foldl (fun st j => nms_segment i j st) st (seq 0 (axis_mul_after L)))
    st (seq 0 (axis_mul_before L)).
End segmented_engine.

(** [sort_nms_ir] (lines 292-387). *)
Definition sort_nms_ir (max_threads : nat) (shape : list nat)
    (valid_count : list Z) (st : NmsBufs) (axis : Z) (is_ascend : bool)
    : result NmsBufs :=
  let ax := normalize_axis (length shape) axis in
  let muls := axis_muls shape ax in
  bind_result (py_getitem shape ax) (fun n =>
  Ok (sort_nms_kernel (mkLayout muls.1 n muls.2) (shape_size shape)
        max_threads is_ascend valid_count st)).

(** ** SortOperatorFacade: [sort], [argsort], [topk] *)

Record Tensor := mkTensor {
  t_shape : list nat;
  t_buf : list Z
}.

(** The storage [te.extern] binds to an output buffer declared by
    [decl_buffer]: [shape_size shape] cells of unspecified content (zeros
    here; the kernels overwrite every cell they later read). *)
Definition decl_buffer (shape : list nat) : list Z :=
  replicate (shape_size shape) 0%Z.

(** [sort] (lines 452-482). *)
Definition sort (max_threads : nat) (data : Tensor) (axis : Z) (is_ascend : bool)
    : result Tensor :=
  let value_buf := decl_buffer (t_shape data) in
  let value_buf_swap := decl_buffer (t_shape data) in
  bind_result
    (sort_ir max_threads (t_shape data) (t_buf data)
             (mkBufs value_buf value_buf_swap None None) axis is_ascend)
    (fun outs => Ok (mkTensor (t_shape data) (values_out outs))).

(** Modelled from the spec: [strided_slice] of [topi.transform] is not under
    src/.  [topk] calls it with [beg = [0] * ndim] and
    [strides = [1] * ndim], and the spec says of this call: slice the
    sorted output's axis to the first [k] entries.  For these arguments the
    slice keeps, along every dimension [i], the entries below [end[i]]
    (clipped to the extent). *)
Fixpoint slice_prefix (shape end_ : list nat) (buf : list Z) : list Z :=
  match shape, end_ with
  | d :: shape', e :: end' =>
      r ← seq 0 (Nat.min e d);
      slice_prefix shape' end'
        (take (shape_size shape') (drop (r * shape_size shape') buf))
  | _, _ => buf
  end.

Definition strided_slice (t : Tensor) (end_ : list nat) : Tensor :=
  mkTensor (zip_with Nat.min end_ (t_shape t))
           (slice_prefix (t_shape t) end_ (t_buf t)).

(** What [topk] returns: one tensor or a Python list of tensors. *)
Inductive TopkOut :=
  | OutTensor (t : Tensor)
  | OutList (ts : list Tensor).

Definition ret_type_allowed (ret_type : string) : bool :=
  (String.eqb ret_type "both" || String.eqb ret_type "values"
   || String.eqb ret_type "indices")%string.

(** The list [end] of lines 746-753. *)
Definition topk_end (shape : list nat) (axis : Z) (k : Z) : list nat :=
  imap (fun i d => if (Z.of_nat i =? axis)%Z then Z.to_nat k else d) shape.

(** [topk] (lines 675-764), for an integer [k]. *)
Definition topk (max_threads : nat) (data : Tensor) (k : Z) (axis : Z)
    (ret_type : string) (is_ascend : bool) : result TopkOut :=
  if negb (ret_type_allowed ret_type) then Raise AssertionError else
  let ndim := length (t_shape data) in
  let axis := if (axis <? 0)%Z then (axis + Z.of_nat ndim)%Z else axis in
  if negb ((0 <=? axis)%Z && (axis <? Z.of_nat ndim)%Z) then Raise AssertionError else
  let values_buf := decl_buffer (t_shape data) in
  let values_swap_buf := decl_buffer (t_shape data) in
  let indices_buf := decl_buffer (t_shape data) in
  let indices_swap_buf := decl_buffer (t_shape data) in
  bind_result
    (if String.eqb ret_type "values" then
       sort_ir max_threads (t_shape data) (t_buf data)
               (mkBufs values_buf values_swap_buf None None) axis is_ascend
     else
       sort_ir max_threads (t_shape data) (t_buf data)
               (mkBufs values_buf values_swap_buf
                       (Some indices_buf) (Some indices_swap_buf))
               axis is_ascend)
    (fun outs =>
       let values := mkTensor (t_shape data) (values_out outs) in
       let indices := mkTensor (t_shape data) (default [] (indices_out outs)) in
       if (k <? 1)%Z then
         if String.eqb ret_type "indices" then Ok (OutTensor indices)
         else if String.eqb ret_type "values" then Ok (OutTensor values)
         else Ok (OutList [values; indices])
       else
         let end_ := topk_end (t_shape data) axis k in
         if String.eqb ret_type "both" then
           Ok (OutList [strided_slice values end_; strided_slice indices end_])
         else if String.eqb ret_type "values" then
           Ok (OutList [strided_slice values end_])
         else
           Ok (OutList [strided_slice indices end_])).

(** The tensors of a graph live in a store of buffers; a tensor is a shape
    and the location of its buffer.  [argsort] with a valid count is the one
    facade whose kernel writes a buffer it receives as an input, so its
    model keeps the store explicit. *)
Definition Heap := list (list Z).

Record TensorRef := mkRef {
  r_shape : list nat;
  r_loc : nat
}.

Definition alloc (h : Heap) (buf : list Z) : Heap * nat :=
  (h ++ [buf], length h).

(** Modelled from the spec: [identity] of [topi.math] is not under src/; it
    is the elementwise copy of its argument into a tensor of its own. *)
Definition identity (h : Heap) (x : TensorRef) : Heap * TensorRef :=
  let hl := alloc h (h !!! r_loc x) in
  (hl.1, mkRef (r_shape x) hl.2).

(** [argsort] (lines 537-605).  With a valid count, [te.extern] binds
    [ins[0]] of [sort_nms_ir] to the buffer of [sorted_data] and [outs[0]]
    to a new buffer; the kernel writes both. *)
Definition argsort (max_threads : nat) (h : Heap) (data : TensorRef)
    (valid_count : option TensorRef) (axis : Z) (is_ascend : bool)
    : result (Heap * TensorRef) :=
  match valid_count with
  | Some valid_count =>
      let hs := identity h data in
      let sorted_data := hs.2 in
      let ho := alloc hs.1 (decl_buffer (r_shape data)) in
      let h2 := ho.1 in
      let out_buf := ho.2 in
      bind_result
        (sort_nms_ir max_threads (r_shape sorted_data)
           (h2 !!! r_loc valid_count)
           (mkNmsBufs (h2 !!! r_loc sorted_data) (h2 !!! out_buf))
           axis is_ascend)
        (fun st =>
           Ok (<[out_buf := nms_output st]>
                 (<[r_loc sorted_data := nms_data st]> h2),
               mkRef (r_shape data) out_buf))
  | None =>
      let hv := alloc h (decl_buffer (r_shape data)) in
      let hi := alloc hv.1 (decl_buffer (r_shape data)) in
      let hvs := alloc hi.1 (decl_buffer (r_shape data)) in
      let his := alloc hvs.1 (decl_buffer (r_shape data)) in
      let h4 := his.1 in
      bind_result
        (sort_ir max_threads (r_shape data) (h4 !!! r_loc data)
           (mkBufs (h4 !!! hv.2) (h4 !!! hvs.2)
                   (Some (h4 !!! hi.2)) (Some (h4 !!! his.2)))
           axis is_ascend)
        (fun outs =>
           Ok (<[his.2 := default [] (indices_out_swap outs)]>
                 (<[hvs.2 := values_out_swap outs]>
                    (<[hi.2 := default [] (indices_out outs)]>
                       (<[hv.2 := values_out outs]> h4))),
               mkRef (r_shape data) hi.2))
  end.

(** ** The reference sort of the specification *)

Section reference.
Context {A : Type} (le : A -> A -> bool).

(** The merge of two runs: the left element is emitted when [le] holds
    between the heads (ties favour the left run); when a run is
    exhausted the rest of the other one is copied. *)
Fixpoint ref_merge (l r : list A) : list A :=
  let fix merge_r (r : list A) : list A :=
    match l, r with
    | [], _ => r
    | _, [] => l
    | x :: l', y :: r' =>
        if le x y then x :: ref_merge l' r else y :: merge_r r'
    end in
  merge_r r.

(** Stable insertion of an element that comes before those of [l]. *)
Fixpoint ref_insert (x : A) (l : list A) : list A :=
  match l with
  | [] => [x]
  | y :: l' => if le x y then x :: l else y :: ref_insert x l'
  end.

(** The reference stable sort. *)
Fixpoint ref_sort (l : list A) : list A :=
  match l with
  | [] => []
  | x :: l' => ref_insert x (ref_sort l')
  end.
End reference.


(** ** Views used by the specifications *)

(** The cell of axis position [t] in the segment [(b, z)]. *)
Definition pos (L : Layout) (b z t : nat) : nat :=
  (b * axis_len L + t) * axis_mul_after L + z.

(** The segment [(b, z)] of a flat buffer, along the sort axis. *)
Definition seg (L : Layout) (b z : nat) (buf : list Z) : list Z :=
  (fun t => buf !!! pos L b z t) <$> seq 0 (axis_len L).

(** The number of cells of a buffer of the layout. *)
Definition numel (L : Layout) : nat :=
  axis_mul_before L * axis_len L * axis_mul_after L.

(** [l[a:b]] *)
Definition slice {A} (a b : nat) (l : list A) : list A :=
  take (b - a) (drop a l).

(** [blocks g w m l] applies [g] to each of the first [m] runs of length
    [w] of [l] (the last one may be shorter). *)
Fixpoint blocks {A} (g : list A -> list A) (w m : nat) (l : list A) : list A :=
  match m with
  | 0 => []
  | S m' => g (take w l) ++ blocks g w m' (drop w l)
  end.

(** The list in which every aligned run of length [w] is sorted. *)
Definition run_sorted {A} (le : A -> A -> bool) (w : nat) (l : list A) : list A :=
  blocks (ref_sort le) w (length l) l.

(** The list a merge round of run length [w] makes of [l]. *)
Definition merge_runs {A} (le : A -> A -> bool) (w m : nat) (l : list A) : list A :=
  blocks (fun run => ref_merge le (take (w / 2) run) (drop (w / 2) run)) w m l.

(** The segment [(b, z)] of a value buffer paired with that of its index
    buffer (a constant when indices are not tracked). *)
Definition pairs (L : Layout) (b z : nat) (vals : list Z)
    (idx : option (list Z)) : list (Z * Z) :=
  zip (seg L b z vals) (seg L b z (default [] idx)).

(** The comparison of the kernels on (value, index) pairs. *)
Definition le_fst (is_ascend : bool) (x y : Z * Z) : bool :=
  compare is_ascend x.1 y.1.

(** The index buffers of source and destination have [N] cells each when
    indices are tracked, and are absent otherwise. *)
Definition idx_ok (N : nat) (track : bool) (si di : option (list Z)) : Prop :=
  match si, di with
  | Some a, Some c => length a = N ∧ length c = N ∧ track = true
  | None, None => track = false
  | _, _ => False
  end.

(** The buffers of one sort all have the [N] cells of the data; the index
    buffers are both present ([track]) or both absent. *)
Definition bufs_ok (N : nat) (track : bool) (st : Bufs) : Prop :=
  length (values_out st) = N ∧ length (values_out_swap st) = N ∧
  idx_ok N track (indices_out st) (indices_out_swap st).

(** The roles of the ping-pong buffers in a round of the given parity. *)
Definition src_vals (even : bool) (st : Bufs) : list Z :=
  if even then values_out st else values_out_swap st.
Definition src_idx (even : bool) (st : Bufs) : option (list Z) :=
  if even then indices_out st else indices_out_swap st.
Definition dst_vals (even : bool) (st : Bufs) : list Z :=
  if even then values_out_swap st else values_out st.
Definition dst_idx (even : bool) (st : Bufs) : option (list Z) :=
  if even then indices_out_swap st else indices_out st.

(** The identity indices the seed pass writes. *)
Definition seed_tags (track : bool) (n : nat) : list Z :=
  if track then Z.of_nat <$> seq 0 n else replicate n inhabitant.

(** Which cursor [swap_values] advances: [true] for the left one. *)
Definition takes_left (asc : bool) (S : list (Z * Z)) (middle end_ i j : nat) : bool :=
  if (i <? middle) && (j <? end_) then le_fst asc (S !!! i) (S !!! j)
  else i <? middle.

(** The segment [(b, z)] of the four buffers: the pairs of the output side
    and those of the swap side. *)
Definition bview (L : Layout) (b z : nat) (st : Bufs)
    : list (Z * Z) * list (Z * Z) :=
  (pairs L b z (values_out st) (indices_out st),
   pairs L b z (values_out_swap st) (indices_out_swap st)).

(** What the thread [tid] of a round of run length [w] does to the
    destination segment [D], reading the source segment [S]. *)
Definition merge_run {A} (le : A -> A -> bool) (n w tid : nat)
    (S D : list A) : list A :=
  if w * tid <? n then
    let run := slice (w * tid) (w * tid + w) S in
    take (w * tid) D
      ++ ref_merge le (take (w / 2) run) (drop (w / 2) run)
      ++ drop (Nat.min (w * tid + w) n) D
  else D.

Definition merge_run_view (asc even : bool) (n w tid : nat)
    (v : list (Z * Z) * list (Z * Z)) : list (Z * Z) * list (Z * Z) :=
  if even then (v.1, merge_run (le_fst asc) n w tid v.1 v.2)
  else (merge_run (le_fst asc) n w tid v.2 v.1, v.2).

(** The side of the ping-pong pair that holds the runs after [r] rounds. *)
Definition current_side (r : nat) (v : list (Z * Z) * list (Z * Z))
    : list (Z * Z) :=
  if r mod 2 =? 0 then v.1 else v.2.

(** ** Odd-even transposition, on lists and on sequences *)

(** The key the transposition sort orders by: the value, negated for the
    descending direction. *)
Definition sort_key (is_ascend : bool) (x : Z * Z) : Z :=
  if is_ascend then x.1 else (- x.1)%Z.

Section transposition.
Context {A : Type} (key : A -> Z).

(** Compare-and-swap of the cells [p] and [p + 1] of a segment of which
    the first [vc] cells are sorted. *)
Definition cas `{!Inhabited A} (vc p : nat) (l : list A) : list A :=
  if (p + 1 <? vc) && Z.ltb (key (l !!! (p + 1))) (key (l !!! p))
  then <[p + 1 := l !!! p]> (<[p := l !!! (p + 1)]> l)
  else l.

(** What the thread [tid] does to the segment in pass [k]. *)
Definition oets_thread `{!Inhabited A} (vc k tid : nat) (l : list A) : list A :=
  if tid <? (vc + 1) / 2 then cas vc (2 * tid + k mod 2) l else l.

Definition oets_pass `{!Inhabited A} (vc T : nat) (l : list A) (k : nat) : list A :=
  foldl (fun l tid => oets_thread vc k tid l) l (seq 0 T).

(** The [vc] passes of a segment. *)
Definition oets `{!Inhabited A} (vc T : nat) (l : list A) : list A :=
  foldl (oets_pass vc T) l (seq 0 vc).

(** [p] is the left cell of a pair of pass [k]. *)
Definition pair_left (vc k p : nat) : bool :=
  (p mod 2 =? k mod 2) && (p + 1 <? vc).

(** Pass [k] on a sequence given by its cells. *)
Definition exchange_pass (vc k : nat) (u : nat -> A) (x : nat) : A :=
  if pair_left vc k x then
    if Z.ltb (key (u (x + 1))) (key (u x)) then u (x + 1) else u x
  else if (1 <=? x) && pair_left vc k (x - 1) then
    if Z.ltb (key (u x)) (key (u (x - 1))) then u (x - 1) else u x
  else u x.

(** The passes [0 .. t). *)
Fixpoint exchange_passes (vc t : nat) (u : nat -> A) : nat -> A :=
  match t with
  | 0 => u
  | S t' => exchange_pass vc t' (exchange_passes vc t' u)
  end.

(** The number of cells below [i] whose key is at most [c]. *)
Fixpoint count_le (c : Z) (u : nat -> A) (i : nat) : nat :=
  match i with
  | 0 => 0
  | S i' => count_le c u i' + (if Z.leb (key (u i')) c then 1 else 0)
  end.
End transposition.

(** The segment [(b, z)] of the buffers of [sort_nms_ir]: values paired
    with indices. *)
Definition nview (L : Layout) (b z : nat) (st : NmsBufs) : list (Z * Z) :=
  pairs L b z (nms_data st) (Some (nms_output st)).

Definition nms_ok (N : nat) (st : NmsBufs) : Prop :=
  length (nms_data st) = N ∧ length (nms_output st) = N.

(** The segment [l] with the identity indices. *)
Definition tag_identity (l : list Z) : list (Z * Z) :=
  zip l (Z.of_nat <$> seq 0 (length l)).

(** The axis, once normalized, names a dimension of the shape. *)
Definition valid_axis (shape : list nat) (axis : Z) : Prop :=
  (0 <= normalize_axis (length shape) axis < Z.of_nat (length shape))%Z.

(** The layout of a valid axis: the extents before the axis, the extent
    of the axis and the extents after it. *)
Definition layout_of (shape : list nat) (axis : Z) : Layout :=
  let a := Z.to_nat (normalize_axis (length shape) axis) in
  mkLayout (shape_size (take a shape)) (shape !!! a)
           (shape_size (drop (S a) shape)).


(** ** [swap] and the Python slices it takes *)

(** A bound [i] of a slice of a list of [len] entries: a negative bound
    counts from the end, and every bound is clipped to [0 .. len]. *)
Definition py_slice_bound (len : nat) (i : Z) : nat :=
  if (i <? 0)%Z then Z.to_nat (Z.max (i + Z.of_nat len) 0)
  else Nat.min (Z.to_nat i) len.

(** [arr[start:stop]]; [None] is an omitted bound. *)
Definition py_slice {A} (arr : list A) (start stop : option Z) : list A :=
  let a := from_option (py_slice_bound (length arr)) 0 start in
  let b := from_option (py_slice_bound (length arr)) (length arr) stop in
  slice a b arr.

(** [swap] (lines 29-31): [arr[:axis] + [arr[-1]] + arr[axis + 1 : -1] +
    [arr[axis]]]. *)
Definition swap {A} (arr : list A) (axis : Z) : result (list A) :=
  let front := py_slice arr None (Some axis) in
  bind_result (py_getitem arr (-1)) (fun last =>
  let middle := py_slice arr (Some (axis + 1)%Z) (Some (-1)%Z) in
  bind_result (py_getitem arr axis) (fun at_axis =>
  Ok (((front ++ [last]) ++ middle) ++ [at_axis]))).

(** ** The order of a stable sort *)

(** On (value, position) pairs: by value in the direction of the sort, and
    by position among equal values. *)
Definition stable_le (is_ascend : bool) (x y : Z * Z) : Prop :=
  compare is_ascend x.1 y.1 = true ∧ (x.1 = y.1 → (x.2 < y.2)%Z).

(** Equal values lie in the order of their positions. *)
Definition ties_ordered (l : list (Z * Z)) : Prop :=
  ∀ i j, i < j < length l →
    (l !!! i).1 = (l !!! j).1 → ((l !!! i).2 < (l !!! j).2)%Z.

(** * Properties *)

(** ** The scenarios of the specification, by evaluation *)

Example scenario_A :
  sort_ir 4 [5] [5;3;4;1;2]%Z
    (mkBufs (replicate 5 0%Z) (replicate 5 0%Z)
            (Some (replicate 5 0%Z)) (Some (replicate 5 0%Z))) (-1) true
  = Ok (mkBufs [1;2;3;4;5]%Z [1;2;3;4;5]%Z (Some [3;4;1;2;0]%Z) (Some [3;4;1;2;0]%Z)).
Proof. vm_compute. reflexivity. Qed.

Example scenario_B :
  topk 4 (mkTensor [3] [1;5;3]%Z) 2 (-1) "both" false
  = Ok (OutList [mkTensor [2] [5;3]%Z; mkTensor [2] [1;2]%Z]).
Proof. vm_compute. reflexivity. Qed.

Example scenario_C :
  sort_nms_ir 4 [5] [3%Z] (mkNmsBufs [9;7;8;2;2]%Z (replicate 5 0%Z)) (-1) true
  = Ok (mkNmsBufs [7;8;9;2;2]%Z [1;2;0;3;4]%Z).
Proof. vm_compute. reflexivity. Qed.

Example topk_2d :
  topk 4 (mkTensor [2;3;2] [5;0; 3;1; 4;2;   1;9; 1;8; 0;7]%Z) 2 1 "both" false
  = Ok (OutList [mkTensor [2;2;2] [5;2; 4;1;  1;9; 1;8]%Z;
                 mkTensor [2;2;2] [0;2; 2;1;  0;0; 1;1]%Z]).
Proof. vm_compute. reflexivity. Qed.

Example argsort_nms :
  argsort 4 [[9;7;8;2;2]%Z; [3%Z]] (mkRef [5] 0) (Some (mkRef [1] 1)) (-1) true
  = Ok ([[9;7;8;2;2]%Z; [3%Z]; [7;8;9;2;2]%Z; [1;2;0;3;4]%Z], mkRef [5] 3).
Proof. vm_compute. reflexivity. Qed.

(** ** Threads and grids *)

Lemma bind_singleton_fmap {A B} (g : A → B) (l : list A) :
  l ≫= (λ x, [g x]) = g <$> l.
Proof. induction l as [|x l IH]; [done|]. csimpl. by rewrite IH. Qed.

Lemma thread_ids_seq nbx ntx : thread_ids nbx ntx = seq 0 (nbx * ntx).
Proof.
  unfold thread_ids. induction nbx as [|a IH]; [done|].
  assert (seq 0 (S a * ntx) = seq 0 (a * ntx) ++ seq (a * ntx) ntx) as ->.
  { rewrite <- seq_app. f_equal. lia. }
  rewrite seq_S, bind_app, IH. f_equal. csimpl.
  rewrite app_nil_r, bind_singleton_fmap.
  replace (seq (a * ntx) ntx) with (seq (a * ntx + 0) ntx) by (f_equal; lia).
  by rewrite <- (fmap_add_seq (a * ntx) 0 ntx).
Qed.

Lemma ceil_div_mul_ge a b : 0 < b → a ≤ ceil_div a b * b.
Proof.
  intros Hb. unfold ceil_div.
  pose proof (Nat.div_mod_eq (a + b - 1) b) as H.
  pose proof (Nat.mod_upper_bound (a + b - 1) b) as H'. nia.
Qed.

Lemma slice_nil {A} a b (l : list A) : b ≤ a → slice a b l = [].
Proof. intros. unfold slice. by replace (b - a) with 0 by lia. Qed.

Lemma slice_ge {A} a b (l : list A) : length l ≤ a → slice a b l = [].
Proof. intros. unfold slice. rewrite drop_ge by done. by rewrite take_nil. Qed.

Lemma slice_cons `{!Inhabited A} a b (l : list A) :
  a < b → a < length l → slice a b l = l !!! a :: slice (S a) b l.
Proof.
  intros Hab Hal. unfold slice.
  replace (b - a) with (S (b - S a)) by lia.
  destruct (lookup_lt_is_Some_2 l a Hal) as [x Hx].
  rewrite (drop_S l x a Hx). simpl.
  by rewrite (list_lookup_total_correct l a x Hx).
Qed.

Lemma length_slice {A} a b (l : list A) :
  length (slice a b l) = Nat.min (b - a) (length l - a).
Proof. unfold slice. by rewrite length_take, length_drop. Qed.

Lemma slice_clamp {A} a b (l : list A) :
  slice a (Nat.min b (length l)) l = slice a b l.
Proof.
  unfold slice. destruct (decide (b ≤ length l)).
  - by rewrite Nat.min_l by lia.
  - rewrite Nat.min_r by lia. rewrite !take_ge; [done|rewrite length_drop; lia..].
Qed.

Lemma slice_app_slice {A} a b c (l : list A) :
  a ≤ b → b ≤ c → slice a b l ++ slice b c l = slice a c l.
Proof.
  intros. unfold slice.
  replace (c - a) with ((b - a) + (c - b)) by lia.
  rewrite <- take_take_drop. f_equal. rewrite drop_drop. do 2 f_equal. lia.
Qed.

Lemma slice_0_ge {A} b (l : list A) : length l ≤ b → slice 0 b l = l.
Proof. intros. unfold slice. rewrite drop_0. apply take_ge. lia. Qed.

(** ** Segments of a flat buffer *)

Lemma mul_add_inj m x y x' y' :
  y < m → y' < m → x * m + y = x' * m + y' → x = x' ∧ y = y'.
Proof.
  intros Hy Hy' H.
  destruct (Nat.lt_trichotomy x x') as [Hlt|[->|Hlt]]; [|lia|].
  - assert (S x * m ≤ x' * m) by (apply Nat.mul_le_mono_r; lia). lia.
  - assert (S x' * m ≤ x * m) by (apply Nat.mul_le_mono_r; lia). lia.
Qed.

Section layout.
Context (L : Layout).

Lemma pos_base b z t :
  b * axis_len L * axis_mul_after L + z + t * axis_mul_after L = pos L b z t.
Proof. unfold pos. lia. Qed.

Lemma pos_succ b z t : pos L b z t + axis_mul_after L = pos L b z (S t).
Proof. unfold pos. lia. Qed.

Lemma pos_lt b z t :
  b < axis_mul_before L → t < axis_len L → z < axis_mul_after L →
  pos L b z t < numel L.
Proof.
  unfold pos, numel. intros Hb Ht Hz.
  assert (S b * axis_len L ≤ axis_mul_before L * axis_len L)
    by (apply Nat.mul_le_mono_r; lia).
  assert (S (b * axis_len L + t) * axis_mul_after L
          ≤ axis_mul_before L * axis_len L * axis_mul_after L)
    by (apply Nat.mul_le_mono_r; lia).
  lia.
Qed.

Lemma pos_inj b z t b' z' t' :
  t < axis_len L → t' < axis_len L →
  z < axis_mul_after L → z' < axis_mul_after L →
  pos L b z t = pos L b' z' t' → b = b' ∧ z = z' ∧ t = t'.
Proof.
  unfold pos. intros Ht Ht' Hz Hz' H.
  apply mul_add_inj in H as [H ->]; [|done..].
  apply mul_add_inj in H as [-> ->]; done.
Qed.

Lemma seg_lookup b z buf t :
  seg L b z buf !! t =
    if decide (t < axis_len L) then Some (buf !!! pos L b z t) else None.
Proof.
  unfold seg. rewrite list_lookup_fmap. case_decide.
  - by rewrite lookup_seq_lt.
  - by rewrite lookup_seq_ge by lia.
Qed.

Lemma length_seg b z buf : length (seg L b z buf) = axis_len L.
Proof. unfold seg. by rewrite length_fmap, length_seq. Qed.

Lemma seg_lookup_total b z buf t :
  t < axis_len L → seg L b z buf !!! t = buf !!! pos L b z t.
Proof.
  intros. apply list_lookup_total_correct. rewrite seg_lookup.
  by rewrite decide_True.
Qed.

Lemma seg_insert_same b z t v buf :
  t < axis_len L → z < axis_mul_after L → pos L b z t < length buf →
  seg L b z (<[pos L b z t := v]> buf) = <[t := v]> (seg L b z buf).
Proof.
  intros Ht Hz Hlen. apply list_eq. intros i.
  rewrite seg_lookup. destruct (decide (i = t)) as [->|Hne].
  - rewrite decide_True by done.
    rewrite list_lookup_total_insert_eq by done.
    by rewrite list_lookup_insert_eq by (by rewrite length_seg).
  - rewrite list_lookup_insert_ne by done. rewrite seg_lookup.
    case_decide; [|done].
    rewrite list_lookup_total_insert_ne; [done|].
    intros Heq. apply pos_inj in Heq as (_ & _ & ?); done.
Qed.

Lemma seg_insert_other b z t v buf b' z' :
  t < axis_len L → z < axis_mul_after L → z' < axis_mul_after L →
  (b', z') ≠ (b, z) →
  seg L b' z' (<[pos L b z t := v]> buf) = seg L b' z' buf.
Proof.
  intros Ht Hz Hz' Hne. apply list_eq. intros i.
  rewrite !seg_lookup. case_decide; [|done].
  rewrite list_lookup_total_insert_ne; [done|].
  intros Heq. apply pos_inj in Heq as (? & ? & _); [|done..].
  apply Hne. congruence.
Qed.

Lemma length_insert_seg (buf : list Z) p v : length (<[p := v]> buf) = length buf.
Proof. apply length_insert. Qed.

Lemma buf_ext buf buf' :
  length buf = numel L → length buf' = numel L →
  (∀ b z, b < axis_mul_before L → z < axis_mul_after L →
          seg L b z buf = seg L b z buf') →
  buf = buf'.
Proof.
  intros Hl Hl' Hseg.
  apply (list_eq_same_length _ _ (numel L)); [done..|].
  intros p x y Hp Hx Hy.
  assert (0 < axis_mul_after L ∧ 0 < axis_len L) as [Ha Hn].
  { unfold numel in Hp. split; destruct (axis_mul_after L), (axis_len L); lia. }
  set (z := p mod axis_mul_after L).
  set (q := p / axis_mul_after L).
  set (t := q mod axis_len L).
  set (b := q / axis_len L).
  assert (z < axis_mul_after L) by (apply Nat.mod_upper_bound; lia).
  assert (t < axis_len L) by (apply Nat.mod_upper_bound; lia).
  assert (p = pos L b z t) as Hpos.
  { unfold pos, b, t, z, q.
    pose proof (Nat.div_mod_eq p (axis_mul_after L)).
    pose proof (Nat.div_mod_eq (p / axis_mul_after L) (axis_len L)). lia. }
  assert (b < axis_mul_before L).
  { unfold numel in Hp. unfold pos in Hpos.
    destruct (decide (b < axis_mul_before L)) as [|Hge]; [done|].
    assert (axis_mul_before L * axis_len L ≤ b * axis_len L)
      by (apply Nat.mul_le_mono_r; lia).
    assert (axis_mul_before L * axis_len L * axis_mul_after L
            ≤ (b * axis_len L + t) * axis_mul_after L)
      by (apply Nat.mul_le_mono_r; lia).
    lia. }
  pose proof (Hseg b z ltac:(done) ltac:(done)) as Heq.
  apply (f_equal (λ l, l !!! t)) in Heq.
  rewrite !seg_lookup_total in Heq by done. rewrite <- Hpos in Heq.
  apply list_lookup_total_correct in Hx, Hy. congruence.
Qed.
End layout.

(** ** The reference sort *)

Section reference_facts.
Context {A : Type} (le : A → A → bool).

Lemma ref_merge_nil_l r : ref_merge le [] r = r.
Proof. by destruct r. Qed.

Lemma ref_merge_nil_r l : ref_merge le l [] = l.
Proof. by destruct l. Qed.

Lemma ref_merge_cons x l y r :
  ref_merge le (x :: l) (y :: r) =
    if le x y then x :: ref_merge le l (y :: r)
    else y :: ref_merge le (x :: l) r.
Proof. reflexivity. Qed.

Lemma length_ref_merge l r :
  length (ref_merge le l r) = length l + length r.
Proof.
  revert r. induction l as [|x l IHl]; intros r.
  { by rewrite ref_merge_nil_l. }
  induction r as [|y r IHr].
  { rewrite ref_merge_nil_r. simpl. lia. }
  rewrite ref_merge_cons. destruct (le x y); cbn [length].
  - rewrite IHl. cbn [length]. lia.
  - rewrite IHr. cbn [length]. lia.
Qed.

Lemma ref_merge_Permutation l r : ref_merge le l r ≡ₚ l ++ r.
Proof.
  revert r. induction l as [|x l IHl]; intros r.
  { by rewrite ref_merge_nil_l. }
  induction r as [|y r IHr].
  { by rewrite ref_merge_nil_r, app_nil_r. }
  rewrite ref_merge_cons. destruct (le x y).
  - by rewrite IHl.
  - rewrite IHr. by rewrite <- Permutation_middle.
Qed.

Lemma length_ref_insert x l : length (ref_insert le x l) = S (length l).
Proof.
  induction l as [|y l IH]; [done|]. simpl.
  destruct (le x y); simpl; [done|]. by rewrite IH.
Qed.

Lemma length_ref_sort l : length (ref_sort le l) = length l.
Proof.
  induction l as [|x l IH]; [done|]. simpl.
  by rewrite length_ref_insert, IH.
Qed.

Lemma ref_insert_Permutation x l : ref_insert le x l ≡ₚ x :: l.
Proof.
  induction l as [|y l IH]; [done|]. simpl.
  destruct (le x y); [done|]. rewrite IH. apply Permutation_swap.
Qed.

Lemma ref_sort_Permutation l : ref_sort le l ≡ₚ l.
Proof.
  induction l as [|x l IH]; [done|]. simpl.
  by rewrite ref_insert_Permutation, IH.
Qed.

Lemma ref_sort_nil_inv l : ref_sort le l = [] → l = [].
Proof.
  intros H. apply (f_equal length) in H.
  rewrite length_ref_sort in H. by destruct l.
Qed.

(** A list that is sorted already is left as it is. *)
Lemma ref_sort_sorted l :
  Sorted (λ x y, le x y = true) l → ref_sort le l = l.
Proof.
  induction 1 as [|x l Hs IH Hhd]; [done|]. simpl. rewrite IH.
  destruct Hhd as [|y l Hxy]; [done|]. simpl. by rewrite Hxy.
Qed.

Section total_order.
Hypothesis le_total : ∀ x y, le x y = true ∨ le y x = true.
Hypothesis le_trans : ∀ x y z, le x y = true → le y z = true → le x z = true.

Lemma le_false_flip x y : le x y = false → le y x = true.
Proof. intros H. destruct (le_total x y); congruence. Qed.

(** Inserting into the left run commutes with the merge: the merge
    never lets an element of the right run overtake an equal one on
    its left. *)
Lemma ref_merge_insert x l r :
  ref_merge le (ref_insert le x l) r = ref_insert le x (ref_merge le l r).
Proof.
  revert l. induction r as [|y r IHr]; intros l.
  { by rewrite !ref_merge_nil_r. }
  induction l as [|a l IHl].
  - rewrite ref_merge_nil_l. cbn [ref_insert].
    rewrite ref_merge_cons. destruct (le x y) eqn:Hxy.
    + by rewrite ref_merge_nil_l.
    + specialize (IHr []). cbn [ref_insert] in IHr.
      rewrite IHr. by rewrite ref_merge_nil_l.
  - cbn [ref_insert]. destruct (le x a) eqn:Hxa.
    + rewrite !ref_merge_cons. destruct (le x y) eqn:Hxy.
      * destruct (le a y); cbn [ref_insert]; by rewrite ?Hxa, ?Hxy.
      * assert (le a y = false) as ->.
        { destruct (le a y) eqn:Hay; [|done].
          rewrite (le_trans _ _ _ Hxa Hay) in Hxy. done. }
        cbn [ref_insert]. rewrite Hxy. f_equal.
        rewrite <- IHr. cbn [ref_insert]. by rewrite Hxa.
    + rewrite !ref_merge_cons. destruct (le a y) eqn:Hay.
      * cbn [ref_insert]. rewrite Hxa. f_equal. apply IHl.
      * assert (le x y = false) as Hxy.
        { destruct (le x y) eqn:Hxy; [|done].
          apply le_false_flip in Hxa.
          rewrite (le_trans _ _ _ Hxa Hxy) in Hay. done. }
        cbn [ref_insert]. rewrite Hxy. f_equal.
        rewrite <- IHr. cbn [ref_insert]. by rewrite Hxa.
Qed.

(** Merging the sorted halves gives the sort of the whole. *)
Lemma ref_merge_sort l r :
  ref_merge le (ref_sort le l) (ref_sort le r) = ref_sort le (l ++ r).
Proof.
  induction l as [|x l IH]; cbn [ref_sort app].
  - by rewrite ref_merge_nil_l.
  - by rewrite ref_merge_insert, IH.
Qed.

Lemma ref_insert_Sorted x l :
  Sorted (λ x y, le x y = true) l →
  Sorted (λ x y, le x y = true) (ref_insert le x l).
Proof.
  induction 1 as [|y l Hs IH Hhd]; simpl.
  { by repeat constructor. }
  destruct (le x y) eqn:Hxy.
  - by repeat constructor.
  - constructor; [done|].
    destruct Hhd as [|z l Hyz]; simpl.
    + constructor. by apply le_false_flip.
    + destruct (le x z); constructor; [by apply le_false_flip|done].
Qed.

Lemma ref_sort_Sorted l : Sorted (λ x y, le x y = true) (ref_sort le l).
Proof.
  induction l as [|x l IH]; simpl; [constructor|].
  by apply ref_insert_Sorted.
Qed.
End total_order.
End reference_facts.

(** Sorting commutes with a map that respects the comparison. *)
Lemma ref_insert_fmap {A B} (f : A → B) (leA : A → A → bool) (leB : B → B → bool) x l :
  (∀ x y, leA x y = leB (f x) (f y)) →
  f <$> ref_insert leA x l = ref_insert leB (f x) (f <$> l).
Proof.
  intros Hle. induction l as [|y l IH]; [done|].
  cbn [ref_insert fmap list_fmap].
  rewrite <- Hle. destruct (leA x y); [done|].
  cbn [fmap list_fmap]. f_equal. apply IH.
Qed.

Lemma ref_sort_fmap {A B} (f : A → B) (leA : A → A → bool) (leB : B → B → bool) l :
  (∀ x y, leA x y = leB (f x) (f y)) →
  f <$> ref_sort leA l = ref_sort leB (f <$> l).
Proof.
  intros Hle. induction l as [|x l IH]; [done|].
  cbn [ref_sort fmap list_fmap].
  rewrite (ref_insert_fmap f leA leB) by done. f_equal. apply IH.
Qed.

(** The comparison of the kernels is a total order on the values. *)
Lemma compare_total asc x y : compare asc x y = true ∨ compare asc y x = true.
Proof. unfold compare. destruct asc; lia. Qed.

Lemma compare_trans asc x y z :
  compare asc x y = true → compare asc y z = true → compare asc x z = true.
Proof. unfold compare. destruct asc; lia. Qed.

Lemma compare_antisym asc x y :
  compare asc x y = true → compare asc y x = true → x = y.
Proof. unfold compare. destruct asc; lia. Qed.

Lemma compare_refl asc x : compare asc x x = true.
Proof. unfold compare. destruct asc; lia. Qed.

(** A sorted permutation of a list is its reference sort. *)
Lemma ref_sort_unique asc (l l' : list Z) :
  Sorted (λ x y, compare asc x y = true) l' → l' ≡ₚ l →
  l' = ref_sort (compare asc) l.
Proof.
  intros Hs Hp.
  eapply (Sorted_unique_strong (λ x y, compare asc x y = true)).
  - intros x y _ _. apply compare_antisym.
  - done.
  - apply ref_sort_Sorted, compare_total.
  - by rewrite ref_sort_Permutation.
  Unshelve. intros x y z. apply compare_trans.
Qed.

(** ** Runs of a list *)

Lemma slice_drop {A} a b c (l : list A) :
  slice a b (drop c l) = slice (c + a) (c + b) l.
Proof. unfold slice. rewrite drop_drop. f_equal. lia. Qed.

Lemma slice_app_r {A} a b c (X Y : list A) :
  length X = c → slice (c + a) (c + b) (X ++ Y) = slice a b Y.
Proof.
  intros <-. unfold slice. rewrite drop_app_add. f_equal. lia.
Qed.

Lemma slice_take {A} a b c (l : list A) :
  b ≤ c → slice a b (take c l) = slice a b l.
Proof.
  intros Hbc. destruct (decide (a ≤ b)) as [Hab|Hab].
  - unfold slice. replace c with (a + (c - a)) by lia.
    rewrite <- take_drop_commute, take_take. f_equal. lia.
  - by rewrite !slice_nil by lia.
Qed.

Lemma take_slice {A} a b c (l : list A) :
  take c (slice a b l) = slice a (Nat.min (a + c) b) l.
Proof. unfold slice. rewrite take_take. f_equal. lia. Qed.

Lemma drop_slice {A} a b c (l : list A) :
  drop c (slice a b l) = slice (a + c) b l.
Proof.
  destruct (decide (c ≤ b - a)) as [Hc|Hc].
  - unfold slice. replace (b - a) with (c + (b - a - c)) at 1 by lia.
    rewrite <- take_drop_commute, drop_drop. f_equal. lia.
  - rewrite (slice_nil (a + c)) by lia. apply drop_ge.
    rewrite length_slice. lia.
Qed.

Section blocks_facts.
Context {A : Type} (g : list A → list A).
Hypothesis g_length : ∀ x, length (g x) = length x.

Lemma g_nil : g [] = [].
Proof. apply length_zero_iff_nil. by rewrite g_length. Qed.

Lemma length_blocks w m l :
  length (blocks g w m l) = Nat.min (w * m) (length l).
Proof.
  revert l. induction m as [|m IH]; intros l; simpl.
  { lia. }
  rewrite length_app, g_length, IH, length_take, length_drop. lia.
Qed.

Lemma blocks_nil w m : blocks g w m [] = [].
Proof. apply length_zero_iff_nil. rewrite length_blocks. simpl. lia. Qed.

Lemma blocks_snoc w m l :
  blocks g w (S m) l = blocks g w m l ++ g (slice (w * m) (w * m + w) l).
Proof.
  revert l. induction m as [|m IH]; intros l.
  - simpl. rewrite app_nil_r. f_equal. unfold slice.
    rewrite Nat.mul_0_r, drop_0. f_equal. lia.
  - change (blocks g w (S (S m)) l)
      with (g (take w l) ++ blocks g w (S m) (drop w l)).
    rewrite IH. cbn [blocks]. rewrite <- app_assoc. do 3 f_equal.
    rewrite slice_drop. f_equal; lia.
Qed.

Lemma blocks_slice w m q l :
  q < m →
  slice (w * q) (w * q + w) (blocks g w m l) = g (slice (w * q) (w * q + w) l).
Proof.
  revert l q. induction m as [|m IH]; intros l q Hq; [lia|].
  cbn [blocks]. destruct (decide (w ≤ length l)) as [Hw|Hw].
  - assert (length (g (take w l)) = w) as Hlen.
    { rewrite g_length, length_take. lia. }
    destruct q as [|q].
    + rewrite Nat.mul_0_r. unfold slice at 1. rewrite drop_0.
      replace (0 + w - 0) with w by lia.
      rewrite take_app_length' by done. f_equal.
      unfold slice. rewrite drop_0. f_equal. lia.
    + replace (w * S q) with (w + w * q) by lia.
      rewrite <- Nat.add_assoc, slice_app_r by done.
      rewrite IH by lia. by rewrite slice_drop, Nat.add_assoc.
  - rewrite (drop_ge l w) by lia. rewrite blocks_nil, app_nil_r.
    rewrite (take_ge l w) by lia.
    destruct q as [|q].
    + rewrite Nat.mul_0_r. rewrite !slice_0_ge; [done|lia|].
      rewrite g_length. lia.
    + rewrite !slice_ge; [by rewrite g_nil|nia|rewrite g_length; nia].
Qed.

Lemma blocks_more w m m' l :
  length l ≤ w * m → m ≤ m' → blocks g w m' l = blocks g w m l.
Proof.
  intros Hl Hm. induction Hm as [|m' Hm IH]; [done|].
  rewrite blocks_snoc, IH. rewrite slice_ge by nia.
  by rewrite g_nil, app_nil_r.
Qed.

Lemma blocks_whole w m l :
  length l ≤ w → 0 < m → blocks g w m l = g l.
Proof.
  intros Hl Hm. rewrite (blocks_more w 1 m) by lia.
  cbn [blocks]. by rewrite app_nil_r, take_ge.
Qed.

Lemma blocks_singletons m l :
  (∀ x, g [x] = [x]) → blocks g 1 m l = take m l.
Proof.
  intros Hg. revert l. induction m as [|m IH]; intros l; [done|].
  cbn [blocks]. destruct l as [|x l]; simpl.
  - by rewrite g_nil, blocks_nil.
  - rewrite take_0, Hg, drop_0, IH. done.
Qed.
End blocks_facts.

(** ** (value, index) pairs of a segment *)

Section pairs_facts.
Context (L : Layout).

Lemma length_pairs b z vals idx : length (pairs L b z vals idx) = axis_len L.
Proof.
  unfold pairs. rewrite length_zip_with, !length_seg. lia.
Qed.

Lemma pairs_lookup_total b z vals idx t :
  t < axis_len L →
  pairs L b z vals idx !!! t = (vals !!! pos L b z t, iload idx (pos L b z t)).
Proof.
  intros Ht. unfold pairs, iload.
  apply list_lookup_total_correct.
  rewrite lookup_zip_with, !seg_lookup, !decide_True by done. done.
Qed.

Lemma pairs_fst b z vals idx : (pairs L b z vals idx).*1 = seg L b z vals.
Proof. unfold pairs. apply fst_zip. rewrite !length_seg. lia. Qed.

Lemma pairs_snd b z vals idx :
  (pairs L b z vals idx).*2 = seg L b z (default [] idx).
Proof. unfold pairs. apply snd_zip. rewrite !length_seg. lia. Qed.

Lemma seg_nil_insert b z t :
  <[t := inhabitant]> (seg L b z []) = seg L b z [].
Proof.
  apply list_insert_id'. intros Ht. rewrite length_seg in Ht.
  rewrite seg_lookup, decide_True by done. by rewrite lookup_total_nil.
Qed.

(** A store of a pair into the cell [t] of the segment [(b, z)]. *)
Lemma pairs_write b z vals idx t v w (track : bool) :
  t < axis_len L → z < axis_mul_after L → b < axis_mul_before L →
  length vals = numel L →
  match idx with
  | Some di => length di = numel L ∧ track = true
  | None => track = false ∧ w = inhabitant
  end →
  pairs L b z (<[pos L b z t := v]> vals)
        (if track then istore idx (pos L b z t) w else idx)
  = <[t := (v, w)]> (pairs L b z vals idx).
Proof.
  intros Ht Hz Hb Hlen Hidx. unfold pairs.
  pose proof (pos_lt L b z t Hb Ht Hz) as Hp.
  change (v, w) with (pair v w). rewrite insert_zip_with.
  rewrite seg_insert_same by (done || lia). f_equal.
  destruct idx as [di|].
  - destruct Hidx as [Hdi ->]. simpl.
    by rewrite seg_insert_same by (done || lia).
  - destruct Hidx as [-> ->]. simpl. by rewrite seg_nil_insert.
Qed.

Lemma pairs_write_other b z vals idx t v w (track : bool) b' z' :
  t < axis_len L → z < axis_mul_after L → z' < axis_mul_after L →
  (b', z') ≠ (b, z) →
  pairs L b' z' (<[pos L b z t := v]> vals)
        (if track then istore idx (pos L b z t) w else idx)
  = pairs L b' z' vals idx.
Proof.
  intros Ht Hz Hz' Hne. unfold pairs.
  rewrite seg_insert_other by done. f_equal.
  destruct track, idx as [di|]; simpl; try done.
  by rewrite seg_insert_other.
Qed.
End pairs_facts.

(** ** One merge: [swap_values], [merge_iter], [bottom_up_merge] *)

Lemma idx_ok_sym N track si di : idx_ok N track si di → idx_ok N track di si.
Proof.
  unfold idx_ok. destruct si, di; try done. by intros (? & ? & ?).
Qed.

(** One step of the reference merge, in terms of the cursors. *)
Lemma ref_merge_step asc (Src : list (Z * Z)) middle end_ i j :
  middle ≤ length Src → end_ ≤ length Src → i < middle ∨ j < end_ →
  let left := takes_left asc Src middle end_ i j in
  ref_merge (le_fst asc) (slice i middle Src) (slice j end_ Src)
  = Src !!! (if left then i else j)
      :: ref_merge (le_fst asc)
           (slice (if left then i + 1 else i) middle Src)
           (slice (if left then j else j + 1) end_ Src).
Proof.
  intros Hm He Hij left. subst left. unfold takes_left.
  destruct (i <? middle) eqn:Hi, (j <? end_) eqn:Hj; cbn [andb].
  - apply Nat.ltb_lt in Hi, Hj.
    rewrite (slice_cons i) by lia. rewrite (slice_cons j) by lia.
    rewrite ref_merge_cons.
    replace (i + 1) with (S i) by lia. replace (j + 1) with (S j) by lia.
    destruct (le_fst asc (Src !!! i) (Src !!! j)); f_equal.
    + f_equal. by rewrite (slice_cons j) by lia.
    + f_equal. by rewrite (slice_cons i) by lia.
  - apply Nat.ltb_lt in Hi. apply Nat.ltb_ge in Hj.
    rewrite (slice_nil j) by lia. rewrite !ref_merge_nil_r.
    replace (i + 1) with (S i) by lia. by rewrite (slice_cons i) by lia.
  - apply Nat.ltb_ge in Hi. apply Nat.ltb_lt in Hj.
    rewrite (slice_nil i) by lia. rewrite !ref_merge_nil_l.
    replace (j + 1) with (S j) by lia. by rewrite (slice_cons j) by lia.
  - apply Nat.ltb_ge in Hi, Hj. lia.
Qed.

Lemma takes_left_bounds asc (Src : list (Z * Z)) middle end_ i j :
  i < middle ∨ j < end_ →
  if takes_left asc Src middle end_ i j then i < middle else j < end_.
Proof.
  intros Hij. unfold takes_left.
  destruct (Nat.ltb_spec i middle), (Nat.ltb_spec j end_); cbn [andb];
    try destruct (le_fst asc _ _); lia.
Qed.

Section merge_step.
Context (L : Layout) (asc : bool).
Context (b z : nat).
Hypothesis Hb : b < axis_mul_before L.
Hypothesis Hz : z < axis_mul_after L.

Lemma swap_values_view track sv si middle end_ t i j dv di :
  t < axis_len L → middle ≤ axis_len L → end_ ≤ axis_len L →
  i < middle ∨ j < end_ →
  length sv = numel L → length dv = numel L →
  idx_ok (numel L) track si di →
  let Src := pairs L b z sv si in
  let left := takes_left asc Src middle end_ i j in
  let c := swap_values asc track sv si middle end_
             (pos L b z t) (pos L b z i) (pos L b z j) (mkCursor i j dv di) in
  cur_i c = (if left then i + 1 else i) ∧
  cur_j c = (if left then j else j + 1) ∧
  pairs L b z (cur_dest c) (cur_dest_idx c)
    = <[t := Src !!! (if left then i else j)]> (pairs L b z dv di) ∧
  (∀ b' z', z' < axis_mul_after L → (b', z') ≠ (b, z) →
     pairs L b' z' (cur_dest c) (cur_dest_idx c) = pairs L b' z' dv di) ∧
  length (cur_dest c) = numel L ∧
  idx_ok (numel L) track si (cur_dest_idx c).
Proof.
  intros Ht Hm He Hij Hsv Hdv Hidx Src left c.
  assert (∀ s, s < axis_len L →
    let c' := mkCursor i j (<[pos L b z t := sv !!! pos L b z s]> dv)
                (if track then istore di (pos L b z t) (iload si (pos L b z s))
                 else di) in
    pairs L b z (cur_dest c') (cur_dest_idx c')
      = <[t := Src !!! s]> (pairs L b z dv di) ∧
    (∀ b' z', z' < axis_mul_after L → (b', z') ≠ (b, z) →
       pairs L b' z' (cur_dest c') (cur_dest_idx c') = pairs L b' z' dv di) ∧
    length (cur_dest c') = numel L ∧
    idx_ok (numel L) track si (cur_dest_idx c')) as Hwrite.
  { intros s Hs c'. subst c'. cbn [cur_dest cur_dest_idx].
    split; [|split; [|split]].
    - unfold Src. rewrite pairs_lookup_total by done.
      apply pairs_write; try done.
      unfold idx_ok in Hidx.
      destruct si as [a|], di as [d|];
        [by destruct Hidx as (? & ? & ?)|done|done|].
      split; [done|]. unfold iload. simpl. by rewrite lookup_total_nil.
    - intros b' z' Hz' Hne. by apply pairs_write_other.
    - by rewrite length_insert.
    - unfold idx_ok in *.
      destruct si as [a|], di as [d|]; [|done|done|by rewrite Hidx].
      destruct Hidx as (? & ? & ->). simpl. by rewrite length_insert. }
  subst c left. unfold swap_values, takes_left, assign_i, assign_j.
  cbn [cur_i cur_j cur_dest cur_dest_idx].
  destruct (i <? middle) eqn:Hi, (j <? end_) eqn:Hj; cbn [andb].
  - apply Nat.ltb_lt in Hi, Hj.
    assert (le_fst asc (Src !!! i) (Src !!! j)
            = compare asc (sv !!! pos L b z i) (sv !!! pos L b z j)) as <-.
    { unfold Src, le_fst. by rewrite !pairs_lookup_total by lia. }
    destruct (le_fst asc (Src !!! i) (Src !!! j)); cbn [cur_i cur_j cur_dest cur_dest_idx];
      (split; [done|split; [done|]]); apply Hwrite; lia.
  - apply Nat.ltb_lt in Hi. cbn [cur_i cur_j cur_dest cur_dest_idx].
    (split; [done|split; [done|]]); apply Hwrite; lia.
  - apply Nat.ltb_lt in Hj. cbn [cur_i cur_j cur_dest cur_dest_idx].
    (split; [done|split; [done|]]); apply Hwrite; lia.
  - apply Nat.ltb_ge in Hi, Hj. lia.
Qed.

Lemma bufs_ok_idx_ok track even st :
  bufs_ok (numel L) track st →
  idx_ok (numel L) track (src_idx even st) (dst_idx even st) ∧
  bool_decide (is_Some (indices_out st)) = track.
Proof.
  intros (_ & _ & H). unfold idx_ok, src_idx, dst_idx in *.
  destruct (indices_out st) as [io|], (indices_out_swap st) as [ios|],
    even; simpl; try done; by destruct H as (? & ? & ->).
Qed.

Lemma merge_iter_view track start middle end_ even i j st k :
  bufs_ok (numel L) track st →
  k + start < axis_len L → middle ≤ axis_len L → end_ ≤ axis_len L →
  i < middle ∨ j < end_ →
  let Src := pairs L b z (src_vals even st) (src_idx even st) in
  let left := takes_left asc Src middle end_ i j in
  ∃ st',
    merge_iter L asc b z start middle end_ even (i, j, st) k
      = (if left then i + 1 else i, if left then j else j + 1, st') ∧
    bufs_ok (numel L) track st' ∧
    src_vals even st' = src_vals even st ∧
    src_idx even st' = src_idx even st ∧
    pairs L b z (dst_vals even st') (dst_idx even st')
      = <[k + start := Src !!! (if left then i else j)]>
          (pairs L b z (dst_vals even st) (dst_idx even st)) ∧
    (∀ b' z', z' < axis_mul_after L → (b', z') ≠ (b, z) →
       pairs L b' z' (dst_vals even st') (dst_idx even st')
       = pairs L b' z' (dst_vals even st) (dst_idx even st)).
Proof.
  intros Hok Hk Hm He Hij Src left.
  destruct (bufs_ok_idx_ok track even st Hok) as [Hidx Htrack].
  destruct Hok as (Hvo & Hvs & Hio).
  assert (length (src_vals even st) = numel L) as Hsv by (by destruct even).
  assert (length (dst_vals even st) = numel L) as Hdv by (by destruct even).
  pose proof (swap_values_view _ (src_vals even st) (src_idx even st)
                middle end_ (k + start) i j (dst_vals even st) (dst_idx even st)
                Hk Hm He Hij Hsv Hdv Hidx) as Hsw.
  cbv zeta in Hsw. fold Src in Hsw. fold left in Hsw.
  destruct Hsw as (Hi & Hj & Hp & Hother & Hlen & Hidx').
  unfold merge_iter. rewrite !pos_base, Htrack.
  destruct even; cbn [src_vals src_idx dst_vals dst_idx] in *;
    eexists; (split; [rewrite Hi, Hj; reflexivity|]);
    cbn [values_out values_out_swap indices_out indices_out_swap].
  - split; [|done]. unfold bufs_ok. cbn. done.
  - split; [|done]. unfold bufs_ok. cbn. split; [done|split; [done|]].
    by apply idx_ok_sym.
Qed.

(** The output loop of [bottom_up_merge] writes the reference merge of
    what the two cursors still have to read. *)
Lemma merge_loop_view track start middle end_ even m :
  ∀ k i j st,
  bufs_ok (numel L) track st →
  middle ≤ axis_len L → end_ ≤ axis_len L → i ≤ middle → j ≤ end_ →
  m = (middle - i) + (end_ - j) → k + start + m ≤ axis_len L →
  let Src := pairs L b z (src_vals even st) (src_idx even st) in
  let D := pairs L b z (dst_vals even st) (dst_idx even st) in
  let st' := (foldl (merge_iter L asc b z start middle end_ even)
                    (i, j, st) (seq k m)).2 in
  bufs_ok (numel L) track st' ∧
  src_vals even st' = src_vals even st ∧
  src_idx even st' = src_idx even st ∧
  pairs L b z (dst_vals even st') (dst_idx even st')
    = take (k + start) D
      ++ ref_merge (le_fst asc) (slice i middle Src) (slice j end_ Src)
      ++ drop (k + start + m) D ∧
  (∀ b' z', z' < axis_mul_after L → (b', z') ≠ (b, z) →
     pairs L b' z' (dst_vals even st') (dst_idx even st')
     = pairs L b' z' (dst_vals even st) (dst_idx even st)).
Proof.
  induction m as [|m IH]; intros k i j st Hok Hm He Hi Hj Hmeq Hkm Src D st'.
  - subst st'. cbn [seq foldl snd]. split; [done|]. split; [done|].
    split; [done|]. split; [|done].
    rewrite !slice_nil by lia. rewrite ref_merge_nil_l. cbn [app].
    rewrite Nat.add_0_r. by rewrite take_drop.
  - assert (i < middle ∨ j < end_) as Hij by lia.
    destruct (merge_iter_view track start middle end_ even i j st k
                Hok ltac:(lia) Hm He Hij)
      as (st1 & Hstep & Hok1 & Hsv1 & Hsi1 & Hd1 & Hother1).
    fold Src in Hstep, Hd1. fold D in Hd1.
    set (left := takes_left asc Src middle end_ i j) in *.
    subst st'. cbn [seq foldl]. rewrite Hstep.
    specialize (IH (S k) (if left then i + 1 else i)
                   (if left then j else j + 1) st1 Hok1 Hm He).
    pose proof (takes_left_bounds asc Src middle end_ i j Hij) as Hb'.
    fold left in Hb'.
    destruct IH as (Hok' & Hsv' & Hsi' & Hd' & Hother').
    { destruct left; lia. }
    { destruct left; lia. }
    { destruct left; lia. }
    { lia. }
    split; [done|]. split; [congruence|]. split; [congruence|].
    split.
    + rewrite Hd'. rewrite Hsv1, Hsi1. fold Src. rewrite Hd1.
      assert (k + start < length D) as HkD.
      { unfold D. rewrite length_pairs. lia. }
      rewrite (ref_merge_step asc Src middle end_ i j);
        [|unfold Src; rewrite length_pairs; lia..|done].
      fold left.
      replace (S k + start) with (S (k + start)) by lia.
      erewrite take_S_r; [|by apply list_lookup_insert_eq].
      rewrite take_insert_ge by lia.
      rewrite drop_insert_lt by lia.
      rewrite <- app_assoc. cbn [app]. do 4 f_equal. lia.
    + intros b' z' Hz' Hne. rewrite Hother' by done. by apply Hother1.
Qed.

(** [bottom_up_merge] on the run [start, middle, end_). *)
Lemma bottom_up_merge_view track start middle end_ even st :
  bufs_ok (numel L) track st →
  start ≤ middle → middle ≤ end_ → end_ ≤ axis_len L →
  let Src := pairs L b z (src_vals even st) (src_idx even st) in
  let D := pairs L b z (dst_vals even st) (dst_idx even st) in
  let st' := bottom_up_merge L asc b z start middle end_ even st in
  bufs_ok (numel L) track st' ∧
  src_vals even st' = src_vals even st ∧
  src_idx even st' = src_idx even st ∧
  pairs L b z (dst_vals even st') (dst_idx even st')
    = take start D
      ++ ref_merge (le_fst asc) (slice start middle Src) (slice middle end_ Src)
      ++ drop end_ D ∧
  (∀ b' z', z' < axis_mul_after L → (b', z') ≠ (b, z) →
     pairs L b' z' (dst_vals even st') (dst_idx even st')
     = pairs L b' z' (dst_vals even st) (dst_idx even st)).
Proof.
  intros Hok Hsm Hme Hen Src D st'.
  pose proof (merge_loop_view track start middle end_ even (end_ - start)
                0 start middle st Hok ltac:(lia) Hen Hsm Hme
                ltac:(lia) ltac:(lia)) as H.
  cbv zeta in H. fold Src D in H.
  replace (0 + start + (end_ - start)) with end_ in H by lia.
  exact H.
Qed.
End merge_step.

(** ** Launches seen segment by segment *)

Section grid.
Context {St V : Type} (view : nat → nat → St → V) (ok : St → Prop).

(** The threads of one segment, one after the other. *)
Lemma threads_fold_view (body : nat → St → St) (f : nat → V → V)
    (b z nbz : nat) (tids : list nat) :
  (∀ tid st, ok st →
     ok (body tid st) ∧
     view b z (body tid st) = f tid (view b z st) ∧
     (∀ b' z', z' < nbz → (b', z') ≠ (b, z) →
        view b' z' (body tid st) = view b' z' st)) →
  ∀ st, ok st →
    let st' := foldl (λ st tid, body tid st) st tids in
    ok st' ∧
    view b z st' = foldl (λ v tid, f tid v) (view b z st) tids ∧
    (∀ b' z', z' < nbz → (b', z') ≠ (b, z) → view b' z' st' = view b' z' st).
Proof.
  intros Hbody. induction tids as [|tid tids IH]; intros st Hok; cbn [foldl].
  { done. }
  destruct (Hbody tid st Hok) as (Hok1 & Hv1 & Ho1).
  destruct (IH _ Hok1) as (Hok' & Hv' & Ho').
  split; [done|]. split; [by rewrite Hv', Hv1|].
  intros b' z' Hz' Hne. by rewrite Ho', Ho1.
Qed.

(** A fold over the segments in which every step works on its own
    segment. *)
Lemma grid_fold_view (cell : nat → nat → St → St) (g : nat → nat → V → V)
    (nby nbz : nat) :
  (∀ by_ bz st, by_ < nby → bz < nbz → ok st →
     ok (cell by_ bz st) ∧
     view by_ bz (cell by_ bz st) = g by_ bz (view by_ bz st) ∧
     (∀ b z, z < nbz → (b, z) ≠ (by_, bz) →
        view b z (cell by_ bz st) = view b z st)) →
  ∀ st, ok st →
    let st' := foldl (λ st by_, foldl (λ st bz, cell by_ bz st) st (seq 0 nbz))
                     st (seq 0 nby) in
    ok st' ∧
    (∀ b z, b < nby → z < nbz → view b z st' = g b z (view b z st)).
Proof.
  intros Hcell.
  assert (∀ by_ m st, by_ < nby → m ≤ nbz → ok st →
    let st' := foldl (λ st bz, cell by_ bz st) st (seq 0 m) in
    ok st' ∧
    (∀ b z, z < nbz →
       view b z st' = if decide (b = by_ ∧ z < m)
                      then g b z (view b z st) else view b z st)) as Hrow.
  { intros by_ m st Hby. induction m as [|m IH]; intros Hm Hok.
    - cbn [seq foldl]. split; [done|]. intros b z Hz.
      rewrite decide_False; [done|lia].
    - rewrite seq_S, foldl_app. cbn [foldl].
      destruct (IH ltac:(lia) Hok) as (Hok1 & Hv1). cbn [Nat.add].
      destruct (Hcell by_ m _ Hby ltac:(lia) Hok1) as (Hok2 & Hv2 & Ho2).
      split; [done|]. intros b z Hz.
      destruct (decide ((b, z) = (by_, m))) as [[= -> ->]|Hne].
      + rewrite Hv2, Hv1 by done.
        rewrite decide_False by lia. rewrite decide_True by lia. done.
      + rewrite Ho2, Hv1 by done.
        assert ((b = by_ ∧ z < S m) ↔ (b = by_ ∧ z < m)) as Hiff.
        { split; intros [-> ?]; (split; [done|]); [|lia].
          destruct (decide (z = m)) as [->|]; [by destruct Hne|lia]. }
        destruct (decide (b = by_ ∧ z < S m)), (decide (b = by_ ∧ z < m));
          tauto. }
  intros st Hok.
  assert (∀ m, m ≤ nby →
    let st' := foldl (λ st by_, foldl (λ st bz, cell by_ bz st) st (seq 0 nbz))
                     st (seq 0 m) in
    ok st' ∧
    (∀ b z, z < nbz →
       view b z st' = if decide (b < m)
                      then g b z (view b z st) else view b z st)) as Hall.
  { induction m as [|m IH]; intros Hm.
    - cbn [seq foldl]. split; [done|]. intros b z Hz.
      rewrite decide_False; [done|lia].
    - rewrite seq_S, foldl_app. cbn [foldl Nat.add].
      destruct (IH ltac:(lia)) as (Hok1 & Hv1).
      destruct (Hrow m nbz _ ltac:(lia) ltac:(lia) Hok1) as (Hok2 & Hv2).
      split; [done|]. intros b z Hz. rewrite Hv2, Hv1 by done.
      repeat case_decide; try done; exfalso; lia. }
  destruct (Hall nby ltac:(lia)) as (Hok' & Hv').
  split; [done|]. intros b z Hb Hz. rewrite Hv' by done.
  by rewrite decide_True.
Qed.

(** A launch: every thread works on its own segment. *)
Lemma launch_view (body : nat → nat → nat → St → St)
    (f : nat → nat → nat → V → V) (nbx ntx nby nbz : nat) :
  (∀ by_ bz tid st, by_ < nby → bz < nbz → ok st →
     ok (body by_ bz tid st) ∧
     view by_ bz (body by_ bz tid st) = f by_ bz tid (view by_ bz st) ∧
     (∀ b z, z < nbz → (b, z) ≠ (by_, bz) →
        view b z (body by_ bz tid st) = view b z st)) →
  ∀ st, ok st →
    let st' := launch nbx ntx nby nbz body st in
    ok st' ∧
    (∀ b z, b < nby → z < nbz →
       view b z st'
       = foldl (λ v tid, f b z tid v) (view b z st) (seq 0 (nbx * ntx))).
Proof.
  intros Hbody st Hok. unfold launch. rewrite thread_ids_seq.
  apply (grid_fold_view
           (λ by_ bz st, foldl (λ st tid, body by_ bz tid st) st
                               (seq 0 (nbx * ntx)))
           (λ b z v, foldl (λ v tid, f b z tid v) v (seq 0 (nbx * ntx))));
    [|done].
  intros by_ bz st0 Hby Hbz Hok0.
  apply (threads_fold_view (body by_ bz) (f by_ bz) by_ bz nbz); [|done].
  intros tid st1 Hok1. by apply Hbody.
Qed.
End grid.

(** ** A merge round *)

Section merge_round_lists.
Context {A : Type} (le : A → A → bool).

Lemma length_merge_block w (run : list A) :
  length (ref_merge le (take (w / 2) run) (drop (w / 2) run)) = length run.
Proof.
  rewrite length_ref_merge, length_take, length_drop. lia.
Qed.

(** The threads [0 .. T) of one segment write the merged runs one after
    the other. *)
Lemma merge_run_fold n w T (Src D : list A) :
  length Src = n → length D = n →
  foldl (λ D tid, merge_run le n w tid Src D) D (seq 0 T)
  = merge_runs le w T Src ++ drop (Nat.min (w * T) n) D.
Proof.
  intros HS HD. induction T as [|T IH].
  - cbn [seq foldl]. unfold merge_runs. cbn [blocks app].
    by rewrite Nat.mul_0_r, Nat.min_0_l, drop_0.
  - rewrite seq_S, foldl_app, IH. cbn [foldl Nat.add].
    unfold merge_runs. rewrite blocks_snoc. fold (merge_runs le w T Src).
    assert (length (merge_runs le w T Src) = Nat.min (w * T) n) as Hlen.
    { unfold merge_runs. rewrite length_blocks; [by rewrite HS|].
      apply length_merge_block. }
    unfold merge_run. destruct (Nat.ltb_spec (w * T) n) as [Hlt|Hge].
    + rewrite Nat.min_l in Hlen by lia.
      rewrite take_app_length' by done.
      rewrite drop_app_ge by lia. rewrite drop_drop, Hlen.
      rewrite <- app_assoc. do 3 f_equal. lia.
    + rewrite (slice_ge (w * T)) by lia. rewrite take_nil, drop_nil.
      rewrite ref_merge_nil_l, app_nil_r. do 2 f_equal. lia.
Qed.
End merge_round_lists.

Lemma slice_left_half {A} n a h w (l : list A) :
  length l = n → h ≤ w →
  slice a (Nat.min (a + h) n) l = take h (slice a (a + w) l).
Proof.
  intros <- ?. rewrite slice_clamp, take_slice. f_equal. lia.
Qed.

Lemma slice_right_half {A} n a h w (l : list A) :
  length l = n →
  slice (Nat.min (a + h) n) (Nat.min (a + w) n) l
  = drop h (slice a (a + w) l).
Proof.
  intros <-. rewrite slice_clamp, drop_slice.
  destruct (decide (a + h ≤ length l)).
  - by rewrite Nat.min_l by lia.
  - rewrite Nat.min_r by lia. by rewrite !slice_ge by lia.
Qed.

Lemma blocks_enough {A} (g : list A → list A) w m m' l :
  (∀ x, length (g x) = length x) →
  length l ≤ w * m → length l ≤ w * m' →
  blocks g w m l = blocks g w m' l.
Proof.
  intros Hg Hm Hm'. destruct (Nat.le_ge_cases m m').
  - symmetry. by apply blocks_more.
  - by apply blocks_more.
Qed.

Lemma shiftl_2_pos r : 2 ≤ Nat.shiftl 2 r.
Proof.
  rewrite Nat.shiftl_mul_pow2.
  pose proof (Nat.pow_nonzero 2 r). lia.
Qed.

Section merge_round.
Context (L : Layout) (max_threads : nat) (asc : bool).

Lemma mergesort_view track r b z tid st :
  b < axis_mul_before L → z < axis_mul_after L →
  bufs_ok (numel L) track st →
  let st' := mergesort L asc r b z tid st in
  bufs_ok (numel L) track st' ∧
  bview L b z st'
    = merge_run_view asc (r mod 2 =? 0) (axis_len L) (Nat.shiftl 2 r) tid
        (bview L b z st) ∧
  (∀ b' z', z' < axis_mul_after L → (b', z') ≠ (b, z) →
     bview L b' z' st' = bview L b' z' st).
Proof.
  intros Hb Hz Hok st'. subst st'. unfold mergesort.
  set (w := Nat.shiftl 2 r). set (even := r mod 2 =? 0).
  unfold merge_run_view, merge_run.
  destruct (Nat.ltb_spec (w * tid) (axis_len L)) as [Hlt|Hge].
  2:{ split; [done|]. split; [|done]. by destruct even, (bview L b z st). }
  set (start := w * tid) in *.
  set (middle := Nat.min (start + w / 2) (axis_len L)).
  set (end_ := Nat.min (start + w) (axis_len L)).
  assert (w / 2 ≤ w) as Hhw by (apply Nat.Div0.div_le_upper_bound; lia).
  destruct (bottom_up_merge_view L asc b z Hb Hz track start middle end_ even st Hok)
    as (Hok' & Hsv & Hsi & Hd & Hother); [lia..|].
  split; [done|].
  assert (∀ b' z',
    pairs L b' z' (src_vals even
        (bottom_up_merge L asc b z start middle end_ even st))
      (src_idx even (bottom_up_merge L asc b z start middle end_ even st))
    = pairs L b' z' (src_vals even st) (src_idx even st)) as Hsrc.
  { intros. by rewrite Hsv, Hsi. }
  assert (length (pairs L b z (src_vals even st) (src_idx even st))
          = axis_len L) as Hlen by apply length_pairs.
  subst middle end_.
  rewrite (slice_left_half (axis_len L) start (w / 2) w) in Hd by done.
  rewrite (slice_right_half (axis_len L)) in Hd by done.
  unfold bview. destruct even; cbn [src_vals src_idx dst_vals dst_idx] in *;
    cbn [fst snd].
  - split.
    + by rewrite Hsrc, Hd.
    + intros b' z' Hz' Hne. by rewrite Hsrc, Hother.
  - split.
    + by rewrite Hsrc, Hd.
    + intros b' z' Hz' Hne. by rewrite Hsrc, Hother.
Qed.

Lemma merge_run_view_fold even n w tids (v : list (Z * Z) * list (Z * Z)) :
  foldl (λ v tid, merge_run_view asc even n w tid v) v tids
  = if even
    then (v.1, foldl (λ D tid, merge_run (le_fst asc) n w tid v.1 D) v.2 tids)
    else (foldl (λ D tid, merge_run (le_fst asc) n w tid v.2 D) v.1 tids, v.2).
Proof.
  revert v. induction tids as [|tid tids IH]; intros [A B];
    cbn [foldl fst snd].
  { by destruct even. }
  rewrite IH. unfold merge_run_view. by destruct even.
Qed.

(** A round merges, in every segment, the runs of the source side into
    the destination side and leaves the source side as it is. *)
Lemma merge_round_view track r st :
  0 < max_threads → bufs_ok (numel L) track st →
  let st' := merge_round L max_threads asc st r in
  let w := Nat.shiftl 2 r in
  bufs_ok (numel L) track st' ∧
  (∀ b z, b < axis_mul_before L → z < axis_mul_after L →
     bview L b z st'
     = if r mod 2 =? 0
       then ((bview L b z st).1,
             merge_runs (le_fst asc) w (axis_len L) (bview L b z st).1)
       else (merge_runs (le_fst asc) w (axis_len L) (bview L b z st).2,
             (bview L b z st).2)).
Proof.
  intros HM Hok st' w. subst st'. unfold merge_round. fold w.
  set (nbx := ceil_div (axis_len L) (w * max_threads)).
  pose proof (shiftl_2_pos r) as Hw. fold w in Hw.
  destruct (launch_view (bview L) (bufs_ok (numel L) track) (mergesort L asc r)
              (λ _ _ tid v, merge_run_view asc (r mod 2 =? 0) (axis_len L) w tid v)
              nbx (nthread_tx max_threads) (nthread_by L) (nthread_bz L))
    with (st := st) as (Hok' & Hv); [|done|].
  { intros by_ bz tid st0 Hby Hbz Hok0.
    by apply mergesort_view. }
  split; [done|]. intros b z Hb Hz. rewrite (Hv b z Hb Hz).
  rewrite merge_run_view_fold.
  assert (axis_len L ≤ w * (nbx * nthread_tx max_threads)) as HT.
  { unfold nbx, nthread_tx.
    pose proof (ceil_div_mul_ge (axis_len L) (w * max_threads)
                  ltac:(lia)). lia. }
  assert (∀ Src D : list (Z * Z),
    length Src = axis_len L → length D = axis_len L →
    foldl (λ D tid, merge_run (le_fst asc) (axis_len L) w tid Src D) D
          (seq 0 (nbx * nthread_tx max_threads))
    = merge_runs (le_fst asc) w (axis_len L) Src) as Hfold.
  { intros Src D HS HD. rewrite (merge_run_fold _ (axis_len L)) by done.
    rewrite drop_ge by lia. rewrite app_nil_r.
    unfold merge_runs. apply blocks_enough; [|lia|nia].
    intros x. apply length_merge_block. }
  unfold bview. cbn [fst snd].
  destruct (r mod 2 =? 0); by rewrite Hfold by apply length_pairs.
Qed.
End merge_round.

(** ** Sorted runs double from round to round *)

Lemma blocks_ext_slices {A} (g1 g2 : list A → list A) w m (l1 l2 : list A) :
  (∀ q, q < m →
     g1 (slice (w * q) (w * q + w) l1) = g2 (slice (w * q) (w * q + w) l2)) →
  blocks g1 w m l1 = blocks g2 w m l2.
Proof.
  induction m as [|m IH]; intros H; [done|].
  rewrite !blocks_snoc, IH by (intros; apply H; lia).
  by rewrite H by lia.
Qed.

Section run_sorted_facts.
Context {A : Type} (le : A → A → bool).
Hypothesis le_total : ∀ x y, le x y = true ∨ le y x = true.
Hypothesis le_trans : ∀ x y z, le x y = true → le y z = true → le x z = true.

Lemma length_run_sorted w (l : list A) :
  0 < w → length (run_sorted le w l) = length l.
Proof.
  intros. unfold run_sorted.
  rewrite length_blocks by apply length_ref_sort. nia.
Qed.

Lemma run_sorted_slice w q (l : list A) :
  0 < w →
  slice (w * q) (w * q + w) (run_sorted le w l)
  = ref_sort le (slice (w * q) (w * q + w) l).
Proof.
  intros Hw. destruct (decide (q < length l)) as [Hq|Hq].
  - unfold run_sorted. apply blocks_slice; [apply length_ref_sort|done].
  - rewrite !slice_ge; [done|nia|rewrite length_run_sorted by done; nia].
Qed.

(** Runs of length 1 are sorted. *)
Lemma run_sorted_1 (l : list A) : run_sorted le 1 l = l.
Proof.
  unfold run_sorted. rewrite blocks_singletons; [|apply length_ref_sort|done].
  by rewrite take_ge.
Qed.

(** One run that covers the list: the list is sorted. *)
Lemma run_sorted_whole w (l : list A) :
  length l ≤ w → run_sorted le w l = ref_sort le l.
Proof.
  intros Hw. unfold run_sorted. destruct l as [|x l]; [done|].
  apply blocks_whole; [apply length_ref_sort|done|simpl; lia].
Qed.

(** Merging the runs of length [h] pairwise gives the runs of length
    [2 * h]: the loop invariant of the doubling rounds. *)
Lemma merge_runs_run_sorted h (l : list A) :
  0 < h →
  merge_runs le (2 * h) (length l) (run_sorted le h l)
  = run_sorted le (2 * h) l.
Proof.
  intros Hh. unfold merge_runs, run_sorted at 2.
  apply blocks_ext_slices. intros q _.
  replace (2 * h / 2) with h by (rewrite Nat.mul_comm, Nat.div_mul; lia).
  rewrite take_slice, drop_slice.
  replace (Nat.min (2 * h * q + h) (2 * h * q + 2 * h))
    with (h * (2 * q) + h) by lia.
  replace (2 * h * q) with (h * (2 * q)) at 1 by lia.
  replace (2 * h * q + h) with (h * (2 * q + 1)) by lia.
  replace (2 * h * q + 2 * h) with (h * (2 * q + 1) + h) at 1 by lia.
  rewrite !run_sorted_slice by done.
  rewrite ref_merge_sort by done. f_equal.
  replace (h * (2 * q + 1)) with (h * (2 * q) + h) by lia.
  rewrite slice_app_slice by lia. f_equal; lia.
Qed.
End run_sorted_facts.

(** The comparison on pairs is a total preorder. *)
Lemma le_fst_total asc x y : le_fst asc x y = true ∨ le_fst asc y x = true.
Proof. apply compare_total. Qed.

Lemma le_fst_trans asc x y z :
  le_fst asc x y = true → le_fst asc y z = true → le_fst asc x z = true.
Proof. apply compare_trans. Qed.

(** Writing [g t] into every cell [t] below [n]. *)
Lemma fill_fold {A} (g : nat → A) n T (l : list A) :
  length l = n → n ≤ T →
  foldl (λ l tid, if tid <? n then <[tid := g tid]> l else l) l (seq 0 T)
  = g <$> seq 0 n.
Proof.
  intros Hl HT.
  assert (∀ m, foldl (λ l tid, if tid <? n then <[tid := g tid]> l else l)
                 l (seq 0 m)
               = (g <$> seq 0 (Nat.min m n)) ++ drop (Nat.min m n) l) as H.
  { induction m as [|m IH].
    - cbn [seq foldl]. by rewrite Nat.min_0_l, drop_0.
    - rewrite seq_S, foldl_app, IH. cbn [foldl Nat.add].
      destruct (Nat.ltb_spec m n) as [Hlt|Hge].
      + rewrite !Nat.min_l by lia. rewrite seq_S, fmap_app. cbn [Nat.add].
        rewrite <- app_assoc. cbn [fmap list_fmap app].
        rewrite insert_app_r_alt by (rewrite length_fmap, length_seq; lia).
        rewrite length_fmap, length_seq, Nat.sub_diag.
        destruct (drop m l) as [|x l'] eqn:Hd.
        { apply (f_equal length) in Hd. rewrite length_drop in Hd.
          simpl in Hd. lia. }
        cbn [insert list_insert]. do 2 f_equal.
        replace (S m) with (m + 1) by lia.
        by rewrite <- (drop_drop l 1 m), Hd.
      + by rewrite !Nat.min_r by lia. }
  rewrite H, Nat.min_r by lia. rewrite drop_ge by lia. apply app_nil_r.
Qed.

(** ** Seed pass, rounds and writeback *)

Lemma zip_fmap_seq {A B} (f : nat → A) (g : nat → B) (l : list nat) :
  zip (f <$> l) (g <$> l) = (λ t, (f t, g t)) <$> l.
Proof. induction l as [|x l IH]; [done|]. cbn. by rewrite IH. Qed.

Lemma fmap_const_seq {A} (x : A) n : (λ _, x) <$> seq 0 n = replicate n x.
Proof.
  generalize 0. induction n as [|n IH]; intros s; [done|].
  cbn. by rewrite IH.
Qed.

Lemma fmap_lookup_total_seq `{!Inhabited A} (l : list A) :
  (λ i, l !!! i) <$> seq 0 (length l) = l.
Proof.
  apply list_eq. intros i. rewrite list_lookup_fmap.
  destruct (decide (i < length l)) as [Hi|Hi].
  - rewrite lookup_seq_lt by done. cbn.
    destruct (lookup_lt_is_Some_2 l i Hi) as [x Hx].
    by rewrite (list_lookup_total_correct l i x Hx).
  - rewrite lookup_seq_ge by lia. cbn. symmetry.
    apply lookup_ge_None. lia.
Qed.

Lemma parity_succ r : (S r mod 2 =? 0) = negb (r mod 2 =? 0).
Proof.
  replace (S r) with (1 + r) by lia.
  rewrite <- Nat.Div0.add_mod_idemp_r.
  pose proof (Nat.mod_upper_bound r 2 ltac:(lia)).
  destruct (r mod 2) as [|[|?]]; [done|done|lia].
Qed.

Lemma ceil_log2_spec n : n ≤ 2 ^ ceil_log2 n.
Proof.
  unfold ceil_log2. destruct (decide (n = 0)) as [->|Hn]; [lia|].
  apply Nat.log2_log2_up_spec. lia.
Qed.

Section sort_kernels.
Context (L : Layout) (max_threads : nat) (asc : bool).
Hypothesis max_threads_pos : 0 < max_threads.

(** The tagged segment the sort starts from. *)
Lemma tagged_fmap data b z track :
  zip (seg L b z data) (seed_tags track (axis_len L))
  = (λ t, (data !!! pos L b z t,
           if track then Z.of_nat t else inhabitant)) <$> seq 0 (axis_len L).
Proof.
  unfold seg, seed_tags. destruct track.
  - by rewrite zip_fmap_seq.
  - by rewrite <- fmap_const_seq, zip_fmap_seq.
Qed.

Lemma seed_thread_view track data b z tid st :
  b < axis_mul_before L → z < axis_mul_after L →
  bufs_ok (numel L) track st →
  let st' := seed_thread L data b z tid st in
  bufs_ok (numel L) track st' ∧
  bview L b z st'
    = (if tid <? axis_len L
       then <[tid := (data !!! pos L b z tid,
                      if track then Z.of_nat tid else inhabitant)]>
              (bview L b z st).1
       else (bview L b z st).1, (bview L b z st).2) ∧
  (∀ b' z', z' < axis_mul_after L → (b', z') ≠ (b, z) →
     bview L b' z' st' = bview L b' z' st).
Proof.
  intros Hb Hz Hok st'. subst st'. unfold seed_thread.
  destruct (bufs_ok_idx_ok L track true st Hok) as [_ Htrack].
  rewrite Htrack. fold (pos L b z tid).
  destruct (Nat.ltb_spec tid (axis_len L)) as [Hlt|Hge]; [|done].
  destruct Hok as (Hvo & Hvs & Hidx).
  unfold bview. cbn [values_out values_out_swap indices_out indices_out_swap fst snd].
  assert (istore (indices_out st) (pos L b z tid) (Z.of_nat tid)
          = istore (indices_out st) (pos L b z tid)
              (if track then Z.of_nat tid else inhabitant)
          ∨ track = false) as Hw by (destruct track; auto).
  split; [|split].
  - unfold bufs_ok.
    cbn [values_out values_out_swap indices_out indices_out_swap].
    rewrite length_insert. split; [done|]. split; [done|].
    unfold idx_ok in *.
    destruct track, (indices_out st), (indices_out_swap st); try done.
    cbn. by rewrite length_insert.
  - f_equal.
    replace (if track then istore (indices_out st) (pos L b z tid) (Z.of_nat tid)
             else indices_out st)
      with (if track then istore (indices_out st) (pos L b z tid)
              (if track then Z.of_nat tid else inhabitant)
            else indices_out st) by (by destruct track).
    apply pairs_write; try done.
    unfold idx_ok in Hidx.
    destruct (indices_out st), (indices_out_swap st);
      [by destruct Hidx as (? & ? & ?)|done|done|by rewrite Hidx].
  - intros b' z' Hz' Hne. f_equal. by apply pairs_write_other.
Qed.

(** After the seed pass the output side holds the data, every element
    tagged with its own axis position. *)
Lemma seed_pass_view track data st :
  bufs_ok (numel L) track st →
  let st' := seed_pass L max_threads data st in
  bufs_ok (numel L) track st' ∧
  (∀ b z, b < axis_mul_before L → z < axis_mul_after L →
     bview L b z st'
     = (zip (seg L b z data) (seed_tags track (axis_len L)),
        (bview L b z st).2)).
Proof.
  intros Hok st'. subst st'. unfold seed_pass.
  destruct (launch_view (bview L) (bufs_ok (numel L) track)
              (seed_thread L data)
              (λ b z tid v,
                 (if tid <? axis_len L
                  then <[tid := (data !!! pos L b z tid,
                                 if track then Z.of_nat tid else inhabitant)]> v.1
                  else v.1, v.2))
              (nthread_bx L max_threads) (nthread_tx max_threads)
              (nthread_by L) (nthread_bz L))
    with (st := st) as (Hok' & Hv); [|done|].
  { intros by_ bz tid st0 Hby Hbz Hok0. by apply seed_thread_view. }
  split; [done|]. intros b z Hb Hz. rewrite (Hv b z Hb Hz).
  rewrite tagged_fmap.
  assert (axis_len L ≤ nthread_bx L max_threads * nthread_tx max_threads) as HT.
  { unfold nthread_bx, nthread_tx. by apply ceil_div_mul_ge. }
  rewrite <- (fill_fold _ (axis_len L)
                (nthread_bx L max_threads * nthread_tx max_threads)
                (bview L b z st).1) by (done || apply length_pairs).
  generalize (seq 0 (nthread_bx L max_threads * nthread_tx max_threads)).
  generalize (bview L b z st). intros v l. revert v.
  induction l as [|tid l IH]; intros [A B]; cbn [foldl fst snd]; [done|].
  by rewrite IH.
Qed.

Lemma writeback_thread_view track b z tid st :
  b < axis_mul_before L → z < axis_mul_after L →
  bufs_ok (numel L) track st →
  let st' := writeback_thread L b z tid st in
  bufs_ok (numel L) track st' ∧
  bview L b z st'
    = (if tid <? axis_len L
       then <[tid := (bview L b z st).2 !!! tid]> (bview L b z st).1
       else (bview L b z st).1, (bview L b z st).2) ∧
  (∀ b' z', z' < axis_mul_after L → (b', z') ≠ (b, z) →
     bview L b' z' st' = bview L b' z' st).
Proof.
  intros Hb Hz Hok st'. subst st'. unfold writeback_thread.
  destruct (bufs_ok_idx_ok L track true st Hok) as [_ Htrack].
  rewrite Htrack. fold (pos L b z tid).
  destruct (Nat.ltb_spec tid (axis_len L)) as [Hlt|Hge]; [|done].
  destruct Hok as (Hvo & Hvs & Hidx).
  unfold bview. cbn [values_out values_out_swap indices_out indices_out_swap fst snd].
  split; [|split].
  - unfold bufs_ok.
    cbn [values_out values_out_swap indices_out indices_out_swap].
    rewrite length_insert. split; [done|]. split; [done|].
    unfold idx_ok in *.
    destruct track, (indices_out st), (indices_out_swap st); try done.
    cbn. by rewrite length_insert.
  - f_equal. rewrite pairs_lookup_total by done.
    apply pairs_write; try done.
    unfold idx_ok in Hidx.
    destruct (indices_out st), (indices_out_swap st);
      [by destruct Hidx as (? & ? & ?)|done|done|].
    split; [done|]. unfold iload. simpl. by rewrite lookup_total_nil.
  - intros b' z' Hz' Hne. f_equal. by apply pairs_write_other.
Qed.

(** The writeback copies the swap side into the output side exactly when
    the number of rounds is odd. *)
Lemma writeback_view track lim st :
  bufs_ok (numel L) track st →
  let st' := writeback L max_threads lim st in
  bufs_ok (numel L) track st' ∧
  (∀ b z, b < axis_mul_before L → z < axis_mul_after L →
     bview L b z st'
     = (if lim mod 2 =? 1 then (bview L b z st).2 else (bview L b z st).1,
        (bview L b z st).2)).
Proof.
  intros Hok st'. subst st'. unfold writeback.
  destruct (lim mod 2 =? 1).
  2:{ split; [done|]. intros b z _ _. by destruct (bview L b z st). }
  destruct (launch_view (bview L) (bufs_ok (numel L) track)
              (writeback_thread L)
              (λ b z tid v,
                 (if tid <? axis_len L then <[tid := v.2 !!! tid]> v.1
                  else v.1, v.2))
              (nthread_bx L max_threads) (nthread_tx max_threads)
              (nthread_by L) (nthread_bz L))
    with (st := st) as (Hok' & Hv); [|done|].
  { intros by_ bz tid st0 Hby Hbz Hok0. by apply writeback_thread_view. }
  split; [done|]. intros b z Hb Hz. rewrite (Hv b z Hb Hz).
  assert (axis_len L ≤ nthread_bx L max_threads * nthread_tx max_threads) as HT.
  { unfold nthread_bx, nthread_tx. by apply ceil_div_mul_ge. }
  assert (length (bview L b z st).1 = axis_len L) as HA by apply length_pairs.
  assert (length (bview L b z st).2 = axis_len L) as HB by apply length_pairs.
  rewrite <- (fmap_lookup_total_seq (bview L b z st).2) at 1.
  rewrite HB.
  rewrite <- (fill_fold (λ i, (bview L b z st).2 !!! i) (axis_len L)
                (nthread_bx L max_threads * nthread_tx max_threads)
                (bview L b z st).1) by done.
  generalize (seq 0 (nthread_bx L max_threads * nthread_tx max_threads)).
  clear HA HB Hv.
  destruct (bview L b z st) as [A B]. cbn [fst snd]. intros l. revert A.
  induction l as [|tid l IH]; intros A; cbn [foldl fst snd]; [done|].
  by rewrite IH.
Qed.

(** After [lim] rounds the runs of length [2 ^ lim] are sorted. *)
Lemma merge_rounds_view track lim st (l0 : nat → nat → list (Z * Z)) :
  bufs_ok (numel L) track st →
  (∀ b z, b < axis_mul_before L → z < axis_mul_after L →
     (bview L b z st).1 = l0 b z) →
  let st' := merge_rounds L max_threads asc lim st in
  bufs_ok (numel L) track st' ∧
  (∀ b z, b < axis_mul_before L → z < axis_mul_after L →
     current_side lim (bview L b z st')
     = run_sorted (le_fst asc) (2 ^ lim) (l0 b z)).
Proof.
  intros Hok H0. induction lim as [|lim IH]; intros st'; subst st'.
  - unfold merge_rounds. cbn [seq foldl]. split; [done|].
    intros b z Hb Hz. unfold current_side.
    change (0 mod 2 =? 0) with true. change (2 ^ 0) with 1. cbn iota.
    rewrite H0 by done. symmetry. apply run_sorted_1.
  - unfold merge_rounds. rewrite seq_S, foldl_app. cbn [foldl Nat.add].
    fold (merge_rounds L max_threads asc lim st).
    destruct IH as (Hok1 & Hv1).
    destruct (merge_round_view L max_threads asc track lim _
                max_threads_pos Hok1) as (Hok2 & Hv2).
    split; [done|]. intros b z Hb Hz.
    rewrite (Hv2 b z Hb Hz). specialize (Hv1 b z Hb Hz).
    unfold current_side in *. rewrite parity_succ.
    rewrite Nat.shiftl_mul_pow2.
    assert (length (l0 b z) = axis_len L) as Hlen.
    { rewrite <- H0 by done. apply length_pairs. }
    assert (0 < 2 ^ lim) as Hpos.
    { pose proof (Nat.pow_nonzero 2 lim). lia. }
    replace (2 ^ S lim) with (2 * 2 ^ lim) by (cbn; lia).
    destruct (lim mod 2 =? 0); cbn [negb fst snd]; rewrite Hv1, <- Hlen;
      apply (merge_runs_run_sorted (le_fst asc) (le_fst_total asc)
               (le_fst_trans asc)); exact Hpos.
Qed.

(** The kernels of [sort_ir] leave in the output buffers, segment by
    segment, the reference sort of the tagged data. *)
Lemma sort_kernels_view track data st :
  bufs_ok (numel L) track st →
  let st' := sort_kernels L max_threads asc data st in
  bufs_ok (numel L) track st' ∧
  (∀ b z, b < axis_mul_before L → z < axis_mul_after L →
     pairs L b z (values_out st') (indices_out st')
     = ref_sort (le_fst asc)
         (zip (seg L b z data) (seed_tags track (axis_len L)))).
Proof.
  intros Hok st'. subst st'. unfold sort_kernels.
  set (lim := ceil_log2 (axis_len L)).
  destruct (seed_pass_view track data st Hok) as (Hok1 & Hv1).
  destruct (merge_rounds_view track lim _
              (λ b z, zip (seg L b z data) (seed_tags track (axis_len L)))
              Hok1) as (Hok2 & Hv2).
  { intros b z Hb Hz. by rewrite Hv1. }
  destruct (writeback_view track lim _ Hok2) as (Hok3 & Hv3).
  split; [done|]. intros b z Hb Hz.
  specialize (Hv3 b z Hb Hz). specialize (Hv2 b z Hb Hz).
  apply (f_equal fst) in Hv3. cbn [fst] in Hv3. unfold bview in Hv3 at 1.
  cbn [fst] in Hv3. rewrite Hv3.
  rewrite run_sorted_whole in Hv2.
  2:{ rewrite length_zip_with, length_seg. pose proof (ceil_log2_spec (axis_len L)).
      fold lim in H. lia. }
  rewrite <- Hv2. unfold current_side.
  pose proof (Nat.mod_upper_bound lim 2 ltac:(lia)).
  destruct (lim mod 2) as [|[|?]]; [done|done|lia].
Qed.
End sort_kernels.

(** ** Odd-even transposition sorts in [vc] passes *)

Ltac divlia := zify; Z.div_mod_to_equations; lia.

Section exchange_theory.
Context {A : Type} (key : A → Z) (vc : nat).

Lemma pair_left_spec k p :
  pair_left vc k p = true ↔ p mod 2 = k mod 2 ∧ p + 1 < vc.
Proof.
  unfold pair_left. rewrite andb_true_iff, Nat.eqb_eq, Nat.ltb_lt. done.
Qed.

Lemma pair_left_false k p :
  pair_left vc k p = false ↔ ¬ (p mod 2 = k mod 2 ∧ p + 1 < vc).
Proof.
  rewrite <- pair_left_spec. by destruct (pair_left vc k p).
Qed.

Lemma count_le_S c (u : nat → A) i :
  count_le key c u (S i)
  = count_le key c u i + (if (key (u i) <=? c)%Z then 1 else 0).
Proof. done. Qed.

Lemma count_le_le c (u : nat → A) i : count_le key c u i ≤ i.
Proof.
  induction i as [|i IH]; [done|]. rewrite count_le_S.
  destruct (key (u i) <=? c)%Z; lia.
Qed.

Lemma count_le_diff c (u : nat → A) i j :
  i ≤ j →
  count_le key c u i ≤ count_le key c u j ∧
  count_le key c u j - count_le key c u i ≤ j - i.
Proof.
  induction 1 as [|j Hij IH]; [lia|]. rewrite count_le_S.
  destruct (key (u j) <=? c)%Z; lia.
Qed.

Lemma count_le_full c (u : nat → A) i :
  count_le key c u i = i → ∀ x, x < i → (key (u x) <= c)%Z.
Proof.
  induction i as [|i IH]; intros Hc x Hx; [lia|].
  rewrite count_le_S in Hc. pose proof (count_le_le c u i).
  destruct (key (u i) <=? c)%Z eqn:Hi; [|lia].
  destruct (decide (x = i)) as [->|]; [lia|]. apply IH; lia.
Qed.

Lemma count_le_none c (u : nat → A) i j :
  i ≤ j → count_le key c u j = count_le key c u i →
  ∀ x, i ≤ x < j → (c < key (u x))%Z.
Proof.
  induction 1 as [|j Hij IH]; intros Hc x Hx; [lia|].
  rewrite count_le_S in Hc. pose proof (count_le_diff c u i j Hij).
  destruct (key (u j) <=? c)%Z eqn:Hj; [lia|].
  destruct (decide (x = j)) as [->|]; [lia|]. apply IH; lia.
Qed.

(** A pass keeps the count below every position no pair straddles. *)
Lemma count_le_pass_boundary c k (u : nat → A) i :
  i = 0 ∨ pair_left vc k (i - 1) = false →
  count_le key c (exchange_pass key vc k u) i = count_le key c u i.
Proof.
  induction i as [i IH] using lt_wf_ind. intros Hbd.
  destruct i as [|i]; [done|].
  destruct Hbd as [|Hbd]; [lia|].
  replace (S i - 1) with i in Hbd by lia.
  rewrite !count_le_S. unfold exchange_pass at 2. rewrite Hbd.
  destruct ((1 <=? i) && pair_left vc k (i - 1)) eqn:Hr.
  - apply andb_true_iff in Hr as [Hi Hl]. apply Nat.leb_le in Hi.
    destruct i as [|i]; [lia|].
    replace (S i - 1) with i in * by lia.
    rewrite !count_le_S. rewrite IH; [|lia|].
    2:{ destruct i as [|i']; [by left|right].
        apply pair_left_false. apply pair_left_spec in Hl.
        replace (S i' - 1) with i' by lia. divlia. }
    unfold exchange_pass. rewrite Hl.
    replace (i + 1) with (S i) by lia.
    destruct (key (u (S i)) <? key (u i))%Z,
      (key (u i) <=? c)%Z, (key (u (S i)) <=? c)%Z; lia.
  - rewrite IH; [done|lia|].
    destruct i as [|i']; [by left|right].
    by apply andb_false_iff in Hr as [Hr|Hr].
Qed.

(** The counts never decrease: small keys only move to the left. *)
Lemma count_le_pass_mono c k (u : nat → A) i :
  count_le key c u i ≤ count_le key c (exchange_pass key vc k u) i.
Proof.
  destruct i as [|i]; [done|].
  destruct (pair_left vc k i) eqn:Hl.
  2:{ rewrite count_le_pass_boundary; [done|right].
      by replace (S i - 1) with i by lia. }
  rewrite !count_le_S. rewrite count_le_pass_boundary.
  2:{ destruct i as [|i']; [by left|right].
      apply pair_left_false. apply pair_left_spec in Hl.
      replace (S i' - 1) with i' by lia. divlia. }
  unfold exchange_pass. rewrite Hl.
  destruct (Z.ltb (key (u (i + 1))) (key (u i))) eqn:Hlt,
    (key (u i) <=? c)%Z eqn:H1, (Z.leb (key (u (i + 1))) c) eqn:H2; lia.
Qed.

(** A pair (large, small) of the pass is exchanged. *)
Lemma count_le_pass_swap c k (u : nat → A) p :
  pair_left vc k p = true →
  (c < key (u p))%Z → Z.le (key (u (p + 1))) c →
  count_le key c (exchange_pass key vc k u) (S p) = S (count_le key c u p).
Proof.
  intros Hl H1 H2. rewrite count_le_S, count_le_pass_boundary.
  2:{ destruct p as [|p']; [by left|right].
      apply pair_left_false. apply pair_left_spec in Hl.
      replace (S p' - 1) with p' by lia. divlia. }
  unfold exchange_pass. rewrite Hl.
  destruct (Z.ltb (key (u (p + 1))) (key (u p))) eqn:Hlt; [|lia].
  destruct (Z.leb (key (u (p + 1))) c) eqn:H3; lia.
Qed.

Lemma count_le_pass_total c k (u : nat → A) :
  count_le key c (exchange_pass key vc k u) vc = count_le key c u vc.
Proof.
  apply count_le_pass_boundary.
  destruct (decide (vc = 0)); [by left|right]. apply pair_left_false. lia.
Qed.

Lemma count_le_passes_total c t (u : nat → A) :
  count_le key c (exchange_passes key vc t u) vc = count_le key c u vc.
Proof.
  induction t as [|t IH]; [done|]. cbn [exchange_passes].
  by rewrite count_le_pass_total.
Qed.

(** The invariant of the passes, for one threshold [c] with [z] small
    keys among the first [vc] cells: the [j]-th small key is left of the
    position [max j (E + 2 * j - t)] after [t] passes, where [E] is
    [vc - z] rounded down to an even number. *)
Lemma exchange_passes_inv c (u : nat → A) t j :
  let z := count_le key c u vc in
  let E := 2 * ((vc - z) / 2) in
  1 ≤ j → j ≤ z →
  j ≤ count_le key c (exchange_passes key vc t u)
        (Nat.min vc (Nat.max j (E + 2 * j - t))).
Proof.
  intros z E. revert j. induction t as [|t IH]; intros j Hj1 Hjz.
  - cbn [exchange_passes].
    pose proof (count_le_le c u vc) as Hzv. fold z in Hzv.
    set (i := Nat.min vc (Nat.max j (E + 2 * j - 0))).
    pose proof (count_le_diff c u i vc ltac:(lia)) as [_ Hd].
    fold z in Hd. subst i E. divlia.
  - cbn [exchange_passes].
    set (ut := exchange_passes key vc t u) in *.
    assert (count_le key c ut vc = z) as Hz
      by apply count_le_passes_total.
    pose proof (count_le_le c u vc) as Hzv. fold z in Hzv.
    set (x := E + 2 * j - t).
    destruct (decide (x ≤ j)) as [Hxj|Hxj].
    { replace (Nat.min vc (Nat.max j (E + 2 * j - S t))) with j by lia.
      pose proof (IH j Hj1 Hjz) as Hj. fold x in Hj.
      replace (Nat.min vc (Nat.max j x)) with j in Hj by lia.
      pose proof (count_le_pass_mono c t ut j). lia. }
    replace (Nat.max j (E + 2 * j - S t)) with (x - 1) by lia.
    destruct (decide (vc ≤ x - 1)) as [Hv|Hv].
    { rewrite Nat.min_l by done. rewrite count_le_pass_total. lia. }
    rewrite Nat.min_r by lia.
    pose proof (IH j Hj1 Hjz) as Hj. fold x in Hj.
    replace (Nat.min vc (Nat.max j x)) with x in Hj by lia.
    destruct (decide (j ≤ count_le key c ut (x - 1))) as [Hc|Hc].
    { pose proof (count_le_pass_mono c t ut (x - 1)). lia. }
    replace x with (S (x - 1)) in Hj by lia. rewrite count_le_S in Hj.
    destruct (Z.leb (key (ut (x - 1))) c) eqn:Hsmall; [|lia].
    assert (count_le key c ut (x - 1) = j - 1) as Hcx by lia.
    assert (j - 1 ≤ count_le key c ut (x - 2)) as Hc2.
    { destruct (decide (j = 1)) as [->|]; [lia|].
      pose proof (IH (j - 1) ltac:(lia) ltac:(lia)) as Hj'.
      replace (Nat.min vc (Nat.max (j - 1) (E + 2 * (j - 1) - t)))
        with (x - 2) in Hj' by lia.
      done. }
    replace (x - 1) with (S (x - 2)) in Hcx by lia.
    rewrite count_le_S in Hcx.
    destruct (Z.leb (key (ut (x - 2))) c) eqn:Hlarge; [lia|].
    replace (x - 1) with (S (x - 2)) by lia.
    rewrite count_le_pass_swap.
    + lia.
    + apply pair_left_spec. subst x E. divlia.
    + lia.
    + replace (x - 2 + 1) with (x - 1) by lia. lia.
Qed.

(** After [vc] passes the small keys are in front, for every
    threshold. *)
Lemma exchange_passes_front c (u : nat → A) x :
  let u' := exchange_passes key vc vc u in
  let z := count_le key c u vc in
  x < vc →
  if decide (x < z) then (key (u' x) <= c)%Z else (c < key (u' x))%Z.
Proof.
  intros u' z Hx.
  assert (count_le key c u' vc = z) as Hz by apply count_le_passes_total.
  pose proof (count_le_le c u vc) as Hzv. fold z in Hzv.
  assert (count_le key c u' z = z) as Hfront.
  { destruct (decide (z = 0)) as [->|Hz0]; [done|].
    pose proof (exchange_passes_inv c u vc z ltac:(lia) ltac:(done)) as H.
    cbv zeta in H. fold z u' in H.
    replace (Nat.min vc (Nat.max z (2 * ((vc - z) / 2) + 2 * z - vc)))
      with z in H by divlia.
    pose proof (count_le_le c u' z). lia. }
  case_decide.
  - by apply (count_le_full c u' z).
  - apply (count_le_none c u' z vc); [done|congruence|lia].
Qed.

(** Odd-even transposition sorts the first [vc] cells in [vc] passes. *)
Lemma exchange_passes_sorted (u : nat → A) i :
  S i < vc →
  (key (exchange_passes key vc vc u i)
   <= key (exchange_passes key vc vc u (S i)))%Z.
Proof.
  intros Hi. set (u' := exchange_passes key vc vc u).
  set (c := key (u' (S i))).
  pose proof (exchange_passes_front c u (S i) Hi) as H1.
  pose proof (exchange_passes_front c u i ltac:(lia)) as H2.
  cbv zeta in H1, H2. fold u' in H1, H2.
  repeat case_decide; subst c; lia.
Qed.
End exchange_theory.

(** ** The passes on a segment *)

Lemma Sorted_lookup_adjacent `{!Inhabited A} (R : A → A → Prop) (l : list A) :
  (∀ i, S i < length l → R (l !!! i) (l !!! S i)) → Sorted R l.
Proof.
  induction l as [|x l IH]; intros H; [constructor|].
  constructor.
  - apply IH. intros i Hi. apply (H (S i)). simpl. lia.
  - destruct l as [|y l]; constructor. apply (H 0). simpl. lia.
Qed.

Section oets_lists.
Context `{!Inhabited A} (key : A → Z) (vc : nat).

Lemma length_cas p (l : list A) : length (cas key vc p l) = length l.
Proof. unfold cas. case_match; by rewrite ?length_insert. Qed.

Lemma cas_Permutation p (l : list A) :
  vc ≤ length l → cas key vc p l ≡ₚ l.
Proof.
  intros Hvc. unfold cas.
  destruct (Nat.ltb_spec (p + 1) vc) as [Hp|Hp]; cbn [andb]; [|done].
  case_match; [|done].
  apply Permutation_insert_swap; apply list_lookup_lookup_total_lt; lia.
Qed.

Lemma length_oets_thread k tid (l : list A) :
  length (oets_thread key vc k tid l) = length l.
Proof. unfold oets_thread. case_match; by rewrite ?length_cas. Qed.

Lemma oets_thread_Permutation k tid (l : list A) :
  vc ≤ length l → oets_thread key vc k tid l ≡ₚ l.
Proof.
  intros. unfold oets_thread. case_match; [|done]. by apply cas_Permutation.
Qed.

Lemma oets_pass_length_Permutation T k (l : list A) :
  vc ≤ length l →
  length (oets_pass key vc T l k) = length l ∧ oets_pass key vc T l k ≡ₚ l.
Proof.
  intros Hvc. unfold oets_pass. generalize (seq 0 T). intros tids.
  revert l Hvc. induction tids as [|tid tids IH]; intros l Hvc;
    cbn [foldl]; [done|].
  destruct (IH (oets_thread key vc k tid l)) as [Hlen Hperm].
  { by rewrite length_oets_thread. }
  split.
  - by rewrite Hlen, length_oets_thread.
  - by rewrite Hperm, oets_thread_Permutation.
Qed.

Lemma exchange_pass_outside k (u : nat → A) x :
  vc ≤ x → exchange_pass key vc k u x = u x.
Proof.
  intros Hx. unfold exchange_pass, pair_left.
  destruct (Nat.ltb_spec (x + 1) vc); [lia|].
  destruct (Nat.ltb_spec (x - 1 + 1) vc); [lia|].
  by rewrite !andb_false_r.
Qed.

Lemma exchange_pass_ext n k (u v : nat → A) x :
  vc ≤ n → x < n → (∀ y, y < n → u y = v y) →
  exchange_pass key vc k u x = exchange_pass key vc k v x.
Proof.
  intros Hn Hx Huv. unfold exchange_pass, pair_left.
  destruct (Nat.ltb_spec (x + 1) vc), (Nat.ltb_spec (x - 1 + 1) vc),
    (Nat.leb_spec 1 x), (x mod 2 =? k mod 2), ((x - 1) mod 2 =? k mod 2);
    cbn [andb]; rewrite ?(Huv x), ?(Huv (x + 1)), ?(Huv (x - 1)) by lia;
    done.
Qed.

(** The threads of a pass, one after the other, do the pass. *)
Lemma oets_pass_lookup T k (l : list A) x :
  vc ≤ length l → (vc + 1) / 2 ≤ T → x < length l →
  oets_pass key vc T l k !!! x = exchange_pass key vc k (λ y, l !!! y) x.
Proof.
  intros Hvc HT Hx. set (u := λ y, l !!! y).
  assert (∀ m,
    let lm := foldl (λ l tid, oets_thread key vc k tid l) l (seq 0 m) in
    length lm = length l ∧
    ∀ y, y < length l →
      lm !!! y = if y <? 2 * m + k mod 2
                 then exchange_pass key vc k u y else u y) as H.
  { induction m as [|m IH]; intros lm; subst lm.
    - cbn [seq foldl]. split; [done|]. intros y Hy.
      destruct (Nat.ltb_spec y (2 * 0 + k mod 2)) as [Hlt|]; [|reflexivity].
      unfold exchange_pass, pair_left.
      assert (y = 0 ∧ k mod 2 = 1) as [-> Hk] by divlia.
      rewrite Hk. reflexivity.
    - rewrite seq_S, foldl_app. cbn [foldl Nat.add].
      destruct IH as [Hlen IH].
      set (lm := foldl (λ l tid, oets_thread key vc k tid l) l (seq 0 m))
        in *.
      split; [by rewrite length_oets_thread|].
      intros y Hy. unfold oets_thread.
      remember (2 * m + k mod 2) as p eqn:Hpeq.
      destruct (Nat.ltb_spec m ((vc + 1) / 2)) as [Hm|Hm].
      2:{ rewrite IH by done.
          destruct (Nat.ltb_spec y p), (Nat.ltb_spec y (2 * S m + k mod 2));
            try done; try lia.
          rewrite exchange_pass_outside; [done|]. divlia. }
      unfold cas.
      assert (p mod 2 = k mod 2) as Hpar by divlia.
      destruct (Nat.ltb_spec (p + 1) vc) as [Hp|Hp]; cbn [andb].
      + assert (lm !!! p = u p) as Hlp.
        { rewrite IH by lia. by rewrite (proj2 (Nat.ltb_ge p p)) by lia. }
        assert (lm !!! (p + 1) = u (p + 1)) as Hlp1.
        { rewrite IH by lia. by rewrite (proj2 (Nat.ltb_ge (p + 1) p)) by lia. }
        rewrite Hlp, Hlp1.
        assert (pair_left vc k p = true) as Hl
          by (apply pair_left_spec; done).
        assert (pair_left vc k (p + 1) = false) as Hl'.
        { apply pair_left_false. divlia. }
        destruct (decide (y = p)) as [->|Hyp].
        { destruct (Nat.ltb_spec p (2 * S m + k mod 2)); [|lia].
          unfold exchange_pass. rewrite Hl. fold (u (p + 1)) (u p).
          destruct (Z.ltb (key (u (p + 1))) (key (u p))); [|done].
          rewrite list_lookup_total_insert_ne by lia.
          by rewrite list_lookup_total_insert_eq by lia. }
        destruct (decide (y = p + 1)) as [->|Hyp'].
        { destruct (Nat.ltb_spec (p + 1) (2 * S m + k mod 2)); [|lia].
          unfold exchange_pass. rewrite Hl'.
          replace (p + 1 - 1) with p by lia. rewrite Hl.
          destruct (Nat.leb_spec 1 (p + 1)); [|lia]. cbn [andb].
          fold (u (p + 1)) (u p).
          destruct (Z.ltb (key (u (p + 1))) (key (u p))); [|done].
          by rewrite list_lookup_total_insert_eq
            by (rewrite length_insert; lia). }
        assert ((if Z.ltb (key (u (p + 1))) (key (u p))
                 then <[p + 1 := u p]> (<[p := u (p + 1)]> lm) else lm)
                !!! y = lm !!! y) as ->.
        { destruct (Z.ltb (key (u (p + 1))) (key (u p))); [|done].
          by rewrite !list_lookup_total_insert_ne by lia. }
        rewrite IH by done.
        destruct (Nat.ltb_spec y p), (Nat.ltb_spec y (2 * S m + k mod 2));
          try done; lia.
      + rewrite IH by done.
        destruct (Nat.ltb_spec y p), (Nat.ltb_spec y (2 * S m + k mod 2));
          try done; try lia.
        unfold exchange_pass.
        assert (pair_left vc k y = false) as ->
          by (apply pair_left_false; lia).
        destruct (Nat.leb_spec 1 y); cbn [andb]; [|done].
        assert (pair_left vc k (y - 1) = false) as ->
          by (apply pair_left_false; divlia).
        done. }
  destruct (H T) as [_ HT']. unfold oets_pass. rewrite HT' by done.
  destruct (Nat.ltb_spec x (2 * T + k mod 2)); [done|].
  rewrite exchange_pass_outside; [done|]. divlia.
Qed.

Lemma oets_passes_lookup T t (l : list A) :
  vc ≤ length l → (vc + 1) / 2 ≤ T →
  let lt := foldl (oets_pass key vc T) l (seq 0 t) in
  length lt = length l ∧ lt ≡ₚ l ∧
  ∀ x, x < length l →
    lt !!! x = exchange_passes key vc t (λ y, l !!! y) x.
Proof.
  intros Hvc HT. induction t as [|t IH]; intros lt; subst lt.
  - done.
  - rewrite seq_S, foldl_app. cbn [foldl Nat.add exchange_passes].
    destruct IH as (Hlen & Hperm & IH).
    set (lt := foldl (oets_pass key vc T) l (seq 0 t)) in *.
    destruct (oets_pass_length_Permutation T t lt ltac:(lia))
      as [Hlen' Hperm'].
    split; [lia|]. split; [by rewrite Hperm'|].
    intros x Hx. rewrite oets_pass_lookup by lia.
    apply (exchange_pass_ext (length l)); [done..|].
    intros y Hy. by apply IH.
Qed.

Lemma exchange_passes_outside t (u : nat → A) x :
  vc ≤ x → exchange_passes key vc t u x = u x.
Proof.
  intros Hx. induction t as [|t IH]; [done|]. cbn [exchange_passes].
  by rewrite exchange_pass_outside.
Qed.

(** The passes sort the first [vc] cells of the segment and leave the
    other cells where they are. *)
Lemma oets_sorted T (l : list A) :
  vc ≤ length l → (vc + 1) / 2 ≤ T →
  let l' := oets key vc T l in
  length l' = length l ∧
  drop vc l' = drop vc l ∧
  take vc l' ≡ₚ take vc l ∧
  Sorted (λ a b, (key a <= key b)%Z) (take vc l').
Proof.
  intros Hvc HT l'. subst l'. unfold oets.
  destruct (oets_passes_lookup T vc l Hvc HT) as (Hlen & Hperm & Hlook).
  set (l' := foldl (oets_pass key vc T) l (seq 0 vc)) in *.
  assert (drop vc l' = drop vc l) as Hdrop.
  { apply list_eq. intros i. rewrite !lookup_drop.
    destruct (decide (vc + i < length l)) as [Hi|Hi].
    - rewrite !list_lookup_lookup_total_lt by lia. f_equal.
      rewrite Hlook by done. apply exchange_passes_outside. lia.
    - rewrite !lookup_ge_None_2; [done|lia..]. }
  split; [done|]. split; [done|]. split.
  - apply (Permutation_app_inv_r (drop vc l')).
    rewrite take_drop. rewrite Hdrop at 1. by rewrite take_drop.
  - apply Sorted_lookup_adjacent. intros i Hi.
    rewrite length_take in Hi.
    rewrite !lookup_total_take_lt by lia.
    rewrite !Hlook by lia.
    apply exchange_passes_sorted. lia.
Qed.
End oets_lists.

(** ** The kernel of [sort_nms_ir], segment by segment *)

(** Rewriting the second component of every cell below [n]. *)
Lemma touch_fold {A} `{!Inhabited A} (h : nat → A → A) n T (l : list A) :
  length l = n → n ≤ T →
  foldl (λ l tid, if tid <? n then <[tid := h tid (l !!! tid)]> l else l)
        l (seq 0 T)
  = (λ t, h t (l !!! t)) <$> seq 0 n.
Proof.
  intros Hl HT.
  assert (∀ m, foldl (λ l tid, if tid <? n then <[tid := h tid (l !!! tid)]> l
                               else l) l (seq 0 m)
               = ((λ t, h t (l !!! t)) <$> seq 0 (Nat.min m n))
                 ++ drop (Nat.min m n) l) as H.
  { induction m as [|m IH].
    - cbn [seq foldl]. by rewrite Nat.min_0_l, drop_0.
    - rewrite seq_S, foldl_app, IH. cbn [foldl Nat.add].
      destruct (Nat.ltb_spec m n) as [Hlt|Hge].
      + rewrite !Nat.min_l by lia. rewrite seq_S, fmap_app. cbn [Nat.add].
        rewrite <- app_assoc. cbn [fmap list_fmap app].
        rewrite lookup_total_app_r by (rewrite length_fmap, length_seq; lia).
        rewrite insert_app_r_alt by (rewrite length_fmap, length_seq; lia).
        rewrite length_fmap, length_seq, Nat.sub_diag.
        rewrite lookup_total_drop, Nat.add_0_r.
        destruct (drop m l) as [|x l'] eqn:Hd.
        { apply (f_equal length) in Hd. rewrite length_drop in Hd.
          simpl in Hd. lia. }
        cbn [insert list_insert]. do 2 f_equal.
        replace (S m) with (m + 1) by lia.
        by rewrite <- (drop_drop l 1 m), Hd.
      + by rewrite !Nat.min_r by lia. }
  rewrite H, Nat.min_r by lia. rewrite drop_ge by lia. apply app_nil_r.
Qed.

Lemma nms_threads_enough L size max_threads b z :
  0 < max_threads → numel L ≤ size →
  b < axis_mul_before L → z < axis_mul_after L →
  axis_len L ≤ (size / max_threads + 1) * max_threads.
Proof.
  intros max_threads_pos size_ge Hb Hz.
  pose proof (Nat.div_mod_eq size max_threads).
  pose proof (Nat.mod_upper_bound size max_threads ltac:(lia)).
  assert (axis_len L ≤ numel L); [|lia].
  unfold numel. destruct (axis_mul_before L), (axis_mul_after L); [lia..|].
  nia.
Qed.

Lemma sort_key_lt asc (x y : Z * Z) :
  (sort_key asc y <? sort_key asc x)%Z
  = if asc then (x.1 >? y.1)%Z else (x.1 <? y.1)%Z.
Proof.
  unfold sort_key. destruct asc.
  - by rewrite Z.gtb_ltb.
  - destruct (Z.ltb_spec (- y.1) (- x.1)), (Z.ltb_spec x.1 y.1); lia.
Qed.

Section nms_kernel.
Context (L : Layout) (size max_threads : nat) (asc : bool)
        (valid_count : list Z).
Hypothesis max_threads_pos : 0 < max_threads.
Hypothesis size_ge : numel L ≤ size.
Hypothesis valid_count_le : ∀ i j,
  i < axis_mul_before L → j < axis_mul_after L →
  current_sort_num L valid_count i j ≤ axis_len L.

Lemma pairs_write_some b z vals o t v w :
  t < axis_len L → z < axis_mul_after L → b < axis_mul_before L →
  length vals = numel L → length o = numel L →
  pairs L b z (<[pos L b z t := v]> vals) (Some (<[pos L b z t := w]> o))
  = <[t := (v, w)]> (pairs L b z vals (Some o)).
Proof.
  intros. by apply (pairs_write L b z vals (Some o) t v w true).
Qed.

Lemma pairs_write_other_some b z vals o t v w b' z' :
  t < axis_len L → z < axis_mul_after L → z' < axis_mul_after L →
  (b', z') ≠ (b, z) →
  pairs L b' z' (<[pos L b z t := v]> vals) (Some (<[pos L b z t := w]> o))
  = pairs L b' z' vals (Some o).
Proof.
  intros. by apply (pairs_write_other L b z vals (Some o) t v w true).
Qed.

Lemma nms_threads_seq :
  nms_threads size max_threads = seq 0 ((size / max_threads + 1) * max_threads).
Proof. unfold nms_threads. apply thread_ids_seq. Qed.

Lemma nms_init_thread_view b z tid st :
  b < axis_mul_before L → z < axis_mul_after L →
  nms_ok (numel L) st →
  let st' := nms_init_thread L b z tid st in
  nms_ok (numel L) st' ∧
  nview L b z st'
    = (if tid <? axis_len L
       then <[tid := ((nview L b z st !!! tid).1, Z.of_nat tid)]>
              (nview L b z st)
       else nview L b z st) ∧
  (∀ b' z', z' < axis_mul_after L → (b', z') ≠ (b, z) →
     nview L b' z' st' = nview L b' z' st).
Proof.
  intros Hb Hz [Hd Ho] st'. subst st'. unfold nms_init_thread.
  rewrite pos_base.
  destruct (Nat.ltb_spec tid (axis_len L)) as [Hlt|Hge]; [|done].
  pose proof (pos_lt L b z tid Hb Hlt Hz) as Hp.
  unfold nview, nms_ok. cbn [nms_data nms_output].
  rewrite length_insert. split; [done|].
  assert (nms_data st = <[pos L b z tid := nms_data st !!! pos L b z tid]>
                          (nms_data st)) as Hid.
  { symmetry. apply list_insert_id, list_lookup_lookup_total_lt. lia. }
  split.
  - rewrite Hid at 1. rewrite pairs_write_some by done.
    by rewrite pairs_lookup_total.
  - intros b' z' Hz' Hne. rewrite Hid at 1.
    by apply pairs_write_other_some.
Qed.

Lemma nms_pass_thread_view b z k tid st :
  b < axis_mul_before L → z < axis_mul_after L →
  nms_ok (numel L) st →
  let st' := nms_pass_thread L asc valid_count b z k tid st in
  nms_ok (numel L) st' ∧
  nview L b z st'
    = oets_thread (sort_key asc) (current_sort_num L valid_count b z) k tid
        (nview L b z st) ∧
  (∀ b' z', z' < axis_mul_after L → (b', z') ≠ (b, z) →
     nview L b' z' st' = nview L b' z' st).
Proof.
  intros Hb Hz [Hd Ho] st'. subst st'.
  unfold nms_pass_thread, oets_thread.
  pose proof (valid_count_le b z Hb Hz) as Hvc.
  set (vc := current_sort_num L valid_count b z) in *.
  destruct (Nat.ltb_spec tid ((vc + 1) / 2)) as [Htid|Htid]; [|done].
  set (p := 2 * tid + k mod 2).
  rewrite pos_base. rewrite pos_succ.
  unfold cas. replace (p + 1) with (S p) by lia.
  destruct (Nat.ltb_spec (S p) vc) as [Hp|Hp].
  2:{ rewrite !andb_false_r. cbn [andb]. done. }
  assert (nview L b z st !!! p
          = (nms_data st !!! pos L b z p, nms_output st !!! pos L b z p))
    as Hlp by (unfold nview; by rewrite pairs_lookup_total by lia).
  assert (nview L b z st !!! S p
          = (nms_data st !!! pos L b z (S p),
             nms_output st !!! pos L b z (S p)))
    as Hlp1 by (unfold nview; by rewrite pairs_lookup_total by lia).
  rewrite sort_key_lt, Hlp, Hlp1. cbn [fst snd andb].
  rewrite !andb_true_r.
  assert (∀ st0, st0 = st →
    nms_ok (numel L) (nms_exchange L (pos L b z p) st0) ∧
    nview L b z (nms_exchange L (pos L b z p) st0)
      = <[S p := (nms_data st !!! pos L b z p,
                  nms_output st !!! pos L b z p)]>
          (<[p := (nms_data st !!! pos L b z (S p),
                   nms_output st !!! pos L b z (S p))]> (nview L b z st)) ∧
    (∀ b' z', z' < axis_mul_after L → (b', z') ≠ (b, z) →
       nview L b' z' (nms_exchange L (pos L b z p) st0) = nview L b' z' st))
    as Hex.
  { intros st0 ->. unfold nms_exchange, nview, nms_ok.
    cbn [nms_data nms_output]. rewrite pos_succ.
    rewrite !length_insert. split; [done|]. split.
    - rewrite pairs_write_some by (rewrite ?length_insert; lia || done).
      by rewrite pairs_write_some by (lia || done).
    - intros b' z' Hz' Hne.
      rewrite pairs_write_other_some by (lia || done).
      by rewrite pairs_write_other_some by (lia || done). }
  destruct asc; cbn [Z.b2z Z.eqb andb].
  - destruct (nms_data st !!! pos L b z p >? nms_data st !!! pos L b z (S p))%Z.
    + by apply Hex.
    + done.
  - destruct (nms_data st !!! pos L b z p <? nms_data st !!! pos L b z (S p))%Z.
    + by apply Hex.
    + done.
Qed.

Local Abbreviation T := ((size / max_threads + 1) * max_threads).
Local Abbreviation vc_of b z := (current_sort_num L valid_count b z).

Lemma nms_pass_view b z k st :
  b < axis_mul_before L → z < axis_mul_after L →
  nms_ok (numel L) st →
  let st' := nms_pass L size max_threads asc valid_count b z st k in
  nms_ok (numel L) st' ∧
  nview L b z st' = oets_pass (sort_key asc) (vc_of b z) T (nview L b z st) k ∧
  (∀ b' z', z' < axis_mul_after L → (b', z') ≠ (b, z) →
     nview L b' z' st' = nview L b' z' st).
Proof.
  intros Hb Hz Hok st'. subst st'. unfold nms_pass, oets_pass.
  rewrite nms_threads_seq.
  apply (threads_fold_view (nview L) (nms_ok (numel L))
           (λ tid st, nms_pass_thread L asc valid_count b z k tid st)
           (λ tid l, oets_thread (sort_key asc) (vc_of b z) k tid l));
    [|done].
  intros tid st0 Hok0. by apply nms_pass_thread_view.
Qed.

Lemma tag_identity_fmap (l : list (Z * Z)) :
  (λ t, ((l !!! t).1, Z.of_nat t)) <$> seq 0 (length l) = tag_identity (l.*1).
Proof.
  unfold tag_identity. rewrite length_fmap.
  rewrite <- (fmap_lookup_total_seq (l.*1)) at 1.
  rewrite length_fmap, zip_fmap_seq.
  apply list_fmap_ext. intros i t Ht.
  apply lookup_seq in Ht as [-> Ht]. cbn [Nat.add]. f_equal.
  symmetry. by apply list_lookup_total_fmap.
Qed.

Lemma nms_segment_view b z st :
  b < axis_mul_before L → z < axis_mul_after L →
  nms_ok (numel L) st →
  let st' := nms_segment L size max_threads asc valid_count b z st in
  nms_ok (numel L) st' ∧
  nview L b z st'
    = oets (sort_key asc) (vc_of b z) T (tag_identity (nview L b z st).*1) ∧
  (∀ b' z', z' < axis_mul_after L → (b', z') ≠ (b, z) →
     nview L b' z' st' = nview L b' z' st).
Proof.
  intros Hb Hz Hok st'. subst st'. unfold nms_segment.
  rewrite nms_threads_seq.
  destruct (threads_fold_view (nview L) (nms_ok (numel L))
              (λ tid st, nms_init_thread L b z tid st)
              (λ tid l, if tid <? axis_len L
                        then <[tid := ((l !!! tid).1, Z.of_nat tid)]> l else l)
              b z (axis_mul_after L) (seq 0 T))
    with (st := st) as (Hok1 & Hv1 & Ho1); [|done|].
  { intros tid st0 Hok0. by apply nms_init_thread_view. }
  rewrite (touch_fold (λ t a, (a.1, Z.of_nat t)) (axis_len L)) in Hv1
    by (apply length_pairs || by apply (nms_threads_enough L size max_threads b z)).
  rewrite <- (length_pairs L b z (nms_data st) (Some (nms_output st))) in Hv1.
  fold (nview L b z st) in Hv1. rewrite tag_identity_fmap in Hv1.
  set (st1 := foldl (λ st tid, nms_init_thread L b z tid st) st (seq 0 T)) in *.
  destruct (threads_fold_view (nview L) (nms_ok (numel L))
              (λ k st, nms_pass L size max_threads asc valid_count b z st k)
              (λ k l, oets_pass (sort_key asc) (vc_of b z) T l k)
              b z (axis_mul_after L) (seq 0 (vc_of b z)))
    with (st := st1) as (Hok2 & Hv2 & Ho2); [|done|].
  { intros k st0 Hok0. by apply nms_pass_view. }
  split; [exact Hok2|]. split.
  - etransitivity; [exact Hv2|]. by rewrite Hv1.
  - intros b' z' Hz' Hne. etransitivity; [by apply Ho2|]. by apply Ho1.
Qed.

(** The kernel runs, on every segment, the passes of the transposition
    sort on the values paired with the identity indices. *)
Lemma sort_nms_kernel_view st :
  nms_ok (numel L) st →
  let st' := sort_nms_kernel L size max_threads asc valid_count st in
  nms_ok (numel L) st' ∧
  (∀ b z, b < axis_mul_before L → z < axis_mul_after L →
     nview L b z st'
     = oets (sort_key asc) (vc_of b z) T
         (tag_identity (seg L b z (nms_data st)))).
Proof.
  intros Hok st'. subst st'. unfold sort_nms_kernel.
  destruct (grid_fold_view (nview L) (nms_ok (numel L))
              (nms_segment L size max_threads asc valid_count)
              (λ b z v, oets (sort_key asc) (vc_of b z) T (tag_identity (v.*1)))
              (axis_mul_before L) (axis_mul_after L))
    with (st := st) as (Hok' & Hv); [|done|].
  { intros by_ bz st0 Hby Hbz Hok0. by apply nms_segment_view. }
  split; [done|]. intros b z Hb Hz. rewrite (Hv b z Hb Hz).
  unfold nview. by rewrite pairs_fst.
Qed.
End nms_kernel.

(** ** The layout of a shape *)

Lemma foldl_mul_acc acc (l : list nat) :
  foldl (λ acc value, acc * value) acc l
  = acc * foldl (λ acc value, acc * value) 1 l.
Proof.
  revert acc. induction l as [|v l IH]; intros acc; cbn [foldl]; [lia|].
  rewrite (IH (acc * v)), (IH (1 * v)). lia.
Qed.

Lemma shape_size_nil : shape_size [] = 1.
Proof. done. Qed.

Lemma shape_size_cons v l : shape_size (v :: l) = v * shape_size l.
Proof. unfold shape_size. cbn [foldl]. rewrite foldl_mul_acc. lia. Qed.

Lemma shape_size_app l1 l2 :
  shape_size (l1 ++ l2) = shape_size l1 * shape_size l2.
Proof.
  induction l1 as [|v l1 IH]; cbn [app].
  - rewrite shape_size_nil. lia.
  - rewrite !shape_size_cons, IH. lia.
Qed.

Lemma axis_muls_from (ax : Z) (l : list nat) s acc :
  (0 <= ax)%Z →
  foldl (λ acc iv,
           if (Z.of_nat iv.1 <? ax)%Z then (acc.1 * iv.2, acc.2)
           else if (ax <? Z.of_nat iv.1)%Z then (acc.1, acc.2 * iv.2)
           else acc)
        acc (zip (seq s (length l)) l)
  = (acc.1 * shape_size (take (Z.to_nat ax - s) l),
     acc.2 * shape_size (drop (S (Z.to_nat ax) - s) l)).
Proof.
  intros Hax. revert s acc. induction l as [|v l IH]; intros s [a1 a2].
  - cbn. rewrite take_nil, drop_nil, shape_size_nil. f_equal; lia.
  - cbn [length seq zip zip_with foldl fst snd]. rewrite IH.
    destruct (Z.ltb_spec (Z.of_nat s) ax) as [H1|H1]; cbn [fst snd].
    + replace (Z.to_nat ax - s) with (S (Z.to_nat ax - S s)) by lia.
      replace (S (Z.to_nat ax) - s) with (S (S (Z.to_nat ax) - S s)) by lia.
      cbn [take drop]. rewrite ?shape_size_cons, ?shape_size_nil. f_equal; rewrite ?Nat.mul_assoc, ?Nat.mul_1_r; done.
    + destruct (Z.ltb_spec ax (Z.of_nat s)) as [H2|H2]; cbn [fst snd].
      * replace (Z.to_nat ax - S s) with 0 by lia.
        replace (Z.to_nat ax - s) with 0 by lia.
        replace (S (Z.to_nat ax) - S s) with 0 by lia.
        replace (S (Z.to_nat ax) - s) with 0 by lia.
        cbn [take drop]. rewrite ?shape_size_cons, ?shape_size_nil. f_equal; rewrite ?Nat.mul_assoc, ?Nat.mul_1_r; done.
      * replace (Z.to_nat ax - S s) with 0 by lia.
        replace (Z.to_nat ax - s) with 0 by lia.
        replace (S (Z.to_nat ax) - S s) with 0 by lia.
        replace (S (Z.to_nat ax) - s) with 1 by lia.
        cbn [take drop]. rewrite ?shape_size_nil. f_equal; rewrite ?Nat.mul_assoc, ?Nat.mul_1_r; done.
Qed.

Lemma axis_muls_valid (shape : list nat) (ax : Z) :
  (0 <= ax)%Z →
  axis_muls shape ax
  = (shape_size (take (Z.to_nat ax) shape),
     shape_size (drop (S (Z.to_nat ax)) shape)).
Proof.
  intros Hax. unfold axis_muls, enumerate. rewrite axis_muls_from by done.
  cbn [fst snd]. f_equal.
  - rewrite Nat.sub_0_r. lia.
  - replace (S (Z.to_nat ax) - 0) with (S (Z.to_nat ax)) by lia. lia.
Qed.

Lemma py_getitem_valid {A} `{!Inhabited A} (arr : list A) (i : Z) :
  (0 <= i < Z.of_nat (length arr))%Z →
  py_getitem arr i = Ok (arr !!! Z.to_nat i).
Proof.
  intros Hi. unfold py_getitem.
  destruct (Z.ltb_spec i (- Z.of_nat (length arr))); [lia|].
  destruct (Z.leb_spec (Z.of_nat (length arr)) i); [lia|]. cbn [orb].
  destruct (Z.ltb_spec i 0); [lia|].
  by rewrite list_lookup_lookup_total_lt by lia.
Qed.

(** For a valid axis the layout exists and covers the shape. *)
Lemma axis_layout_valid (shape : list nat) (axis : Z) :
  valid_axis shape axis →
  axis_layout shape axis = Ok (layout_of shape axis) ∧
  numel (layout_of shape axis) = shape_size shape.
Proof.
  intros Hv. unfold valid_axis in Hv. split.
  - unfold axis_layout, layout_of. rewrite py_getitem_valid by done.
    cbn [bind_result]. by rewrite axis_muls_valid by lia.
  - unfold numel, layout_of. cbn [axis_mul_before axis_len axis_mul_after].
    set (a := Z.to_nat (normalize_axis (length shape) axis)).
    assert (a < length shape) as Ha by lia.
    rewrite <- (take_drop_middle shape a (shape !!! a))
      at 4 by (by apply list_lookup_lookup_total_lt).
    rewrite shape_size_app, shape_size_cons. lia.
Qed.

Lemma sort_ir_valid max_threads shape data st axis asc track :
  valid_axis shape axis → bufs_ok (shape_size shape) track st →
  sort_ir max_threads shape data st axis asc
  = Ok (sort_kernels (layout_of shape axis) max_threads asc data st).
Proof.
  intros Hv Hok. unfold sort_ir.
  destruct Hok as (_ & _ & Hidx). unfold idx_ok in Hidx.
  assert (bool_decide (is_Some (indices_out st))
          && negb (bool_decide (is_Some (indices_out_swap st))) = false) as ->.
  { destruct (indices_out st), (indices_out_swap st); done. }
  unfold valid_axis in Hv. rewrite py_getitem_valid by done.
  cbn [bind_result]. unfold layout_of. by rewrite axis_muls_valid by lia.
Qed.

Lemma sort_nms_ir_valid max_threads shape valid_count st axis asc :
  valid_axis shape axis →
  sort_nms_ir max_threads shape valid_count st axis asc
  = Ok (sort_nms_kernel (layout_of shape axis) (shape_size shape)
          max_threads asc valid_count st).
Proof.
  intros Hv. unfold sort_nms_ir.
  unfold valid_axis in Hv. rewrite py_getitem_valid by done.
  cbn [bind_result]. unfold layout_of. by rewrite axis_muls_valid by lia.
Qed.

(** ** The merge-sort engine: what [sort_ir] computes *)

Lemma length_seed_tags track n : length (seed_tags track n) = n.
Proof.
  unfold seed_tags. destruct track.
  - by rewrite length_fmap, length_seq.
  - by rewrite length_replicate.
Qed.

Lemma le_fst_fst asc (x y : Z * Z) : le_fst asc x y = compare asc x.1 y.1.
Proof. done. Qed.

(** Buffers that agree on every segment are equal. *)
Lemma pairs_ext L N track vals vals' idx idx' :
  N = numel L → length vals = N → length vals' = N →
  idx_ok N track idx idx' →
  (∀ b z, b < axis_mul_before L → z < axis_mul_after L →
     pairs L b z vals idx = pairs L b z vals' idx') →
  vals = vals' ∧ idx = idx'.
Proof.
  intros -> Hv Hv' Hidx H. split.
  - apply (buf_ext L); [done..|]. intros b z Hb Hz.
    rewrite <- !(pairs_fst L b z _ idx), (H b z Hb Hz).
    by rewrite !pairs_fst.
  - unfold idx_ok in Hidx. destruct idx as [io|], idx' as [io'|]; try done.
    destruct Hidx as (Hio & Hio' & _). f_equal.
    apply (buf_ext L); [done..|]. intros b z Hb Hz.
    pose proof (pairs_snd L b z vals (Some io)) as H1.
    pose proof (pairs_snd L b z vals' (Some io')) as H2.
    simpl in H1, H2. by rewrite <- H1, <- H2, (H b z Hb Hz).
Qed.

Section sort_ir_facts.
Context (max_threads : nat) (shape : list nat) (data : list Z) (st : Bufs)
        (axis : Z) (asc track : bool).
Hypothesis max_threads_pos : 0 < max_threads.
Hypothesis axis_ok : valid_axis shape axis.
Hypothesis st_ok : bufs_ok (shape_size shape) track st.

Local Abbreviation L := (layout_of shape axis).

(** [sort_ir] returns, and its output is, segment by segment, the
    reference stable sort of the data tagged with the axis positions. *)
Lemma sort_ir_pairs :
  ∃ st', sort_ir max_threads shape data st axis asc = Ok st' ∧
    bufs_ok (shape_size shape) track st' ∧
    ∀ b z, b < axis_mul_before L → z < axis_mul_after L →
      pairs L b z (values_out st') (indices_out st')
      = ref_sort (le_fst asc)
          (zip (seg L b z data) (seed_tags track (axis_len L))).
Proof.
  destruct (axis_layout_valid shape axis axis_ok) as [_ HN].
  eexists. split; [by apply (sort_ir_valid _ _ _ _ _ _ track)|].
  rewrite <- HN in *.
  by apply (sort_kernels_view L max_threads asc max_threads_pos track data st).
Qed.

Lemma sort_ir_values :
  ∃ st', sort_ir max_threads shape data st axis asc = Ok st' ∧
    bufs_ok (shape_size shape) track st' ∧
    ∀ b z, b < axis_mul_before L → z < axis_mul_after L →
      seg L b z (values_out st')
      = ref_sort (compare asc) (seg L b z data).
Proof.
  destruct sort_ir_pairs as (st' & Hrun & Hok & Hp).
  exists st'. split; [done|]. split; [done|]. intros b z Hb Hz.
  rewrite <- (pairs_fst L b z (values_out st') (indices_out st')).
  rewrite (Hp b z Hb Hz).
  rewrite (ref_sort_fmap fst (le_fst asc) (compare asc)) by done.
  f_equal. apply fst_zip. rewrite length_seg, length_seed_tags. lia.
Qed.
End sort_ir_facts.

(** ** SegmentedTranspositionSortEngine *)

Lemma length_tag_identity (l : list Z) : length (tag_identity l) = length l.
Proof.
  unfold tag_identity. rewrite length_zip_with, length_fmap, length_seq. lia.
Qed.

Lemma tag_identity_fst (l : list Z) : (tag_identity l).*1 = l.
Proof.
  unfold tag_identity. apply fst_zip. by rewrite length_fmap, length_seq.
Qed.

Lemma tag_identity_snd (l : list Z) :
  (tag_identity l).*2 = Z.of_nat <$> seq 0 (length l).
Proof.
  unfold tag_identity. apply snd_zip. by rewrite length_fmap, length_seq.
Qed.

Lemma sort_key_le asc (x y : Z * Z) :
  (sort_key asc x <= sort_key asc y)%Z → compare asc x.1 y.1 = true.
Proof. unfold sort_key, compare. destruct asc; lia. Qed.

Section sort_nms_ir_facts.
Context (max_threads : nat) (shape : list nat) (valid_count : list Z)
        (st : NmsBufs) (axis : Z) (asc : bool).
Hypothesis max_threads_pos : 0 < max_threads.
Hypothesis axis_ok : valid_axis shape axis.
Hypothesis st_ok : nms_ok (shape_size shape) st.

Local Abbreviation L := (layout_of shape axis).

Hypothesis valid_count_le : ∀ i j,
  i < axis_mul_before L → j < axis_mul_after L →
  current_sort_num L valid_count i j ≤ axis_len L.

(** [sort_nms_ir] returns; in every segment the cells from [validCount]
    on keep the data and the identity index, and the cells below it are
    a sorted permutation of what they were, indices moved along. *)
Lemma sort_nms_ir_segments :
  ∃ st', sort_nms_ir max_threads shape valid_count st axis asc = Ok st' ∧
    nms_ok (shape_size shape) st' ∧
    ∀ b z, b < axis_mul_before L → z < axis_mul_after L →
      let c := current_sort_num L valid_count b z in
      let l0 := tag_identity (seg L b z (nms_data st)) in
      let l' := nview L b z st' in
      drop c l' = drop c l0 ∧ take c l' ≡ₚ take c l0 ∧
      Sorted (λ x y, (sort_key asc x <= sort_key asc y)%Z) (take c l').
Proof.
  destruct (axis_layout_valid shape axis axis_ok) as [_ HN].
  eexists. split; [by apply sort_nms_ir_valid|].
  pose proof st_ok as Hok. rewrite <- HN in Hok.
  destruct (sort_nms_kernel_view L (shape_size shape) max_threads asc
              valid_count max_threads_pos ltac:(lia) valid_count_le st Hok)
    as (Hok' & Hv).
  split; [by rewrite HN in Hok'|]. intros b z Hb Hz c l0 l'.
  subst l'. rewrite (Hv b z Hb Hz). fold c l0.
  pose proof (valid_count_le b z Hb Hz) as Hc. fold c in Hc.
  destruct (oets_sorted (sort_key asc) c
              ((shape_size shape / max_threads + 1) * max_threads) l0)
    as (_ & Hd & Hp & Hs).
  - unfold l0. rewrite length_tag_identity, length_seg. lia.
  - pose proof (nms_threads_enough L (shape_size shape) max_threads b z
                  max_threads_pos ltac:(lia) Hb Hz).
    assert ((c + 1) / 2 ≤ c ∨ c = 0) as [?| ->] by divlia; [lia|].
    cbn. lia.
  - done.
Qed.

(** The same on the two buffers. *)
Lemma sort_nms_ir_spec :
  ∃ st', sort_nms_ir max_threads shape valid_count st axis asc = Ok st' ∧
    nms_ok (shape_size shape) st' ∧
    ∀ b z, b < axis_mul_before L → z < axis_mul_after L →
      let c := current_sort_num L valid_count b z in
      drop c (seg L b z (nms_data st')) = drop c (seg L b z (nms_data st)) ∧
      drop c (seg L b z (nms_output st'))
      = drop c (Z.of_nat <$> seq 0 (axis_len L)) ∧
      take c (seg L b z (nms_data st'))
      = ref_sort (compare asc) (take c (seg L b z (nms_data st))) ∧
      take c (nview L b z st')
      ≡ₚ take c (tag_identity (seg L b z (nms_data st))).
Proof.
  destruct sort_nms_ir_segments as (st' & Hrun & Hok' & H).
  exists st'. split; [done|]. split; [done|]. intros b z Hb Hz c.
  destruct (H b z Hb Hz) as (Hd & Hp & Hs). fold c in Hd, Hp, Hs.
  pose proof (pairs_fst L b z (nms_data st') (Some (nms_output st'))) as Hf.
  pose proof (pairs_snd L b z (nms_data st') (Some (nms_output st'))) as Hn.
  fold (nview L b z st') in Hf, Hn. simpl in Hn.
  split; [|split; [|split; [|done]]].
  - rewrite <- Hf, <- fmap_drop, Hd, fmap_drop. by rewrite tag_identity_fst.
  - rewrite <- Hn, <- fmap_drop, Hd, fmap_drop.
    by rewrite tag_identity_snd, length_seg.
  - rewrite <- Hf, <- fmap_take. apply ref_sort_unique.
    + eapply Sorted_fmap; [|exact Hs]. intros x y. apply sort_key_le.
    + rewrite Hp, fmap_take. by rewrite tag_identity_fst.
Qed.
End sort_nms_ir_facts.



(** ** Prefix slices of a tensor *)

Lemma list_eq_total {A} `{!Inhabited A} (l1 l2 : list A) n :
  length l1 = n → length l2 = n →
  (∀ i, i < n → l1 !!! i = l2 !!! i) → l1 = l2.
Proof.
  intros H1 H2 H. apply (list_eq_same_length _ _ n); [done..|].
  intros i x y Hi Hx Hy.
  apply list_lookup_total_correct in Hx, Hy. rewrite <- Hx, <- Hy. by apply H.
Qed.

Lemma bind_seq_ext {A} (f g : nat → list A) d :
  (∀ r, r < d → f r = g r) →
  (r ← seq 0 d; f r) = (r ← seq 0 d; g r).
Proof.
  induction d as [|d IH]; intros H; [done|].
  rewrite seq_S, !bind_app, IH by (intros; apply H; lia).
  simpl. by rewrite H by lia.
Qed.

(** The concatenation of [d] chunks of [sz] cells. *)
Lemma chunks_lookup {A} `{!Inhabited A} (f : nat → list A) sz d :
  (∀ r, r < d → length (f r) = sz) →
  length (r ← seq 0 d; f r) = d * sz ∧
  ∀ r x, r < d → x < sz → (r ← seq 0 d; f r) !!! (r * sz + x) = f r !!! x.
Proof.
  induction d as [|d IH]; intros Hf.
  - split; [done|]. intros; lia.
  - destruct IH as [Hlen Hl]; [intros; apply Hf; lia|].
    rewrite seq_S, bind_app. simpl. rewrite app_nil_r. split.
    + rewrite length_app, Hlen, Hf by lia. lia.
    + intros r x Hr Hx. destruct (decide (r < d)) as [Hrd|Hrd].
      * assert (S r * sz ≤ d * sz) by (apply Nat.mul_le_mono_r; lia).
        rewrite lookup_total_app_l by lia. by apply Hl.
      * assert (r = d) as -> by lia.
        rewrite lookup_total_app_r by lia. f_equal. lia.
Qed.

Lemma chunks_concat {A} `{!Inhabited A} (buf : list A) sz d :
  length buf = d * sz →
  (r ← seq 0 d; take sz (drop (r * sz) buf)) = buf.
Proof.
  intros Hlen.
  assert (∀ r, r < d → length (take sz (drop (r * sz) buf)) = sz) as Hc.
  { intros r Hr. rewrite length_take, length_drop.
    assert (S r * sz ≤ d * sz) by (apply Nat.mul_le_mono_r; lia). lia. }
  destruct (chunks_lookup (λ r, take sz (drop (r * sz) buf)) sz d Hc)
    as [Hl Hlook].
  apply (list_eq_total _ _ (d * sz)); [done..|]. intros i Hi.
  assert (0 < sz) by (destruct sz; lia).
  pose proof (Nat.div_mod_eq i sz).
  pose proof (Nat.mod_upper_bound i sz ltac:(lia)).
  assert (i / sz < d).
  { apply Nat.Div0.div_lt_upper_bound. lia. }
  replace i with (i / sz * sz + i mod sz) at 1 by lia.
  rewrite Hlook by done.
  rewrite lookup_total_take_lt by done. rewrite lookup_total_drop. f_equal. lia.
Qed.

Lemma slice_prefix_full shape buf :
  length buf = shape_size shape → slice_prefix shape shape buf = buf.
Proof.
  revert buf. induction shape as [|d shape IH]; intros buf Hlen; [done|].
  rewrite shape_size_cons in Hlen. cbn [slice_prefix].
  rewrite Nat.min_id.
  rewrite (bind_seq_ext _ (λ r, take (shape_size shape)
                                 (drop (r * shape_size shape) buf))).
  - by apply chunks_concat.
  - intros r Hr. apply IH. rewrite length_take, length_drop.
    assert (S r * shape_size shape ≤ d * shape_size shape)
      by (apply Nat.mul_le_mono_r; lia). lia.
Qed.

(** A slice along one axis keeps, in every segment, the cells before the
    end. *)
Lemma slice_prefix_axis pre n k post buf :
  length buf = shape_size (pre ++ n :: post) →
  let m := Nat.min k n in
  let L := mkLayout (shape_size pre) n (shape_size post) in
  let L' := mkLayout (shape_size pre) m (shape_size post) in
  let res := slice_prefix (pre ++ n :: post) (pre ++ k :: post) buf in
  length res = numel L' ∧
  ∀ b t z, b < shape_size pre → t < m → z < shape_size post →
    res !!! pos L' b z t = buf !!! pos L b z t.
Proof.
  intros Hlen m. revert buf Hlen.
  induction pre as [|d pre IH]; intros buf Hlen L L' res.
  - subst res L L'. cbn [app slice_prefix] in *. fold m.
    rewrite shape_size_cons in Hlen.
    set (a := shape_size post) in *.
    assert (∀ r, r < m → length (take a (drop (r * a) buf)) = a) as Hc.
    { intros r Hr. rewrite length_take, length_drop.
      assert (S r * a ≤ n * a) by (apply Nat.mul_le_mono_r; lia). lia. }
    rewrite (bind_seq_ext _ (λ r, take a (drop (r * a) buf)))
      by (intros r Hr; apply slice_prefix_full; by apply Hc).
    destruct (chunks_lookup (λ r, take a (drop (r * a) buf)) a m Hc)
      as [Hl Hlook].
    split.
    + rewrite Hl. unfold numel. simpl. lia.
    + intros b t z Hb Ht Hz. rewrite shape_size_nil in Hb.
      assert (b = 0) as -> by lia. unfold pos. simpl.
      rewrite Hlook by done.
      rewrite lookup_total_take_lt by done. by rewrite lookup_total_drop.
  - subst res L L'. cbn [app slice_prefix] in *.
    rewrite Nat.min_id.
    rewrite shape_size_cons in Hlen.
    set (sz := shape_size (pre ++ n :: post)) in *.
    set (P := shape_size pre) in *. set (a := shape_size post) in *.
    assert (sz = P * n * a) as Hsz.
    { unfold sz. rewrite shape_size_app, shape_size_cons. fold P a. lia. }
    assert (∀ r, r < d → length (take sz (drop (r * sz) buf)) = sz) as Hc.
    { intros r Hr. rewrite length_take, length_drop.
      assert (S r * sz ≤ d * sz) by (apply Nat.mul_le_mono_r; lia). lia. }
    set (f := λ r, slice_prefix (pre ++ n :: post) (pre ++ k :: post)
                     (take sz (drop (r * sz) buf))).
    assert (∀ r, r < d → length (f r) = P * m * a) as Hf.
    { intros r Hr. destruct (IH (take sz (drop (r * sz) buf)) (Hc r Hr))
        as [Hl _]. exact Hl. }
    destruct (chunks_lookup f (P * m * a) d Hf) as [Hl Hlook].
    change (length (r ← seq 0 d; f r) = numel (mkLayout (shape_size (d :: pre)) m a)
            ∧ ∀ b t z, b < shape_size (d :: pre) → t < m → z < a →
                (r ← seq 0 d; f r) !!! pos (mkLayout (shape_size (d :: pre)) m a) b z t
                = buf !!! pos (mkLayout (shape_size (d :: pre)) n a) b z t).
    rewrite shape_size_cons. fold P. split.
    + rewrite Hl. unfold numel. simpl. lia.
    + intros b t z Hb Ht Hz.
      assert (0 < P) by (destruct P; lia).
      pose proof (Nat.div_mod_eq b P).
      pose proof (Nat.mod_upper_bound b P ltac:(lia)).
      assert (b / P < d).
      { apply Nat.Div0.div_lt_upper_bound. lia. }
      set (r := b / P) in *. set (b' := b mod P) in *.
      pose proof (pos_lt (mkLayout P m a) b' z t) as Hlt'.
      pose proof (pos_lt (mkLayout P n a) b' z t) as Hlt.
      unfold pos, numel in *. simpl in *.
      replace ((b * m + t) * a + z)
        with (r * (P * m * a) + ((b' * m + t) * a + z)) by lia.
      rewrite Hlook by lia. unfold f.
      destruct (IH (take sz (drop (r * sz) buf)) (Hc r ltac:(lia)))
        as [_ Hi].
      unfold pos in Hi. simpl in Hi. fold P a in Hi.
      rewrite Hi by done.
      rewrite lookup_total_take_lt by lia. rewrite lookup_total_drop.
      f_equal. lia.
Qed.

Lemma topk_end_split (shape : list nat) (ax k : Z) :
  (0 <= ax < Z.of_nat (length shape))%Z →
  let a := Z.to_nat ax in
  shape = take a shape ++ shape !!! a :: drop (S a) shape ∧
  topk_end shape ax k = take a shape ++ Z.to_nat k :: drop (S a) shape.
Proof.
  intros Hax a.
  assert (a < length shape) as Ha by lia.
  assert (shape = take a shape ++ shape !!! a :: drop (S a) shape) as Hs.
  { symmetry. apply take_drop_middle. by apply list_lookup_lookup_total_lt. }
  split; [done|]. unfold topk_end.
  apply list_eq. intros i. rewrite list_lookup_imap.
  destruct (decide (i = a)) as [->|Hne].
  - rewrite list_lookup_lookup_total_lt by done. simpl.
    rewrite (proj2 (Z.eqb_eq _ _)) by lia.
    rewrite list_lookup_middle; [done|]. rewrite length_take. lia.
  - destruct (shape !! i) as [x|] eqn:Hi; simpl.
    + rewrite (proj2 (Z.eqb_neq _ _)) by lia. rewrite <- Hi.
      rewrite Hs at 1.
      destruct (decide (i < a)).
      * rewrite !lookup_app_l by (rewrite length_take; lia). done.
      * rewrite !lookup_app_r by (rewrite length_take; lia).
        rewrite length_take, Nat.min_l by lia.
        destruct (i - a) as [|j] eqn:Hj; [lia|]. done.
    + apply lookup_ge_None in Hi. symmetry. apply lookup_ge_None.
      rewrite length_app, length_take. cbn [length]. rewrite length_drop. lia.
Qed.

Lemma zip_with_min_axis (pre post : list nat) n k :
  zip_with Nat.min (pre ++ k :: post) (pre ++ n :: post)
  = <[length pre := Nat.min k n]> (pre ++ n :: post).
Proof.
  assert (∀ l : list nat, zip_with Nat.min l l = l) as Hid.
  { intros l. induction l as [|x l IH]; [done|].
    cbn [zip_with]. by rewrite Nat.min_id, IH. }
  rewrite zip_with_app by done. cbn [zip_with]. rewrite !Hid.
  rewrite insert_app_r_alt by lia. by rewrite Nat.sub_diag.
Qed.

Lemma strided_slice_topk_shape (t : Tensor) (ax k : Z) :
  (0 <= ax < Z.of_nat (length (t_shape t)))%Z →
  t_shape (strided_slice t (topk_end (t_shape t) ax k))
  = <[Z.to_nat ax := Nat.min (Z.to_nat k)
                       (axis_len (layout_of (t_shape t) ax))]> (t_shape t).
Proof.
  intros Hax. destruct (topk_end_split (t_shape t) ax k Hax) as [Hs He].
  unfold strided_slice. cbn [t_shape]. rewrite He.
  assert (axis_len (layout_of (t_shape t) ax) = t_shape t !!! Z.to_nat ax)
    as ->.
  { unfold layout_of, normalize_axis.
    by rewrite (proj2 (Z.ltb_ge _ _)) by lia. }
  assert (length (take (Z.to_nat ax) (t_shape t)) = Z.to_nat ax) as Hpre
    by (rewrite length_take; lia).
  revert Hs Hpre. generalize (take (Z.to_nat ax) (t_shape t)) as pre.
  generalize (drop (S (Z.to_nat ax)) (t_shape t)) as post.
  generalize (t_shape t !!! Z.to_nat ax) as n.
  intros n post pre -> <-. apply zip_with_min_axis.
Qed.

(** [strided_slice] with the end of [topk]: the shape has [min k n] at the
    axis, and every segment is the first [k] cells of the segment it is
    cut from. *)
Lemma strided_slice_topk_end (t : Tensor) (ax k : Z) :
  (0 <= ax < Z.of_nat (length (t_shape t)))%Z →
  length (t_buf t) = shape_size (t_shape t) →
  let L := layout_of (t_shape t) ax in
  let m := Nat.min (Z.to_nat k) (axis_len L) in
  let L' := mkLayout (axis_mul_before L) m (axis_mul_after L) in
  let t' := strided_slice t (topk_end (t_shape t) ax k) in
  length (t_buf t') = numel L' ∧
  ∀ b z, b < axis_mul_before L → z < axis_mul_after L →
    seg L' b z (t_buf t') = take (Z.to_nat k) (seg L b z (t_buf t)).
Proof.
  intros Hax Hlen L m L' t'.
  destruct (topk_end_split (t_shape t) ax k Hax) as [Hs He].
  assert (Z.to_nat ax < length (t_shape t)) as Ha by lia.
  assert (L = mkLayout (shape_size (take (Z.to_nat ax) (t_shape t)))
                (t_shape t !!! Z.to_nat ax)
                (shape_size (drop (S (Z.to_nat ax)) (t_shape t)))) as HL.
  { unfold L, layout_of, normalize_axis.
    by rewrite (proj2 (Z.ltb_ge _ _)) by lia. }
  set (a := Z.to_nat ax) in *. set (pre := take a (t_shape t)) in *.
  set (post := drop (S a) (t_shape t)) in *.
  set (n := t_shape t !!! a) in *.
  assert (length pre = a) as Hpre by (unfold pre; rewrite length_take; lia).
  subst t'. unfold strided_slice. cbn [t_shape t_buf]. rewrite He.
  rewrite Hs in Hlen.
  destruct (slice_prefix_axis pre n (Z.to_nat k) post (t_buf t) Hlen)
    as [Hl Hlook].
  rewrite <- Hs in Hl, Hlook.
  assert (m = Nat.min (Z.to_nat k) n) as Hm by (subst m; by rewrite HL).
  assert (L' = mkLayout (shape_size pre) (Nat.min (Z.to_nat k) n)
                 (shape_size post)) as HL'.
  { unfold L'. by rewrite Hm, HL. }
  rewrite <- HL' in Hl, Hlook. rewrite <- HL in Hlook.
  split; [done|]. intros b z Hb Hz.
  apply (list_eq_total _ _ m).
  - by rewrite length_seg.
  - rewrite length_take, length_seg. done.
  - intros i Hi. rewrite seg_lookup_total by done.
    rewrite lookup_total_take_lt by lia.
    rewrite seg_lookup_total by lia.
    apply Hlook; rewrite ?HL in *; simpl in *; lia.
Qed.

(** * The claims of the specification *)

(** ** MergeSortEngine *)






Lemma bufs_ok_idx_out N track st st' :
  bufs_ok N track st → bufs_ok N track st' →
  idx_ok N track (indices_out st') (indices_out st) ∧
  idx_ok N track (indices_out_swap st') (indices_out_swap st) ∧
  idx_ok N track (indices_out st') (indices_out_swap st).
Proof.
  intros (_ & _ & H) (_ & _ & H'). unfold idx_ok in *.
  destruct (indices_out st), (indices_out_swap st),
    (indices_out st'), (indices_out_swap st'); try done;
    try destruct H as (? & ? & ?); try destruct H' as (? & ? & ?);
    try done; congruence.
Qed.



Lemma seg_replicate L b z N x :
  N = numel L → b < axis_mul_before L → z < axis_mul_after L →
  seg L b z (replicate N x) = replicate (axis_len L) x.
Proof.
  intros -> Hb Hz. unfold seg. rewrite <- (fmap_const_seq x (axis_len L)).
  apply list_fmap_ext. intros i t Ht. apply lookup_seq in Ht as [-> Ht].
  apply lookup_total_replicate_2. by apply pos_lt.
Qed.

(** C8: for an axis of length 1 (and of length 0) the round count is 0:
    [sort_ir] is its seed pass alone, no round and no writeback run, the
    swap buffers keep their content, the output values are the input and
    the tracked indices are the identity (all 0). *)
Theorem single_element_axis (max_threads : nat) (shape : list nat)
    (data : list Z) (st : Bufs) (axis : Z) (is_ascend track : bool) :
  0 < max_threads → valid_axis shape axis →
  bufs_ok (shape_size shape) track st →
  length data = shape_size shape →
  axis_len (layout_of shape axis) ≤ 1 →
  let L := layout_of shape axis in
  let st' := seed_pass L max_threads data st in
  ceil_log2 (axis_len L) = 0 ∧
  merge_rounds L max_threads is_ascend (ceil_log2 (axis_len L)) st' = st' ∧
  writeback L max_threads (ceil_log2 (axis_len L)) st' = st' ∧
  sort_ir max_threads shape data st axis is_ascend = Ok st' ∧
  values_out st' = data ∧
  values_out_swap st' = values_out_swap st ∧
  indices_out_swap st' = indices_out_swap st ∧
  (track = true →
   indices_out st' = Some (replicate (shape_size shape) 0%Z)).
Proof.
  intros HM Hax Hok Hdata Hn L st'.
  destruct (axis_layout_valid shape axis Hax) as [_ HN]. fold L in HN.
  change (axis_len L ≤ 1) in Hn.
  assert (ceil_log2 (axis_len L) = 0) as Hlim.
  { unfold ceil_log2. destruct (axis_len L) as [|[|n]]; [done|done|lia]. }
  rewrite Hlim. split; [done|]. split; [done|]. split; [done|].
  split.
  { rewrite (sort_ir_valid _ _ _ _ _ _ track) by done. fold L.
    unfold sort_kernels. by rewrite Hlim. }
  rewrite <- HN in Hok, Hdata.
  destruct (seed_pass_view L max_threads HM track data st Hok) as (Hok' & Hv).
  fold st' in Hok', Hv.
  destruct (bufs_ok_idx_out _ _ _ _ Hok Hok') as (_ & Hi2 & _).
  pose proof Hok as (Hvo & Hvs & _). pose proof Hok' as (Hvo' & Hvs' & Hidx').
  assert (values_out_swap st' = values_out_swap st
          ∧ indices_out_swap st' = indices_out_swap st) as [H1 H2].
  { apply (pairs_ext L (numel L) track); [done..|].
    intros b z Hb Hz. exact (f_equal snd (Hv b z Hb Hz)). }
  split; [|split; [done|split; [done|]]].
  - apply (buf_ext L); [done..|]. intros b z Hb Hz.
    rewrite <- (pairs_fst L b z (values_out st') (indices_out st')).
    change (pairs L b z (values_out st') (indices_out st'))
      with (bview L b z st').1.
    rewrite (Hv b z Hb Hz). cbn [fst]. apply fst_zip.
    rewrite length_seg, length_seed_tags. lia.
  - intros ->. unfold idx_ok in Hidx'.
    destruct (indices_out st') as [io|] eqn:Hio;
      [|by destruct (indices_out_swap st')].
    destruct (indices_out_swap st'); [|done]. destruct Hidx' as (Hlio & _ & _).
    f_equal. apply (buf_ext L); [done|by rewrite length_replicate|].
    intros b z Hb Hz. rewrite seg_replicate by done.
    pose proof (pairs_snd L b z (values_out st') (Some io)) as Hs.
    simpl in Hs. rewrite <- Hs, <- Hio.
    change (pairs L b z (values_out st') (indices_out st'))
      with (bview L b z st').1.
    rewrite (Hv b z Hb Hz). cbn [fst].
    rewrite snd_zip by (rewrite length_seg, length_seed_tags; lia).
    unfold seed_tags. destruct (axis_len L) as [|[|n]]; [done|done|lia].
Qed.

Lemma single_element_axis_witness :
  sort_ir 4 [2; 1] [7; 3]%Z
    (mkBufs [0; 0]%Z [8; 9]%Z (Some [5; 5]%Z) (Some [6; 6]%Z)) 1 false
  = Ok (mkBufs [7; 3]%Z [8; 9]%Z (Some [0; 0]%Z) (Some [6; 6]%Z)).
Proof.
  destruct (single_element_axis 4 [2; 1] [7; 3]%Z
              (mkBufs [0; 0]%Z [8; 9]%Z (Some [5; 5]%Z) (Some [6; 6]%Z))
              1 false true)
    as (_ & _ & _ & Hrun & _).
  - lia.
  - unfold valid_axis, normalize_axis. simpl. lia.
  - repeat split.
  - reflexivity.
  - simpl. lia.
  - rewrite Hrun. reflexivity.
Defined.

(** ** SegmentedTranspositionSortEngine *)





(** ** Both engines *)

(** C9: sorting sorted input changes no value.  When every segment of the
    data is sorted in the requested direction, [sort_ir] returns the data
    in its output value buffer; when the first [validCount] cells of every
    segment are, [sort_nms_ir] returns the value buffer it was given. *)
Theorem sort_idempotent (max_threads : nat) (shape : list nat)
    (data : list Z) (st : Bufs) (track : bool) (valid_count : list Z)
    (nst : NmsBufs) (axis : Z) (is_ascend : bool) :
  0 < max_threads → valid_axis shape axis →
  let L := layout_of shape axis in
  (bufs_ok (shape_size shape) track st →
   length data = shape_size shape →
   (∀ b z, b < axis_mul_before L → z < axis_mul_after L →
      Sorted (λ x y, compare is_ascend x y = true) (seg L b z data)) →
   ∃ st', sort_ir max_threads shape data st axis is_ascend = Ok st' ∧
     values_out st' = data) ∧
  (nms_ok (shape_size shape) nst →
   (∀ i j, i < axis_mul_before L → j < axis_mul_after L →
      current_sort_num L valid_count i j ≤ axis_len L) →
   (∀ b z, b < axis_mul_before L → z < axis_mul_after L →
      Sorted (λ x y, compare is_ascend x y = true)
        (take (current_sort_num L valid_count b z)
              (seg L b z (nms_data nst)))) →
   ∃ nst', sort_nms_ir max_threads shape valid_count nst axis is_ascend
           = Ok nst' ∧
     nms_data nst' = nms_data nst).
Proof.
  intros HM Hax L.
  destruct (axis_layout_valid shape axis Hax) as [_ HN]. fold L in HN.
  split.
  - intros Hok Hdata Hsorted.
    destruct (sort_ir_values max_threads shape data st axis is_ascend track
                HM Hax Hok) as (st' & Hrun & Hok' & Hv).
    exists st'. split; [done|]. destruct Hok' as (Hlen & _).
    apply (buf_ext L); [congruence..|]. intros b z Hb Hz.
    etransitivity; [exact (Hv b z Hb Hz)|].
    apply ref_sort_sorted. by apply Hsorted.
  - intros Hok Hvc Hsorted.
    destruct (sort_nms_ir_spec max_threads shape valid_count nst axis
                is_ascend HM Hax Hok Hvc) as (st' & Hrun & Hok' & H).
    exists st'. split; [done|]. destruct Hok as (Hlen & _), Hok' as (Hlen' & _).
    apply (buf_ext L); [congruence..|]. intros b z Hb Hz.
    destruct (H b z Hb Hz) as (Hd & _ & Hs & _). fold L in Hd, Hs.
    rewrite ref_sort_sorted in Hs by by apply Hsorted.
    rewrite <- (take_drop (current_sort_num L valid_count b z)
                  (seg L b z (nms_data st'))).
    rewrite Hs, Hd. apply take_drop.
Qed.

Lemma sort_idempotent_witness :
  (∃ st', sort_ir 4 [4] [1; 2; 2; 5]%Z
            (mkBufs (replicate 4 0%Z) (replicate 4 0%Z) None None) 0 true
          = Ok st' ∧ values_out st' = [1; 2; 2; 5]%Z) ∧
  (∃ nst', sort_nms_ir 4 [4] [3%Z] (mkNmsBufs [1; 2; 2; 0]%Z (replicate 4 0%Z))
             0 true = Ok nst' ∧ nms_data nst' = [1; 2; 2; 0]%Z).
Proof.
  destruct (sort_idempotent 4 [4] [1; 2; 2; 5]%Z
              (mkBufs (replicate 4 0%Z) (replicate 4 0%Z) None None) false
              [3%Z] (mkNmsBufs [1; 2; 2; 0]%Z (replicate 4 0%Z)) 0 true)
    as (Hm & Hn).
  - lia.
  - unfold valid_axis, normalize_axis. simpl. lia.
  - split.
    + apply Hm.
      * repeat split.
      * reflexivity.
      * intros b z Hb Hz. change (b < 1) in Hb. change (z < 1) in Hz.
        assert (b = 0 ∧ z = 0) as [-> ->] by lia.
        change (Sorted (λ x y, compare true x y = true) [1; 2; 2; 5]%Z).
        repeat constructor.
    + apply Hn.
      * repeat split.
      * intros b z Hb Hz. change (b < 1) in Hb. change (z < 1) in Hz.
        assert (b = 0 ∧ z = 0) as [-> ->] by lia. vm_compute. lia.
      * intros b z Hb Hz. change (b < 1) in Hb. change (z < 1) in Hz.
        assert (b = 0 ∧ z = 0) as [-> ->] by lia.
        change (Sorted (λ x y, compare true x y = true) [1; 2; 2]%Z).
        repeat constructor.
Defined.

(** ** SortOperatorFacade *)

Lemma ret_type_cases (ret_type : string) :
  ret_type_allowed ret_type = true →
  ret_type = "both"%string ∨ ret_type = "values"%string
  ∨ ret_type = "indices"%string.
Proof.
  unfold ret_type_allowed. intros H.
  apply orb_true_iff in H as [H|H]; [apply orb_true_iff in H as [H|H]|];
    apply String.eqb_eq in H; auto.
Qed.

Lemma decl_bufs_ok (shape : list nat) (track : bool) :
  bufs_ok (shape_size shape) track
    (mkBufs (decl_buffer shape) (decl_buffer shape)
            (if track then Some (decl_buffer shape) else None)
            (if track then Some (decl_buffer shape) else None)).
Proof.
  unfold bufs_ok, decl_buffer. cbn. rewrite !length_replicate.
  split; [done|]. split; [done|]. destruct track; cbn; [|done].
  by rewrite !length_replicate.
Qed.

Lemma valid_axis_nonneg (shape : list nat) (ax : Z) :
  (0 <= ax < Z.of_nat (length shape))%Z → valid_axis shape ax.
Proof.
  intros H. unfold valid_axis, normalize_axis.
  by rewrite (proj2 (Z.ltb_ge _ _)) by lia.
Qed.

(** The sort of scenario B. *)
Lemma sort_ir_scenario_B (max_threads : nat) :
  0 < max_threads →
  ∃ vs is_, sort_ir max_threads [3] [1; 5; 3]%Z
    (mkBufs (decl_buffer [3]) (decl_buffer [3])
            (Some (decl_buffer [3])) (Some (decl_buffer [3]))) 0 false
  = Ok (mkBufs [5; 3; 1]%Z vs (Some [1; 2; 0]%Z) is_).
Proof.
  intros HM.
  destruct (sort_ir_pairs max_threads [3] [1; 5; 3]%Z _ 0 false true HM
              (valid_axis_nonneg [3] 0 ltac:(simpl; lia))
              (decl_bufs_ok [3] true)) as (st' & Hrun & Hok & Hp).
  specialize (Hp 0 0 ltac:(vm_compute; lia) ltac:(vm_compute; lia)).
  change (layout_of [3] 0) with (mkLayout 1 3 1) in Hp.
  set (L := mkLayout 1 3 1) in *.
  pose proof (pairs_fst L 0 0 (values_out st') (indices_out st')) as Hf.
  pose proof (pairs_snd L 0 0 (values_out st') (indices_out st')) as Hn.
  rewrite Hp in Hf, Hn.
  destruct Hok as (Hl1 & Hl2 & Hidx). unfold idx_ok in Hidx.
  destruct st' as [vo vs io is_]. cbn [values_out indices_out
    values_out_swap indices_out_swap] in *.
  destruct io as [io|], is_ as [is_|]; try done.
  destruct Hidx as (Hl3 & _ & _).
  change (default [] (Some io)) with io in Hn.
  exists vs, (Some is_). rewrite Hrun. f_equal. f_equal.
  - apply (buf_ext L); [done..|]. intros b z Hb Hz.
    change (b < 1) in Hb. change (z < 1) in Hz.
    assert (b = 0 ∧ z = 0) as [-> ->] by lia. rewrite <- Hf. reflexivity.
  - f_equal. apply (buf_ext L); [done..|]. intros b z Hb Hz.
    change (b < 1) in Hb. change (z < 1) in Hz.
    assert (b = 0 ∧ z = 0) as [-> ->] by lia. rewrite <- Hn. reflexivity.
Qed.

(** [topk] past its assertions: the sort and the choice of what to
    return. *)
Lemma topk_unfold (max_threads : nat) (data : Tensor) (k axis : Z)
    (ret_type : string) (is_ascend : bool) (outs : Bufs) :
  ret_type_allowed ret_type = true →
  let shape := t_shape data in
  let ax :=
    if (axis <? 0)%Z then (axis + Z.of_nat (length shape))%Z else axis in
  (0 <= ax < Z.of_nat (length shape))%Z →
  let track := negb (String.eqb ret_type "values") in
  let zeros := decl_buffer shape in
  sort_ir max_threads shape (t_buf data)
    (mkBufs zeros zeros (if track then Some zeros else None)
            (if track then Some zeros else None)) ax is_ascend = Ok outs →
  let values := mkTensor shape (values_out outs) in
  let indices := mkTensor shape (default [] (indices_out outs)) in
  topk max_threads data k axis ret_type is_ascend
  = if (k <? 1)%Z then
      if String.eqb ret_type "indices" then Ok (OutTensor indices)
      else if String.eqb ret_type "values" then Ok (OutTensor values)
      else Ok (OutList [values; indices])
    else
      let end_ := topk_end shape ax k in
      if String.eqb ret_type "both" then
        Ok (OutList [strided_slice values end_; strided_slice indices end_])
      else if String.eqb ret_type "values" then
        Ok (OutList [strided_slice values end_])
      else Ok (OutList [strided_slice indices end_]).
Proof.
  intros Hret shape ax Hax track zeros Hrun values indices.
  unfold topk. rewrite Hret. cbn [negb]. fold shape. cbv zeta. fold ax.
  rewrite (proj2 (Z.leb_le 0 ax)), (proj2 (Z.ltb_lt ax _)) by lia.
  cbn [negb andb]. subst track zeros.
  destruct (String.eqb ret_type "values"); cbn [negb] in Hrun;
    rewrite Hrun; done.
Qed.

(** C6: for an allowed [ret_type] and an axis of the tensor, [topk] sorts
    along the axis and returns, by [ret_type], the values, the indices or
    both: whole when [k < 1]; when [k >= 1] cut to the extent
    [min k axisLen] at the axis, every segment being the first [k] cells of
    the sorted segment.  Values [1, 5, 3], descending, [k = 2] give values
    [5, 3] and indices [1, 2]. *)
Theorem topk_prefix (max_threads : nat) (data : Tensor) (k axis : Z)
    (ret_type : string) (is_ascend : bool) :
  0 < max_threads → ret_type_allowed ret_type = true →
  let shape := t_shape data in
  let ax :=
    if (axis <? 0)%Z then (axis + Z.of_nat (length shape))%Z else axis in
  (0 <= ax < Z.of_nat (length shape))%Z →
  let L := layout_of shape ax in
  let track := negb (String.eqb ret_type "values") in
  let zeros := decl_buffer shape in
  (∃ outs,
     sort_ir max_threads shape (t_buf data)
       (mkBufs zeros zeros (if track then Some zeros else None)
               (if track then Some zeros else None)) ax is_ascend = Ok outs ∧
     (∀ b z, b < axis_mul_before L → z < axis_mul_after L →
        seg L b z (values_out outs)
        = ref_sort (compare is_ascend) (seg L b z (t_buf data))) ∧
     let values := mkTensor shape (values_out outs) in
     let indices := mkTensor shape (default [] (indices_out outs)) in
     ((k < 1)%Z →
        topk max_threads data k axis ret_type is_ascend
        = Ok (if String.eqb ret_type "indices" then OutTensor indices
              else if String.eqb ret_type "values" then OutTensor values
              else OutList [values; indices])) ∧
     ((1 <= k)%Z →
        let m := Nat.min (Z.to_nat k) (axis_len L) in
        let L' := mkLayout (axis_mul_before L) m (axis_mul_after L) in
        ∃ values' indices',
          topk max_threads data k axis ret_type is_ascend
          = Ok (OutList
                  (if String.eqb ret_type "both" then [values'; indices']
                   else if String.eqb ret_type "values" then [values']
                   else [indices'])) ∧
          t_shape values' = <[Z.to_nat ax := m]> shape ∧
          t_shape indices' = <[Z.to_nat ax := m]> shape ∧
          ∀ b z, b < axis_mul_before L → z < axis_mul_after L →
            seg L' b z (t_buf values')
            = take (Z.to_nat k) (seg L b z (values_out outs)) ∧
            (track = true →
             seg L' b z (t_buf indices')
             = take (Z.to_nat k)
                 (seg L b z (default [] (indices_out outs)))))) ∧
  topk max_threads (mkTensor [3] [1; 5; 3]%Z) 2 (-1) "both" false
  = Ok (OutList [mkTensor [2] [5; 3]%Z; mkTensor [2] [1; 2]%Z]).
Proof.
  intros HM Hret shape ax Hax L track zeros. split.
  - pose proof (valid_axis_nonneg shape ax Hax) as Hvalid.
    destruct (sort_ir_values max_threads shape (t_buf data) _ ax is_ascend
                track HM Hvalid (decl_bufs_ok shape track))
      as (outs & Hrun & Hok & Hv).
    exists outs. split; [exact Hrun|]. split; [exact Hv|].
    intros values indices.
    pose proof (topk_unfold max_threads data k axis ret_type is_ascend outs
                  Hret Hax Hrun) as Htopk.
    fold shape ax in Htopk. fold values indices in Htopk.
    split.
    + intros Hk. rewrite Htopk, (proj2 (Z.ltb_lt k 1)) by lia.
      by repeat case_match.
    + intros Hk m L'.
      exists (strided_slice values (topk_end shape ax k)),
             (strided_slice indices (topk_end shape ax k)).
      split.
      { rewrite Htopk, (proj2 (Z.ltb_ge k 1)) by lia. cbv zeta.
        by repeat case_match. }
      split; [apply (strided_slice_topk_shape values ax k Hax)|].
      split; [apply (strided_slice_topk_shape indices ax k Hax)|].
      intros b z Hb Hz. destruct Hok as (Hl1 & _ & Hidx). split.
      * by apply (strided_slice_topk_end values ax k Hax Hl1).
      * intros Ht. rewrite Ht in Hidx. unfold idx_ok in Hidx.
        destruct (indices_out outs) as [io|] eqn:Hio;
          [|by destruct (indices_out_swap outs)].
        destruct (indices_out_swap outs); [|done].
        destruct Hidx as (Hl3 & _).
        by apply (strided_slice_topk_end indices ax k Hax Hl3).
  - destruct (sort_ir_scenario_B max_threads HM) as (vs & is_ & Hrun).
    rewrite (topk_unfold max_threads (mkTensor [3] [1; 5; 3]%Z) 2 (-1) "both"
               false _ eq_refl ltac:(simpl; lia) Hrun).
    reflexivity.
Qed.

Lemma topk_prefix_witness :
  ∃ values' indices',
    topk 4 (mkTensor [2; 3] [1; 5; 3; 4; 0; 2]%Z) 2 1 "both" true
    = Ok (OutList [values'; indices']) ∧
    t_shape values' = [2; 2] ∧ t_shape indices' = [2; 2].
Proof.
  destruct (topk_prefix 4 (mkTensor [2; 3] [1; 5; 3; 4; 0; 2]%Z) 2 1 "both"
              true) as ((outs & _ & _ & _ & Hge) & _).
  - lia.
  - reflexivity.
  - simpl. lia.
  - destruct (Hge ltac:(lia)) as (v' & i' & Ht & Hs1 & Hs2 & _).
    exists v', i'. split; [exact Ht|]. split; [exact Hs1|exact Hs2].
Defined.

(** C7: what the operators check before the kernels are built, at
    concrete inputs.  [topk] asserts its [ret_type] and its axis; an axis
    at or beyond the rank, below minus twice the rank, or of a tensor of
    rank 0 raises the [IndexError] of [shape[axis]] in [sort_ir].  But [sort]
    and [argsort] of a tensor of shape [2, 3] along axis [-3] raise
    nothing: [sort_ir] and [sort_nms_ir] take the axis to [-1], read
    [shape[-1] = 3] and build the kernels of the layout [(1, 3, 6)], of 18
    cells, over buffers of 6 cells. *)
Theorem sort_axis_unchecked :
  let data := mkTensor [2; 3] [5; 1; 4; 2; 6; 3]%Z in
  normalize_axis 2 (-3) = (-1)%Z ∧
  axis_layout [2; 3] (-3) = Ok (mkLayout 1 3 6) ∧
  numel (mkLayout 1 3 6) = 18 ∧ shape_size [2; 3] = 6 ∧
  (∃ t, sort 4 data (-3) true = Ok t) ∧
  (∃ hr, argsort 4 [t_buf data] (mkRef [2; 3] 0) None (-3) true = Ok hr) ∧
  (∃ hr, argsort 4 [t_buf data; [2; 2]%Z] (mkRef [2; 3] 0)
           (Some (mkRef [2] 1)) (-3) true = Ok hr) ∧
  topk 4 data 1 (-3) "values" true = Raise AssertionError ∧
  topk 4 data 1 (-1) "value" true = Raise AssertionError ∧
  sort 4 data 2 true = Raise IndexError ∧
  sort 4 data (-5) true = Raise IndexError ∧
  sort 4 (mkTensor [] [5]%Z) 0 true = Raise IndexError ∧
  sort 4 (mkTensor [] [5]%Z) (-1) true = Raise IndexError ∧
  topk 4 (mkTensor [] [5]%Z) 1 0 "values" true = Raise AssertionError.
Proof.
  intros data. repeat split; try reflexivity;
    eexists; vm_compute; reflexivity.
Qed.

Lemma argsort_store (h : Heap) (a b a' b' : list Z) :
  <[S (length h) := b']> (<[length h := a']> (h ++ [a; b])) = h ++ [a'; b'].
Proof.
  rewrite !insert_app_r_alt by lia.
  rewrite Nat.sub_diag. replace (S (length h) - length h) with 1 by lia.
  done.
Qed.

(** C10: [argsort] with a valid count leaves every buffer of the store it
    is given as it was, the data among them: the buffer the kernel sorts
    in place is the copy [identity] makes, at a new location, and the
    indices returned are at a second new location. *)
Theorem argsort_preserves_input (max_threads : nat) (h : Heap)
    (data valid_count : TensorRef) (axis : Z) (is_ascend : bool) :
  valid_axis (r_shape data) axis →
  r_loc data < length h → r_loc valid_count < length h →
  ∃ st',
    sort_nms_ir max_threads (r_shape data) (h !!! r_loc valid_count)
      (mkNmsBufs (h !!! r_loc data) (decl_buffer (r_shape data)))
      axis is_ascend = Ok st' ∧
    ∃ h',
      argsort max_threads h data (Some valid_count) axis is_ascend
      = Ok (h', mkRef (r_shape data) (S (length h))) ∧
      h' = h ++ [nms_data st'; nms_output st'] ∧
      h' !!! r_loc data = h !!! r_loc data ∧
      ∀ l, l < length h → h' !! l = h !! l.
Proof.
  intros Hax Hd Hv. eexists. split; [by apply sort_nms_ir_valid|].
  eexists. split; [|split; [reflexivity|split]].
  - unfold argsort, identity, alloc. cbn [fst snd r_shape r_loc].
    rewrite <- !app_assoc. cbn [app]. rewrite length_app. cbn [length].
    replace (length h + 1) with (S (length h)) by lia.
    set (a := h !!! r_loc data). set (b := decl_buffer (r_shape data)).
    unfold Heap in *.
    assert ((h ++ [a; b]) !!! r_loc valid_count = h !!! r_loc valid_count)
      as -> by (by apply lookup_total_app_l).
    assert ((h ++ [a; b]) !!! length h = a) as ->.
    { rewrite lookup_total_app_r by lia. by rewrite Nat.sub_diag. }
    assert ((h ++ [a; b]) !!! S (length h) = b) as ->.
    { rewrite lookup_total_app_r by lia.
      by replace (S (length h) - length h) with 1 by lia. }
    rewrite sort_nms_ir_valid by done. cbn [bind_result].
    by rewrite argsort_store.
  - unfold Heap. by rewrite lookup_total_app_l.
  - intros l Hl. unfold Heap. by rewrite lookup_app_l.
Qed.

Lemma argsort_preserves_input_witness :
  argsort 4 [[9; 7; 8; 2; 2]%Z; [3]%Z] (mkRef [5] 0) (Some (mkRef [1] 1))
    (-1) true
  = Ok ([[9; 7; 8; 2; 2]%Z; [3]%Z; [7; 8; 9; 2; 2]%Z; [1; 2; 0; 3; 4]%Z],
        mkRef [5] 3).
Proof.
  destruct (argsort_preserves_input 4 [[9; 7; 8; 2; 2]%Z; [3]%Z]
              (mkRef [5] 0) (mkRef [1] 1) (-1) true)
    as (st' & Hrun & h' & Harg & Hh & _).
  - unfold valid_axis, normalize_axis. simpl. lia.
  - simpl. lia.
  - simpl. lia.
  - rewrite Harg, Hh. f_equal. f_equal.
    assert (Ok st' = Ok (mkNmsBufs [7; 8; 9; 2; 2]%Z [1; 2; 0; 3; 4]%Z))
      as [= ->] by (rewrite <- Hrun; reflexivity).
    reflexivity.
Defined.

(** * Further properties of the code *)

(** ** [swap] *)

Lemma py_getitem_last {A} (f : list A) (l : A) :
  py_getitem (f ++ [l]) (-1) = Ok l.
Proof.
  unfold py_getitem. rewrite length_app. cbn [length].
  rewrite (proj2 (Z.ltb_ge _ _)) by lia.
  rewrite (proj2 (Z.leb_gt _ _)) by lia. cbn [orb].
  change (-1 <? 0)%Z with true. cbv iota.
  replace (Z.to_nat (-1 + Z.of_nat (length f + 1))) with (length f + 0) by lia.
  by rewrite lookup_app_r, Nat.add_comm, Nat.add_sub by lia.
Qed.

Lemma py_getitem_nil {A} (i : Z) : py_getitem ([] : list A) i = Raise IndexError.
Proof.
  unfold py_getitem. case_match; [done|]. by rewrite lookup_nil.
Qed.

Lemma py_getitem_ge {A} (arr : list A) (i : Z) :
  (Z.of_nat (length arr) <= i)%Z → py_getitem arr i = Raise IndexError.
Proof.
  intros H. unfold py_getitem.
  rewrite (proj2 (Z.leb_le _ _)) by done. by rewrite orb_true_r.
Qed.

Lemma py_getitem_middle {A} (f r : list A) (x : A) (i : Z) :
  i = Z.of_nat (length f)
  ∨ i = (Z.of_nat (length f) - Z.of_nat (length (f ++ x :: r)))%Z →
  py_getitem (f ++ x :: r) i = Ok x.
Proof.
  intros Hi. unfold py_getitem.
  assert (length (f ++ x :: r) = length f + S (length r)) as Hlen
    by (by rewrite length_app).
  rewrite Hlen in *.
  rewrite (proj2 (Z.ltb_ge _ _)) by lia.
  rewrite (proj2 (Z.leb_gt _ _)) by lia. cbn [orb].
  assert (Z.to_nat (if (i <? 0)%Z
                    then (i + Z.of_nat (length f + S (length r)))%Z else i)
          = length f) as ->.
  { destruct (Z.ltb_spec i 0); lia. }
  by rewrite list_lookup_middle.
Qed.

Lemma slice_app_middle {A} (f m r : list A) :
  slice (length f) (length f + length m) (f ++ m ++ r) = m.
Proof.
  unfold slice. rewrite drop_app_length.
  replace (length f + length m - length f) with (length m) by lia.
  by rewrite take_app_length.
Qed.

(** The four parts [swap] cuts a list of at least two entries into, for an
    axis before the last entry, counted from either end. *)
Lemma swap_parts {A} (f m : list A) (x l : A) (axis : Z) :
  axis = Z.of_nat (length f)
  ∨ axis = (Z.of_nat (length f) - Z.of_nat (length (f ++ x :: m ++ [l])))%Z →
  swap (f ++ x :: m ++ [l]) axis = Ok (f ++ l :: m ++ [x]).
Proof.
  intros Hax. unfold swap.
  assert (length (f ++ x :: m ++ [l]) = length f + length m + 2) as Hlen.
  { rewrite length_app. cbn [length]. rewrite length_app. cbn [length]. lia. }
  assert (f ++ x :: m ++ [l] = (f ++ x :: m) ++ [l]) as Hsplit
    by (by rewrite <- app_assoc).
  assert (py_getitem (f ++ x :: m ++ [l]) (-1) = Ok l) as ->
    by (rewrite Hsplit; apply py_getitem_last).
  cbn [bind_result].
  rewrite py_getitem_middle by done. cbn [bind_result]. f_equal.
  unfold py_slice. cbn [from_option]. rewrite Hlen in *.
  assert (py_slice_bound (length f + length m + 2) axis = length f) as ->.
  { unfold py_slice_bound. destruct (Z.ltb_spec axis 0); lia. }
  assert (py_slice_bound (length f + length m + 2) (axis + 1)
          = length f + 1) as ->.
  { unfold py_slice_bound. destruct (Z.ltb_spec (axis + 1) 0); lia. }
  assert (py_slice_bound (length f + length m + 2) (-1)
          = length f + 1 + length m) as ->.
  { unfold py_slice_bound. change (-1 <? 0)%Z with true. cbv iota. lia. }
  assert (slice 0 (length f) (f ++ x :: m ++ [l]) = f) as ->.
  { apply (slice_app_middle [] f). }
  assert (slice (length f + 1) (length f + 1 + length m) (f ++ x :: m ++ [l])
          = m) as ->.
  { replace (length f + 1) with (length (f ++ [x]))
      by (rewrite length_app; cbn; lia).
    replace (f ++ x :: m ++ [l]) with ((f ++ [x]) ++ m ++ [l])
      by (by rewrite <- app_assoc).
    apply slice_app_middle. }
  by rewrite <- !app_assoc.
Qed.

Lemma list_parts {A} (arr : list A) (a : nat) :
  a + 1 < length arr →
  ∃ f x m l, arr = f ++ x :: m ++ [l] ∧ length f = a.
Proof.
  intros Ha.
  destruct (lookup_lt_is_Some_2 arr a ltac:(lia)) as [x Hx].
  pose proof (take_drop_middle arr a x Hx) as Hsplit.
  assert (length (drop (S a) arr) ≠ 0) as Hr by (rewrite length_drop; lia).
  destruct (drop (S a) arr) as [|y r _] using rev_ind; [done|].
  exists (take a arr), x, r, y. split; [done|].
  rewrite length_take. lia.
Qed.

Lemma parts_lookups {A} `{!Inhabited A} (f m : list A) (x l : A) :
  let arr := f ++ x :: m ++ [l] in
  length arr = length f + length m + 2 ∧
  arr !!! length f = x ∧ arr !!! (length arr - 1) = l ∧
  <[length arr - 1 := x]> (<[length f := l]> arr) = f ++ l :: m ++ [x].
Proof.
  intros arr.
  assert (length arr = length f + length m + 2) as Hlen.
  { unfold arr. rewrite length_app. cbn [length]. rewrite length_app.
    cbn [length]. lia. }
  split; [done|]. split; [|split].
  - apply list_lookup_total_correct. unfold arr. by rewrite list_lookup_middle.
  - apply list_lookup_total_correct. unfold arr.
    replace (f ++ x :: m ++ [l]) with ((f ++ x :: m) ++ [l])
      by (by rewrite <- app_assoc).
    rewrite list_lookup_middle; [done|].
    rewrite length_app. cbn [length]. fold arr. lia.
  - rewrite Hlen. unfold arr.
    assert (<[length f := l]> (f ++ x :: m ++ [l]) = f ++ l :: m ++ [l]) as ->.
    { rewrite insert_app_r_alt by lia. by rewrite Nat.sub_diag. }
    rewrite insert_app_r_alt by lia.
    replace (length f + length m + 2 - 1 - length f) with (S (length m))
      by lia.
    simpl. f_equal. f_equal.
    rewrite insert_app_r_alt by lia. by rewrite Nat.sub_diag.
Qed.

(** [swap] at an axis before the last entry, as two stores. *)
Lemma swap_insert {A} `{!Inhabited A} (arr : list A) (axis : Z) :
  let n := length arr in
  (0 <= axis ∧ axis + 1 < Z.of_nat n)%Z
  ∨ (- Z.of_nat n <= axis < -1)%Z →
  let a := Z.to_nat (if (axis <? 0)%Z then (axis + Z.of_nat n)%Z else axis) in
  swap arr axis = Ok (<[n - 1 := arr !!! a]> (<[a := arr !!! (n - 1)]> arr)).
Proof.
  intros n Hax a.
  assert (a + 1 < n) as Ha.
  { unfold a. destruct (Z.ltb_spec axis 0); lia. }
  destruct (list_parts arr a Ha) as (f & x & m & l & -> & Hf).
  destruct (parts_lookups f m x l) as (Hlen & Hx & Hl & Hins).
  fold n in Hlen, Hl, Hins. rewrite <- Hf, Hx, Hl, Hins.
  apply swap_parts. fold n. unfold a in Hf.
  destruct (Z.ltb_spec axis 0); lia.
Qed.

Lemma swap_Permutation {A} (arr : list A) (axis : Z) :
  (0 <= axis ∧ axis + 1 < Z.of_nat (length arr))%Z →
  ∃ arr', swap arr axis = Ok arr' ∧ arr' ≡ₚ arr.
Proof.
  intros Hax.
  destruct (list_parts arr (Z.to_nat axis) ltac:(lia))
    as (f & x & m & l & -> & Hf).
  exists (f ++ l :: m ++ [x]). split; [apply swap_parts; lia|].
  apply Permutation_app_head.
  rewrite !(Permutation_app_comm m), <- !app_comm_cons. simpl.
  apply perm_swap.
Qed.

(** X1: [swap] exchanges the entry at the axis with the last entry and
    keeps every other entry where it is, whether the axis is counted from
    the front or (negative) from the end. *)
Theorem swap_exchanges_axis_and_last {A} (f m : list A) (x l : A) :
  let arr := f ++ x :: m ++ [l] in
  swap arr (Z.of_nat (length f)) = Ok (f ++ l :: m ++ [x]) ∧
  swap arr (Z.of_nat (length f) - Z.of_nat (length arr))
  = Ok (f ++ l :: m ++ [x]).
Proof. intros arr. split; apply swap_parts; auto. Qed.

(** X2: for an axis before the last entry, [swap] twice along the same
    axis gives the list back. *)
Theorem swap_involutive {A} (arr : list A) (axis : Z) :
  (0 <= axis ∧ axis + 1 < Z.of_nat (length arr))%Z
  ∨ (- Z.of_nat (length arr) <= axis < -1)%Z →
  ∃ arr', swap arr axis = Ok arr' ∧ length arr' = length arr ∧
    arr' ≡ₚ arr ∧ swap arr' axis = Ok arr.
Proof.
  intros Hax.
  set (a := Z.to_nat (if (axis <? 0)%Z
                      then (axis + Z.of_nat (length arr))%Z else axis)).
  assert (a + 1 < length arr) as Ha.
  { unfold a. destruct (Z.ltb_spec axis 0); lia. }
  destruct (list_parts arr a Ha) as (f & x & m & l & -> & Hf).
  assert (length (f ++ x :: m ++ [l]) = length (f ++ l :: m ++ [x])) as Hlen.
  { rewrite !length_app. cbn [length]. by rewrite !length_app. }
  assert (axis = Z.of_nat (length f)
          ∨ axis = (Z.of_nat (length f)
                    - Z.of_nat (length (f ++ x :: m ++ [l])))%Z) as Hax'.
  { unfold a in Hf. destruct (Z.ltb_spec axis 0); lia. }
  exists (f ++ l :: m ++ [x]). split; [by apply swap_parts|].
  split; [done|]. split.
  - apply Permutation_app_head.
    rewrite !(Permutation_app_comm m), <- !app_comm_cons. simpl.
    apply perm_swap.
  - apply swap_parts. by rewrite <- Hlen.
Qed.

Lemma swap_involutive_witness :
  ∃ arr', swap [0; 1; 2; 3] 1 = Ok arr' ∧ length arr' = 4 ∧
    arr' ≡ₚ [0; 1; 2; 3] ∧ swap arr' 1 = Ok [0; 1; 2; 3].
Proof. apply (swap_involutive [0; 1; 2; 3] 1). simpl. lia. Defined.

(** X3: at the last axis [swap] does not return the list: the last entry
    comes twice and the result is one entry longer, which is why its
    callers skip it there.  An empty list, an axis at or beyond the
    length and an axis below minus the length raise [IndexError]. *)
Theorem swap_last_axis_and_errors {A} (arr : list A) (l : A) (axis : Z) :
  swap (arr ++ [l]) (Z.of_nat (length arr)) = Ok (arr ++ [l; l]) ∧
  swap ([] : list A) axis = Raise IndexError ∧
  ((Z.of_nat (length arr) <= axis ∨ axis < - Z.of_nat (length arr))%Z →
   swap arr axis = Raise IndexError).
Proof.
  split; [|split].
  - unfold swap. rewrite py_getitem_last. cbn [bind_result].
    rewrite (py_getitem_middle arr [] l) by auto. cbn [bind_result]. f_equal.
    unfold py_slice. cbn [from_option]. rewrite length_app. cbn [length].
    assert (py_slice_bound (length arr + 1) (Z.of_nat (length arr))
            = length arr) as ->.
    { unfold py_slice_bound.
      destruct (Z.ltb_spec (Z.of_nat (length arr)) 0); lia. }
    assert (py_slice_bound (length arr + 1) (Z.of_nat (length arr) + 1)
            = length arr + 1) as ->.
    { unfold py_slice_bound.
      destruct (Z.ltb_spec (Z.of_nat (length arr) + 1) 0); lia. }
    assert (py_slice_bound (length arr + 1) (-1) = length arr) as ->.
    { unfold py_slice_bound. change (-1 <? 0)%Z with true. cbv iota. lia. }
    assert (slice 0 (length arr) (arr ++ [l]) = arr) as ->.
    { apply (slice_app_middle [] arr [l]). }
    assert (slice (length arr + 1) (length arr) (arr ++ [l]) = []) as ->.
    { unfold slice. replace (length arr - (length arr + 1)) with 0 by lia.
      done. }
    by rewrite app_nil_r, <- app_assoc.
  - unfold swap. by rewrite py_getitem_nil.
  - intros Hax. unfold swap.
    destruct (py_getitem arr (-1)) as [last|e] eqn:Hlast; cbn [bind_result].
    + assert (py_getitem arr axis = Raise IndexError) as ->; [|done].
      unfold py_getitem.
      destruct Hax as [Hax|Hax].
      * rewrite (proj2 (Z.leb_le _ _)) by done. by rewrite orb_true_r.
      * by rewrite (proj2 (Z.ltb_lt _ _)) by done.
    + unfold py_getitem in Hlast. repeat case_match; congruence.
Qed.

Lemma swap_last_axis_and_errors_witness :
  swap [0; 1; 2] 2 = Ok [0; 1; 2; 2] ∧
  swap [0; 1; 2] 3 = Raise IndexError.
Proof.
  destruct (swap_last_axis_and_errors [0; 1] 2 2) as (H1 & _ & _).
  destruct (swap_last_axis_and_errors [0; 1; 2] 0 3) as (_ & _ & H3).
  split; [exact H1|]. apply H3. simpl. lia.
Defined.

(** X4: the axes [swap(list(range(ndim)), axis)] with which the thrust
    variants transpose, for an axis before the last: a permutation of
    [range(ndim)] that sends the axis to the last dimension and back and
    fixes the others, so that it is its own inverse and transposing twice
    with it restores the order of the dimensions. *)
Theorem swap_range_self_inverse (ndim : nat) (axis : Z) :
  (0 <= axis ∧ axis + 1 < Z.of_nat ndim)%Z →
  ∃ axes, swap (seq 0 ndim) axis = Ok axes ∧
    axes ≡ₚ seq 0 ndim ∧
    axes !!! Z.to_nat axis = ndim - 1 ∧
    axes !!! (ndim - 1) = Z.to_nat axis ∧
    (∀ i, i < ndim → i ≠ Z.to_nat axis → i ≠ ndim - 1 → axes !!! i = i) ∧
    (∀ i, i < ndim → axes !!! (axes !!! i) = i).
Proof.
  intros Hax.
  pose proof (swap_insert (seq 0 ndim) axis) as Hs.
  rewrite length_seq in Hs. specialize (Hs (or_introl Hax)).
  cbv zeta in Hs.
  rewrite (proj2 (Z.ltb_ge _ _)) in Hs by lia.
  set (a := Z.to_nat axis) in *. assert (a + 1 < ndim) as Ha by lia.
  rewrite (lookup_total_seq_lt 0 ndim (ndim - 1)) in Hs by lia.
  rewrite (lookup_total_seq_lt 0 ndim a) in Hs by lia. cbn [Nat.add] in Hs.
  set (axes := <[ndim - 1 := a]> (<[a := ndim - 1]> (seq 0 ndim))) in *.
  exists axes. split; [exact Hs|].
  assert (∀ i, i < ndim →
            axes !!! i = if decide (i = ndim - 1) then a
                         else if decide (i = a) then ndim - 1 else i) as Hl.
  { intros i Hi. unfold axes. case_decide as H1.
    - subst i. rewrite list_lookup_total_insert_eq; [done|].
      rewrite length_insert, length_seq. lia.
    - rewrite list_lookup_total_insert_ne by done. case_decide as H2.
      + subst i. rewrite list_lookup_total_insert_eq; [done|].
        rewrite length_seq. lia.
      + rewrite list_lookup_total_insert_ne by done.
        by rewrite lookup_total_seq_lt. }
  split_and!.
  - destruct (swap_Permutation (seq 0 ndim) axis) as (arr' & H1 & Hp).
    { by rewrite length_seq. }
    rewrite Hs in H1. by injection H1 as ->.
  - rewrite Hl by lia. rewrite decide_False by lia. by rewrite decide_True.
  - rewrite Hl by lia. by rewrite decide_True.
  - intros i Hi H1 H2. rewrite Hl by lia. by rewrite !decide_False.
  - intros i Hi. rewrite (Hl i) by done.
    repeat case_decide; rewrite Hl by lia; repeat case_decide; lia.
Qed.

Lemma swap_range_self_inverse_witness :
  ∃ axes, swap (seq 0 4) 1 = Ok axes ∧
    axes ≡ₚ seq 0 4 ∧ axes !!! 1 = 3 ∧ axes !!! 3 = 1 ∧
    (∀ i, i < 4 → i ≠ 1 → i ≠ 3 → axes !!! i = i) ∧
    (∀ i, i < 4 → axes !!! (axes !!! i) = i).
Proof. apply (swap_range_self_inverse 4 1). lia. Defined.

(** ** Stability of the reference sort *)

Lemma stable_le_trans asc (x y z : Z * Z) :
  stable_le asc x y → stable_le asc y z → stable_le asc x z.
Proof. unfold stable_le, compare. destruct asc; lia. Qed.

Lemma stable_le_asym asc (x y : Z * Z) :
  stable_le asc x y → stable_le asc y x → x = y.
Proof. unfold stable_le, compare. destruct asc; lia. Qed.

Lemma StronglySorted_lookup {A} (R : A → A → Prop) (l : list A) i j x y :
  StronglySorted R l → i < j → l !! i = Some x → l !! j = Some y → R x y.
Proof.
  intros Hs. revert i j. induction Hs as [|a l Hs IH Hall]; intros i j Hij Hi Hj.
  - done.
  - destruct j as [|j]; [lia|]. destruct i as [|i]; simpl in *.
    + injection Hi as ->. rewrite Forall_forall in Hall. apply Hall.
      by eapply list_elem_of_lookup_2.
    + apply (IH i j); [lia|done..].
Qed.

Lemma ref_insert_stable asc (x : Z * Z) (l : list (Z * Z)) :
  StronglySorted (stable_le asc) l → Forall (λ y, (x.2 < y.2)%Z) l →
  StronglySorted (stable_le asc) (ref_insert (le_fst asc) x l).
Proof.
  induction 1 as [|y l Hs IH Hall]; intros Hx; simpl.
  - by repeat constructor.
  - apply Forall_cons in Hx as [Hxy Hx].
    destruct (le_fst asc x y) eqn:E.
    + assert (stable_le asc x y) as Hxy' by (by split).
      constructor; [by constructor|]. constructor; [done|].
      eapply Forall_impl; [exact Hall|]. intros z Hz.
      by apply (stable_le_trans asc x y z).
    + constructor; [by apply IH|].
      rewrite ref_insert_Permutation. constructor; [|done].
      unfold le_fst, compare in E. unfold stable_le, compare.
      destruct asc; lia.
Qed.

(** Sorting pairs whose positions increase along the list orders ties by
    position. *)
Lemma ref_sort_stable asc (l : list (Z * Z)) :
  StronglySorted (λ x y, (x.2 < y.2)%Z) l →
  StronglySorted (stable_le asc) (ref_sort (le_fst asc) l).
Proof.
  induction 1 as [|x l Hs IH Hall]; simpl; [constructor|].
  apply ref_insert_stable; [done|]. by rewrite ref_sort_Permutation.
Qed.

Lemma zip_seq_increasing (l : list Z) s n :
  StronglySorted (λ x y : Z * Z, (x.2 < y.2)%Z)
    (zip l (Z.of_nat <$> seq s n)).
Proof.
  revert s n. induction l as [|v l IH]; intros s n; [constructor|].
  destruct n as [|n]; [constructor|]. cbn [seq fmap list_fmap zip zip_with].
  constructor; [apply IH|].
  apply Forall_forall. intros [w i] Hin. cbn [snd].
  apply elem_of_zip_r in Hin. cbn [snd] in Hin.
  apply list_elem_of_fmap in Hin as (k & -> & Hk).
  apply elem_of_seq in Hk. lia.
Qed.

Lemma tag_identity_increasing (l : list Z) :
  StronglySorted (λ x y : Z * Z, (x.2 < y.2)%Z) (tag_identity l).
Proof. apply zip_seq_increasing. Qed.

Lemma StronglySorted_take {A} (R : A → A → Prop) (l : list A) n :
  StronglySorted R l → StronglySorted R (take n l).
Proof.
  intros Hs. rewrite <- (take_drop n l) in Hs.
  by apply StronglySorted_app_1_l in Hs.
Qed.

(** A list ordered by value and, among equal values, by position is the
    reference sort of every list of increasing positions it permutes. *)
Lemma stable_sort_unique asc (l l' : list (Z * Z)) :
  StronglySorted (stable_le asc) l' → l' ≡ₚ l →
  StronglySorted (λ x y, (x.2 < y.2)%Z) l →
  l' = ref_sort (le_fst asc) l.
Proof.
  intros Hs Hp Hl.
  apply (StronglySorted_unique_strong (stable_le asc)).
  - intros x y _ _. apply stable_le_asym.
  - done.
  - by apply ref_sort_stable.
  - by rewrite ref_sort_Permutation.
Qed.

(** ** Stability of the transposition sort *)

Lemma StronglySorted_lookup_2 {A} (R : A → A → Prop) (l : list A) :
  (∀ i j x y, i < j → l !! i = Some x → l !! j = Some y → R x y) →
  StronglySorted R l.
Proof.
  induction l as [|a l IH]; intros H; [constructor|].
  constructor.
  - apply IH. intros i j x y Hij Hi Hj. by apply (H (S i) (S j)); [lia|..].
  - apply Forall_forall. intros y Hy.
    apply list_elem_of_lookup_1 in Hy as [j Hj].
    by apply (H 0 (S j)); [lia|..].
Qed.

Lemma tag_identity_ties (l : list Z) : ties_ordered (tag_identity l).
Proof.
  intros i j Hij _.
  pose proof (tag_identity_increasing l) as Hs.
  apply (StronglySorted_lookup _ _ i j (tag_identity l !!! i)
           (tag_identity l !!! j) Hs); [lia|..];
    apply list_lookup_lookup_total_lt; lia.
Qed.

(** An exchange of two neighbours of different values keeps equal values
    in the order of their positions. *)
Lemma cas_ties asc vc p (l : list (Z * Z)) :
  vc ≤ length l → ties_ordered l → ties_ordered (cas (sort_key asc) vc p l).
Proof.
  intros Hvc Hl. unfold cas.
  destruct (Nat.ltb_spec (p + 1) vc) as [Hp|Hp]; cbn [andb]; [|done].
  destruct (Z.ltb_spec (sort_key asc (l !!! (p + 1)))
              (sort_key asc (l !!! p))) as [Hlt|Hge]; [|done].
  assert ((l !!! (p + 1)).1 ≠ (l !!! p).1) as Hne.
  { unfold sort_key in Hlt. destruct asc; lia. }
  set (l' := <[p + 1 := l !!! p]> (<[p := l !!! (p + 1)]> l)).
  assert (length l' = length l) as Hlen
    by (unfold l'; by rewrite !length_insert).
  assert (∀ k, k < length l →
            l' !!! k = if decide (k = p + 1) then l !!! p
                       else if decide (k = p) then l !!! (p + 1)
                       else l !!! k) as Hk.
  { intros k Hk. unfold l'. case_decide as H1.
    - subst k. apply list_lookup_total_insert_eq. rewrite length_insert. lia.
    - rewrite list_lookup_total_insert_ne by done. case_decide as H2.
      + subst k. apply list_lookup_total_insert_eq. lia.
      + by rewrite list_lookup_total_insert_ne. }
  intros i j Hij. rewrite Hlen in Hij. rewrite !Hk by lia.
  repeat case_decide; subst; intros Heq;
    try (by apply Hl; [lia|done]); try lia; try congruence.
Qed.

Lemma oets_thread_ties asc vc k tid (l : list (Z * Z)) :
  vc ≤ length l → ties_ordered l →
  ties_ordered (oets_thread (sort_key asc) vc k tid l).
Proof.
  intros Hvc Hl. unfold oets_thread. case_match; [|done]. by apply cas_ties.
Qed.

Lemma oets_pass_ties asc vc T k (l : list (Z * Z)) :
  vc ≤ length l → ties_ordered l →
  vc ≤ length (oets_pass (sort_key asc) vc T l k) ∧
  ties_ordered (oets_pass (sort_key asc) vc T l k).
Proof.
  unfold oets_pass. generalize (seq 0 T). intros tids. revert l.
  induction tids as [|tid tids IH]; intros l Hvc Hl; [done|].
  cbn [foldl]. apply IH.
  - by rewrite length_oets_thread.
  - by apply oets_thread_ties.
Qed.

Lemma oets_ties asc vc T (l : list (Z * Z)) :
  vc ≤ length l → ties_ordered l → ties_ordered (oets (sort_key asc) vc T l).
Proof.
  unfold oets. generalize (seq 0 vc). intros ks. revert l.
  induction ks as [|k ks IH]; intros l Hvc Hl; [done|].
  cbn [foldl]. destruct (oets_pass_ties asc vc T k l Hvc Hl). by apply IH.
Qed.

(** The transposition sort of a segment with the identity indices is the
    reference stable sort on the first [vc] cells. *)
Lemma oets_stable asc vc T (l : list Z) :
  vc ≤ length l → (vc + 1) / 2 ≤ T →
  take vc (oets (sort_key asc) vc T (tag_identity l))
  = ref_sort (le_fst asc) (take vc (tag_identity l)).
Proof.
  intros Hvc HT.
  assert (vc ≤ length (tag_identity l)) as Hvc'
    by (by rewrite length_tag_identity).
  destruct (oets_sorted (sort_key asc) vc T (tag_identity l) Hvc' HT)
    as (Hlen & _ & Hp & Hs).
  pose proof (oets_ties asc vc T (tag_identity l) Hvc'
                (tag_identity_ties l)) as Ht.
  set (l' := oets (sort_key asc) vc T (tag_identity l)) in *.
  apply stable_sort_unique; [|done|].
  - assert (Transitive (λ a b : Z * Z, (sort_key asc a <= sort_key asc b)%Z))
      as Htr by (intros x y z; lia).
    apply Sorted_StronglySorted in Hs; [|done].
    apply StronglySorted_lookup_2. intros i j x y Hij Hi Hj.
    pose proof (StronglySorted_lookup _ _ i j x y Hs Hij Hi Hj) as Hk.
    apply lookup_take_Some in Hi as [Hi Hic], Hj as [Hj Hjc].
    pose proof (lookup_lt_Some _ _ _ Hj) as Hjl.
    specialize (Ht i j ltac:(lia)).
    apply list_lookup_total_correct in Hi, Hj. rewrite Hi, Hj in Ht.
    split; [by apply sort_key_le|done].
  - apply StronglySorted_take, tag_identity_increasing.
Qed.

Lemma sort_nms_ir_stable_view max_threads shape valid_count st axis asc :
  0 < max_threads → valid_axis shape axis →
  nms_ok (shape_size shape) st →
  let L := layout_of shape axis in
  (∀ i j, i < axis_mul_before L → j < axis_mul_after L →
     current_sort_num L valid_count i j ≤ axis_len L) →
  ∃ st', sort_nms_ir max_threads shape valid_count st axis asc = Ok st' ∧
    nms_ok (shape_size shape) st' ∧
    ∀ b z, b < axis_mul_before L → z < axis_mul_after L →
      let c := current_sort_num L valid_count b z in
      take c (nview L b z st')
      = ref_sort (le_fst asc) (take c (tag_identity (seg L b z (nms_data st)))).
Proof.
  intros HM Hax Hok L Hvc.
  destruct (axis_layout_valid shape axis Hax) as [_ HN]. fold L in HN.
  eexists. split; [by apply sort_nms_ir_valid|].
  pose proof Hok as Hok0. rewrite <- HN in Hok0.
  destruct (sort_nms_kernel_view L (shape_size shape) max_threads asc
              valid_count HM ltac:(lia) Hvc st Hok0) as (Hok' & Hv).
  split; [by rewrite HN in Hok'|]. intros b z Hb Hz c.
  fold L. rewrite (Hv b z Hb Hz). fold c.
  pose proof (Hvc b z Hb Hz) as Hc. fold c in Hc.
  apply oets_stable.
  - rewrite length_seg. lia.
  - pose proof (nms_threads_enough L (shape_size shape) max_threads b z
                  HM ltac:(lia) Hb Hz).
    assert ((c + 1) / 2 ≤ c ∨ c = 0) as [?| ->] by divlia; [lia|].
    cbn. lia.
Qed.









(** ** The facade [sort] *)

Lemma decl_bufs_untracked_ok (shape : list nat) :
  bufs_ok (shape_size shape) false
    (mkBufs (decl_buffer shape) (decl_buffer shape) None None).
Proof. exact (decl_bufs_ok shape false). Qed.

(** What [sort] returns, segment by segment. *)
Lemma sort_segments (max_threads : nat) (data : Tensor) (axis : Z)
    (asc : bool) :
  0 < max_threads → valid_axis (t_shape data) axis →
  let L := layout_of (t_shape data) axis in
  ∃ vo, sort max_threads data axis asc = Ok (mkTensor (t_shape data) vo) ∧
    length vo = shape_size (t_shape data) ∧
    ∀ b z, b < axis_mul_before L → z < axis_mul_after L →
      seg L b z vo = ref_sort (compare asc) (seg L b z (t_buf data)).
Proof.
  intros HM Hax L.
  destruct (sort_ir_values max_threads (t_shape data) (t_buf data) _ axis asc
              false HM Hax (decl_bufs_untracked_ok (t_shape data)))
    as (st' & Hrun & (Hlen & _) & Hv).
  exists (values_out st'). split; [|done].
  unfold sort. by rewrite Hrun.
Qed.



(** X9: [sort] is idempotent: sorting the tensor [sort] returns, along the
    same axis and in the same direction, returns it again. *)
Theorem sort_sort (max_threads : nat) (data : Tensor) (axis : Z)
    (is_ascend : bool) :
  0 < max_threads → valid_axis (t_shape data) axis →
  ∃ out, sort max_threads data axis is_ascend = Ok out ∧
    sort max_threads out axis is_ascend = Ok out.
Proof.
  intros HM Hax.
  destruct (sort_segments max_threads data axis is_ascend HM Hax)
    as (vo & Hrun & Hlen & Hv).
  exists (mkTensor (t_shape data) vo). split; [done|].
  destruct (sort_segments max_threads (mkTensor (t_shape data) vo) axis
              is_ascend HM Hax) as (vo' & Hrun' & Hlen' & Hv').
  cbn [t_shape t_buf] in *. rewrite Hrun'. do 2 f_equal.
  destruct (axis_layout_valid (t_shape data) axis Hax) as [_ HN].
  apply (buf_ext (layout_of (t_shape data) axis)); [congruence..|].
  intros b z Hb Hz. rewrite (Hv' b z Hb Hz), (Hv b z Hb Hz).
  apply ref_sort_sorted.
  apply ref_sort_Sorted, compare_total.
Qed.

Lemma sort_sort_witness :
  ∃ out, sort 4 (mkTensor [2; 3] [5; 1; 4; 2; 6; 3]%Z) 0 false = Ok out ∧
    sort 4 out 0 false = Ok out.
Proof.
  apply (sort_sort 4 (mkTensor [2; 3] [5; 1; 4; 2; 6; 3]%Z) 0 false).
  - lia.
  - unfold valid_axis, normalize_axis. simpl. lia.
Defined.

Lemma Sorted_reverse_compare asc (l : list Z) :
  Sorted (λ x y, compare asc x y = true) l →
  Sorted (λ x y, compare (negb asc) x y = true) (reverse l).
Proof.
  intros Hs.
  assert (Transitive (λ x y, compare asc x y = true)) as Htr
    by (intros x y z; apply compare_trans).
  apply Sorted_StronglySorted in Hs; [|done].
  apply StronglySorted_Sorted.
  induction Hs as [|x l Hs IH Hall]; [constructor|].
  rewrite reverse_cons. apply StronglySorted_app_2.
  - intros y z Hy Hz. rewrite elem_of_reverse in Hy.
    apply list_elem_of_singleton in Hz as ->.
    rewrite Forall_forall in Hall. specialize (Hall y Hy).
    unfold compare in *. destruct asc; simpl; lia.
  - done.
  - by repeat constructor.
Qed.

(** X10: the two directions mirror each other: every segment of the
    descending [sort] is the reverse of the segment of the ascending
    [sort]. *)
Theorem sort_descending_reverses_ascending (max_threads : nat)
    (data : Tensor) (axis : Z) :
  0 < max_threads → valid_axis (t_shape data) axis →
  let L := layout_of (t_shape data) axis in
  ∃ up down, sort max_threads data axis true = Ok up ∧
    sort max_threads data axis false = Ok down ∧
    ∀ b z, b < axis_mul_before L → z < axis_mul_after L →
      seg L b z (t_buf down) = reverse (seg L b z (t_buf up)).
Proof.
  intros HM Hax L. subst L.
  destruct (sort_segments max_threads data axis true HM Hax)
    as (vu & Hup & _ & Hu).
  destruct (sort_segments max_threads data axis false HM Hax)
    as (vd & Hdown & _ & Hd).
  eexists _, _. split; [exact Hup|]. split; [exact Hdown|].
  intros b z Hb Hz. cbn [t_buf]. rewrite (Hd b z Hb Hz), (Hu b z Hb Hz).
  symmetry. apply ref_sort_unique.
  - apply (Sorted_reverse_compare true).
    apply ref_sort_Sorted, compare_total.
  - by rewrite reverse_Permutation, ref_sort_Permutation.
Qed.

Lemma sort_descending_reverses_ascending_witness :
  ∃ up down, sort 4 (mkTensor [5] [3; 1; 3; 2; 5]%Z) 0 true = Ok up ∧
    sort 4 (mkTensor [5] [3; 1; 3; 2; 5]%Z) 0 false = Ok down ∧
    ∀ b z, b < 1 → z < 1 →
      seg (layout_of [5] 0) b z (t_buf down)
      = reverse (seg (layout_of [5] 0) b z (t_buf up)).
Proof.
  apply (sort_descending_reverses_ascending 4
           (mkTensor [5] [3; 1; 3; 2; 5]%Z) 0).
  - lia.
  - unfold valid_axis, normalize_axis. simpl. lia.
Defined.

(** X11: the result of [sort] does not depend on the number of threads of
    the target. *)
Theorem sort_any_max_threads (m1 m2 : nat) (data : Tensor) (axis : Z)
    (is_ascend : bool) :
  0 < m1 → 0 < m2 → valid_axis (t_shape data) axis →
  ∃ out, sort m1 data axis is_ascend = Ok out ∧
    sort m2 data axis is_ascend = Ok out.
Proof.
  intros H1 H2 Hax.
  destruct (sort_segments m1 data axis is_ascend H1 Hax)
    as (v1 & Hr1 & Hl1 & Hv1).
  destruct (sort_segments m2 data axis is_ascend H2 Hax)
    as (v2 & Hr2 & Hl2 & Hv2).
  eexists. split; [exact Hr1|]. rewrite Hr2. do 2 f_equal.
  destruct (axis_layout_valid (t_shape data) axis Hax) as [_ HN].
  apply (buf_ext (layout_of (t_shape data) axis)); [congruence..|].
  intros b z Hb Hz. by rewrite (Hv1 b z Hb Hz), (Hv2 b z Hb Hz).
Qed.

Lemma sort_any_max_threads_witness :
  ∃ out, sort 1 (mkTensor [2; 3] [5; 1; 4; 2; 6; 3]%Z) 1 true = Ok out ∧
    sort 1024 (mkTensor [2; 3] [5; 1; 4; 2; 6; 3]%Z) 1 true = Ok out.
Proof.
  apply (sort_any_max_threads 1 1024 (mkTensor [2; 3] [5; 1; 4; 2; 6; 3]%Z)
           1 true).
  - lia.
  - lia.
  - unfold valid_axis, normalize_axis. simpl. lia.
Defined.

(** ** The facade [argsort] without a valid count *)

Lemma heap_four_inserts (h : list (list Z)) (a b c d a' b' c' d' : list Z) :
  <[length h + 3 := d']>
    (<[length h + 2 := c']>
       (<[length h + 1 := b']>
          (<[length h := a']> (h ++ [a; b; c; d]))))
  = h ++ [a'; b'; c'; d'].
Proof.
  rewrite !insert_app_r_alt by lia.
  rewrite Nat.sub_diag.
  replace (length h + 1 - length h) with 1 by lia.
  replace (length h + 2 - length h) with 2 by lia.
  replace (length h + 3 - length h) with 3 by lia.
  done.
Qed.

Lemma heap_four_lookups (h : list (list Z)) (a b c d : list Z) l :
  l < length h →
  (h ++ [a; b; c; d]) !!! l = h !!! l ∧
  (h ++ [a; b; c; d]) !!! length h = a ∧
  (h ++ [a; b; c; d]) !!! (length h + 1) = b ∧
  (h ++ [a; b; c; d]) !!! (length h + 2) = c ∧
  (h ++ [a; b; c; d]) !!! (length h + 3) = d.
Proof.
  intros Hl. split; [by apply lookup_total_app_l|].
  split_and!; rewrite lookup_total_app_r by lia.
  - by rewrite Nat.sub_diag.
  - by replace (length h + 1 - length h) with 1 by lia.
  - by replace (length h + 2 - length h) with 2 by lia.
  - by replace (length h + 3 - length h) with 3 by lia.
Qed.

(** [argsort] without a valid count, as the sort on four new buffers. *)
Lemma argsort_none_run (max_threads : nat) (h : Heap) (data : TensorRef)
    (axis : Z) (asc : bool) :
  r_loc data < length h →
  let zeros := decl_buffer (r_shape data) in
  argsort max_threads h data None axis asc
  = bind_result
      (sort_ir max_threads (r_shape data) (h !!! r_loc data)
         (mkBufs zeros zeros (Some zeros) (Some zeros)) axis asc)
      (λ outs,
         Ok (h ++ [values_out outs; default [] (indices_out outs);
                   values_out_swap outs; default [] (indices_out_swap outs)],
             mkRef (r_shape data) (length h + 1))).
Proof.
  intros Hd zeros. unfold argsort, alloc. cbn [fst snd]. fold zeros.
  unfold Heap in *.
  rewrite !length_app. cbn [length]. rewrite <- !app_assoc. cbn [app].
  replace (length h + 1 + 1) with (length h + 2) by lia.
  replace (length h + 2 + 1) with (length h + 3) by lia.
  destruct (heap_four_lookups h zeros zeros zeros zeros (r_loc data) Hd)
    as (-> & -> & -> & -> & ->).
  destruct (sort_ir _ _ _ _ _ _) as [outs|e]; cbn [bind_result]; [|done].
  by rewrite heap_four_inserts.
Qed.







(** ** Errors of the engines and of [topk] *)

Lemma py_getitem_range {A} (arr : list A) (i : Z) :
  (- Z.of_nat (length arr) <= i < Z.of_nat (length arr))%Z →
  ∃ x, py_getitem arr i = Ok x.
Proof.
  intros Hi. unfold py_getitem.
  rewrite (proj2 (Z.ltb_ge _ _)) by lia.
  rewrite (proj2 (Z.leb_gt _ _)) by lia. cbn [orb].
  destruct (arr !! _) as [x|] eqn:Hx; [by exists x|].
  apply lookup_ge_None in Hx. destruct (Z.ltb_spec i 0); lia.
Qed.

Lemma py_getitem_out {A} (arr : list A) (i : Z) :
  (i < - Z.of_nat (length arr) ∨ Z.of_nat (length arr) <= i)%Z →
  py_getitem arr i = Raise IndexError.
Proof.
  intros [Hi|Hi]; unfold py_getitem.
  - by rewrite (proj2 (Z.ltb_lt _ _)) by lia.
  - rewrite (proj2 (Z.leb_le _ _)) by lia. by rewrite orb_true_r.
Qed.

(** X14: when the engines raise.  [sort_ir] raises [AssertionError] when it
    is given an index buffer without its swap buffer, whatever the axis;
    otherwise it, and [sort_nms_ir], raise the [IndexError] of
    [shape[axis]] exactly for an axis at or beyond the rank or below minus
    twice the rank, and return for every other axis, those from minus
    twice the rank to below minus the rank included. *)
Theorem engine_errors (max_threads : nat) (shape : list nat)
    (data valid_count : list Z) (st : Bufs) (nst : NmsBufs) (axis : Z)
    (is_ascend : bool) :
  let ndim := Z.of_nat (length shape) in
  (is_Some (indices_out st) → indices_out_swap st = None →
   sort_ir max_threads shape data st axis is_ascend = Raise AssertionError) ∧
  ((indices_out st = None ∨ is_Some (indices_out_swap st)) →
   (ndim <= axis ∨ axis < - 2 * ndim)%Z →
   sort_ir max_threads shape data st axis is_ascend = Raise IndexError) ∧
  ((indices_out st = None ∨ is_Some (indices_out_swap st)) →
   (- 2 * ndim <= axis < ndim)%Z →
   ∃ st', sort_ir max_threads shape data st axis is_ascend = Ok st') ∧
  ((ndim <= axis ∨ axis < - 2 * ndim)%Z →
   sort_nms_ir max_threads shape valid_count nst axis is_ascend
   = Raise IndexError) ∧
  ((- 2 * ndim <= axis < ndim)%Z →
   ∃ nst', sort_nms_ir max_threads shape valid_count nst axis is_ascend
           = Ok nst').
Proof.
  intros ndim.
  assert ((ndim <= axis ∨ axis < - 2 * ndim)%Z →
          py_getitem shape (normalize_axis (length shape) axis)
          = Raise IndexError) as Hout.
  { intros H. apply py_getitem_out. unfold normalize_axis.
    destruct (Z.ltb_spec axis 0); lia. }
  assert ((- 2 * ndim <= axis < ndim)%Z →
          ∃ n, py_getitem shape (normalize_axis (length shape) axis) = Ok n)
    as Hin.
  { intros H. apply py_getitem_range. unfold normalize_axis.
    destruct (Z.ltb_spec axis 0); lia. }
  split_and!.
  - intros [io Hio] Hs. unfold sort_ir. by rewrite Hio, Hs.
  - intros Hb Hax. unfold sort_ir.
    assert (bool_decide (is_Some (indices_out st))
            && negb (bool_decide (is_Some (indices_out_swap st))) = false)
      as ->.
    { destruct Hb as [->|[x ->]]; [done|].
      by destruct (indices_out st). }
    by rewrite Hout.
  - intros Hb Hax. unfold sort_ir.
    assert (bool_decide (is_Some (indices_out st))
            && negb (bool_decide (is_Some (indices_out_swap st))) = false)
      as ->.
    { destruct Hb as [->|[x ->]]; [done|].
      by destruct (indices_out st). }
    destruct (Hin Hax) as [n ->]. cbn [bind_result]. by eexists.
  - intros Hax. unfold sort_nms_ir. by rewrite Hout.
  - intros Hax. unfold sort_nms_ir. destruct (Hin Hax) as [n ->].
    cbn [bind_result]. by eexists.
Qed.

Lemma engine_errors_witness :
  sort_ir 4 [2; 3] [5; 1; 4; 2; 6; 3]%Z
    (mkBufs (replicate 6 0%Z) (replicate 6 0%Z) (Some (replicate 6 0%Z)) None)
    7 true = Raise AssertionError ∧
  sort_ir 4 [2; 3] [5; 1; 4; 2; 6; 3]%Z
    (mkBufs (replicate 6 0%Z) (replicate 6 0%Z) None None) (-5) true
  = Raise IndexError ∧
  (∃ st', sort_ir 4 [2; 3] [5; 1; 4; 2; 6; 3]%Z
            (mkBufs (replicate 6 0%Z) (replicate 6 0%Z) None None) (-4) true
          = Ok st') ∧
  sort_nms_ir 4 [2; 3] [3; 3]%Z
    (mkNmsBufs [5; 1; 4; 2; 6; 3]%Z (replicate 6 0%Z)) 2 true
  = Raise IndexError ∧
  (∃ nst', sort_nms_ir 4 [2; 3] [3; 3]%Z
             (mkNmsBufs [5; 1; 4; 2; 6; 3]%Z (replicate 6 0%Z)) (-4) true
           = Ok nst').
Proof.
  destruct (engine_errors 4 [2; 3] [5; 1; 4; 2; 6; 3]%Z [3; 3]%Z
              (mkBufs (replicate 6 0%Z) (replicate 6 0%Z)
                      (Some (replicate 6 0%Z)) None)
              (mkNmsBufs [5; 1; 4; 2; 6; 3]%Z (replicate 6 0%Z)) 7 true)
    as (H1 & _).
  destruct (engine_errors 4 [2; 3] [5; 1; 4; 2; 6; 3]%Z [3; 3]%Z
              (mkBufs (replicate 6 0%Z) (replicate 6 0%Z) None None)
              (mkNmsBufs [5; 1; 4; 2; 6; 3]%Z (replicate 6 0%Z)) (-5) true)
    as (_ & H2 & _).
  destruct (engine_errors 4 [2; 3] [5; 1; 4; 2; 6; 3]%Z [3; 3]%Z
              (mkBufs (replicate 6 0%Z) (replicate 6 0%Z) None None)
              (mkNmsBufs [5; 1; 4; 2; 6; 3]%Z (replicate 6 0%Z)) (-4) true)
    as (_ & _ & H3 & _ & H5).
  destruct (engine_errors 4 [2; 3] [5; 1; 4; 2; 6; 3]%Z [3; 3]%Z
              (mkBufs (replicate 6 0%Z) (replicate 6 0%Z) None None)
              (mkNmsBufs [5; 1; 4; 2; 6; 3]%Z (replicate 6 0%Z)) 2 true)
    as (_ & _ & _ & H4 & _).
  split_and!.
  - apply H1; [by eexists|done].
  - apply H2; [by left|simpl; lia].
  - apply H3; [by left|simpl; lia].
  - apply H4. simpl. lia.
  - apply H5. simpl. lia.
Defined.

(** X15: when [topk] raises.  It raises [AssertionError] for a [ret_type]
    other than "both", "values" and "indices" and for an axis that, once a
    negative one is counted from the end, is not a dimension of the
    tensor; for every other call it returns, and never raises
    [IndexError]. *)
Theorem topk_errors (max_threads : nat) (data : Tensor) (k axis : Z)
    (ret_type : string) (is_ascend : bool) :
  let ndim := Z.of_nat (length (t_shape data)) in
  let ax := if (axis <? 0)%Z then (axis + ndim)%Z else axis in
  (ret_type_allowed ret_type = false →
   topk max_threads data k axis ret_type is_ascend = Raise AssertionError) ∧
  ((ax < 0 ∨ ndim <= ax)%Z →
   topk max_threads data k axis ret_type is_ascend = Raise AssertionError) ∧
  (ret_type_allowed ret_type = true → (0 <= ax < ndim)%Z →
   ∃ out, topk max_threads data k axis ret_type is_ascend = Ok out).
Proof.
  intros ndim ax. split_and!.
  - intros Hr. unfold topk. by rewrite Hr.
  - intros Hax. unfold topk. destruct (ret_type_allowed ret_type); [|done].
    cbn [negb]. cbv zeta. fold ndim ax.
    assert ((0 <=? ax)%Z && (ax <? ndim)%Z = false) as ->; [|done].
    destruct (Z.leb_spec 0 ax), (Z.ltb_spec ax ndim); try done; lia.
  - intros Hr Hax.
    pose proof (valid_axis_nonneg (t_shape data) ax Hax) as Hvalid.
    set (track := negb (String.eqb ret_type "values")).
    pose proof (sort_ir_valid max_threads (t_shape data) (t_buf data) _ ax
                  is_ascend track Hvalid (decl_bufs_ok (t_shape data) track))
      as Hrun.
    rewrite (topk_unfold max_threads data k axis ret_type is_ascend _
               Hr Hax Hrun).
    cbv zeta. repeat case_match; by eexists.
Qed.

Lemma topk_errors_witness :
  topk 4 (mkTensor [2; 3] [5; 1; 4; 2; 6; 3]%Z) 1 0 "value" true
  = Raise AssertionError ∧
  topk 4 (mkTensor [2; 3] [5; 1; 4; 2; 6; 3]%Z) 1 2 "values" true
  = Raise AssertionError ∧
  ∃ out, topk 4 (mkTensor [2; 3] [5; 1; 4; 2; 6; 3]%Z) 1 (-2) "values" true
         = Ok out.
Proof.
  destruct (topk_errors 4 (mkTensor [2; 3] [5; 1; 4; 2; 6; 3]%Z) 1 0 "value"
              true) as (H1 & _).
  destruct (topk_errors 4 (mkTensor [2; 3] [5; 1; 4; 2; 6; 3]%Z) 1 2 "values"
              true) as (_ & H2 & _).
  destruct (topk_errors 4 (mkTensor [2; 3] [5; 1; 4; 2; 6; 3]%Z) 1 (-2)
              "values" true) as (_ & _ & H3).
  split_and!.
  - by apply H1.
  - apply H2. simpl. lia.
  - apply H3; [done|simpl; lia].
Defined.

(** ** What [topk] selects *)

Lemma layout_of_nonneg (shape : list nat) (axis : Z) :
  let ax :=
    if (axis <? 0)%Z then (axis + Z.of_nat (length shape))%Z else axis in
  (0 <= ax < Z.of_nat (length shape))%Z →
  valid_axis shape axis ∧ layout_of shape axis = layout_of shape ax.
Proof.
  intros ax Hax. unfold valid_axis, layout_of, normalize_axis. fold ax.
  destruct (Z.ltb_spec axis 0) as [Hn|Hn].
  - replace (Z.of_nat (length shape) + axis)%Z with ax by (unfold ax; lia).
    split; [done|]. by rewrite (proj2 (Z.ltb_ge ax 0)) by lia.
  - split; [lia|]. by rewrite (proj2 (Z.ltb_ge ax 0)) by lia.
Qed.

(** [topk] past its assertions, with the sort it runs given by the
    reference sort. *)
Lemma topk_run (max_threads : nat) (data : Tensor) (k axis : Z)
    (ret_type : string) (asc : bool) :
  0 < max_threads → ret_type_allowed ret_type = true →
  let shape := t_shape data in
  let ax :=
    if (axis <? 0)%Z then (axis + Z.of_nat (length shape))%Z else axis in
  (0 <= ax < Z.of_nat (length shape))%Z →
  let L := layout_of shape ax in
  let track := negb (String.eqb ret_type "values") in
  ∃ vo io,
    length vo = shape_size shape ∧
    (track = true → length io = shape_size shape) ∧
    (∀ b z, b < axis_mul_before L → z < axis_mul_after L →
       seg L b z vo = ref_sort (compare asc) (seg L b z (t_buf data)) ∧
       (track = true →
        zip (seg L b z vo) (seg L b z io)
        = ref_sort (le_fst asc) (tag_identity (seg L b z (t_buf data))))) ∧
    sort max_threads data axis asc = Ok (mkTensor shape vo) ∧
    let values := mkTensor shape vo in
    let indices := mkTensor shape io in
    topk max_threads data k axis ret_type asc
    = if (k <? 1)%Z then
        if String.eqb ret_type "indices" then Ok (OutTensor indices)
        else if String.eqb ret_type "values" then Ok (OutTensor values)
        else Ok (OutList [values; indices])
      else
        let end_ := topk_end shape ax k in
        if String.eqb ret_type "both" then
          Ok (OutList [strided_slice values end_; strided_slice indices end_])
        else if String.eqb ret_type "values" then
          Ok (OutList [strided_slice values end_])
        else Ok (OutList [strided_slice indices end_]).
Proof.
  intros HM Hret shape ax Hax L track.
  pose proof (valid_axis_nonneg shape ax Hax) as Hvalid.
  destruct (sort_ir_pairs max_threads shape (t_buf data) _ ax asc track
              HM Hvalid (decl_bufs_ok shape track))
    as (outs & Hrun & Hok & Hp).
  destruct (sort_ir_values max_threads shape (t_buf data) _ ax asc track
              HM Hvalid (decl_bufs_ok shape track))
    as (outs' & Hrun' & _ & Hv).
  assert (outs' = outs) as -> by congruence.
  exists (values_out outs), (default [] (indices_out outs)).
  destruct Hok as (Hl1 & _ & Hidx). unfold idx_ok in Hidx.
  split; [done|]. split; [|split; [|split]].
  - intros Ht. rewrite Ht in Hidx.
    destruct (indices_out outs); [|by destruct (indices_out_swap outs)].
    destruct (indices_out_swap outs); [|done]. by destruct Hidx.
  - intros b z Hb Hz. split; [by apply Hv|]. intros Ht.
    specialize (Hp b z Hb Hz). rewrite Ht in Hp. unfold pairs in Hp.
    etransitivity; [exact Hp|].
    unfold tag_identity, seed_tags. by rewrite length_seg.
  - destruct (layout_of_nonneg shape axis Hax) as [Hva HL]. fold ax in HL.
    destruct (sort_segments max_threads data axis asc HM Hva)
      as (vo & Hsort & Hlen & Hs).
    rewrite Hsort. do 2 f_equal. fold shape in Hlen, Hs. rewrite HL in Hs.
    destruct (axis_layout_valid shape ax Hvalid) as [_ HN].
    apply (buf_ext (layout_of shape ax)); [congruence..|].
    intros b z Hb Hz. rewrite (Hs b z Hb Hz). symmetry. by apply Hv.
  - exact (topk_unfold max_threads data k axis ret_type asc outs
             Hret Hax Hrun).
Qed.





(** A slice whose end at the axis is at or beyond the extent is the
    tensor. *)
Lemma strided_slice_whole (t : Tensor) (ax k : Z) :
  (0 <= ax < Z.of_nat (length (t_shape t)))%Z →
  length (t_buf t) = shape_size (t_shape t) →
  axis_len (layout_of (t_shape t) ax) ≤ Z.to_nat k →
  strided_slice t (topk_end (t_shape t) ax k) = t.
Proof.
  intros Hax Hlen Hk.
  pose proof (strided_slice_topk_shape t ax k Hax) as Hshape.
  destruct (strided_slice_topk_end t ax k Hax Hlen) as (Hl & Hseg).
  cbv zeta in Hl, Hseg.
  set (L := layout_of (t_shape t) ax) in *.
  rewrite Nat.min_r in Hshape, Hl, Hseg by done.
  destruct (axis_layout_valid (t_shape t) ax (valid_axis_nonneg _ _ Hax))
    as [_ HN]. fold L in HN.
  assert (mkLayout (axis_mul_before L) (axis_len L) (axis_mul_after L) = L)
    as HL by (by destruct L).
  rewrite HL in Hl, Hseg.
  destruct (strided_slice t (topk_end (t_shape t) ax k)) as [s' b'] eqn:Hs.
  destruct t as [s b]. cbn [t_shape t_buf] in *. f_equal.
  - rewrite Hshape. apply list_insert_id.
    unfold L, layout_of, normalize_axis.
    rewrite (proj2 (Z.ltb_ge ax 0)) by lia. cbn [axis_len].
    apply list_lookup_lookup_total_lt. lia.
  - apply (buf_ext L); [congruence..|]. intros b0 z Hb Hz.
    rewrite (Hseg b0 z Hb Hz). apply take_ge. by rewrite length_seg.
Qed.

(** X18: a [k] at or beyond the length of the axis selects everything:
    [topk] then returns, in a list, the whole sorted tensors it returns
    for [k < 1]. *)
Theorem topk_k_beyond_axis (max_threads : nat) (data : Tensor) (k axis : Z)
    (ret_type : string) (is_ascend : bool) :
  0 < max_threads → ret_type_allowed ret_type = true →
  let shape := t_shape data in
  let ax :=
    if (axis <? 0)%Z then (axis + Z.of_nat (length shape))%Z else axis in
  (0 <= ax < Z.of_nat (length shape))%Z →
  (1 <= k)%Z → (Z.of_nat (axis_len (layout_of shape ax)) <= k)%Z →
  ∃ values indices,
    topk max_threads data 0 axis ret_type is_ascend
    = Ok (if String.eqb ret_type "indices" then OutTensor indices
          else if String.eqb ret_type "values" then OutTensor values
          else OutList [values; indices]) ∧
    topk max_threads data k axis ret_type is_ascend
    = Ok (OutList (if String.eqb ret_type "both" then [values; indices]
                   else if String.eqb ret_type "values" then [values]
                   else [indices])).
Proof.
  intros HM Hret shape ax Hax Hk Hn.
  pose proof (valid_axis_nonneg shape ax Hax) as Hvalid.
  set (track := negb (String.eqb ret_type "values")).
  destruct (sort_ir_pairs max_threads shape (t_buf data) _ ax is_ascend
              track HM Hvalid (decl_bufs_ok shape track))
    as (outs & Hrun & Hok & _).
  pose proof (topk_unfold max_threads data 0 axis ret_type is_ascend outs
                Hret Hax Hrun) as H0.
  pose proof (topk_unfold max_threads data k axis ret_type is_ascend outs
                Hret Hax Hrun) as H1.
  cbv zeta in H0, H1. fold shape ax in H0, H1.
  change (0 <? 1)%Z with true in H0. cbv iota in H0.
  rewrite (proj2 (Z.ltb_ge k 1)) in H1 by lia.
  exists (mkTensor shape (values_out outs)),
         (mkTensor shape (default [] (indices_out outs))).
  split; [rewrite H0; by repeat case_match|]. rewrite H1.
  destruct Hok as (Hl1 & _ & Hidx). unfold idx_ok in Hidx.
  assert (strided_slice (mkTensor shape (values_out outs))
            (topk_end shape ax k) = mkTensor shape (values_out outs)) as ->.
  { apply (strided_slice_whole (mkTensor shape (values_out outs)) ax k);
      [done|done|]. cbn [t_shape]. lia. }
  destruct (ret_type_cases ret_type Hret) as [-> | [-> | ->]];
    cbn [String.eqb Ascii.eqb Bool.eqb]; [|done|].
  all: subst track; cbn [String.eqb Ascii.eqb Bool.eqb negb] in Hidx.
  all: destruct (indices_out outs) as [io|];
    [|by destruct (indices_out_swap outs)].
  all: destruct (indices_out_swap outs); [|done].
  all: destruct Hidx as (Hl3 & _); change (default [] (Some io)) with io.
  all: assert (strided_slice (mkTensor shape io) (topk_end shape ax k)
               = mkTensor shape io) as ->
    by (apply (strided_slice_whole (mkTensor shape io) ax k);
        [done|done|cbn [t_shape]; lia]).
  all: done.
Qed.

Lemma topk_k_beyond_axis_witness :
  ∃ values indices,
    topk 4 (mkTensor [2; 3] [1; 5; 3; 4; 0; 2]%Z) 0 1 "both" false
    = Ok (OutList [values; indices]) ∧
    topk 4 (mkTensor [2; 3] [1; 5; 3; 4; 0; 2]%Z) 7 1 "both" false
    = Ok (OutList [values; indices]).
Proof.
  apply (topk_k_beyond_axis 4 (mkTensor [2; 3] [1; 5; 3; 4; 0; 2]%Z) 7 1
           "both" false).
  - lia.
  - reflexivity.
  - simpl. lia.
  - lia.
  - simpl. lia.
Defined.

(** X19: [topk] with [ret_type] "values" is [sort] followed by the slice:
    for [k < 1] it returns the tensor [sort] returns, and for [k >= 1] the
    list of its slice to the first [k] entries of the axis. *)
Theorem topk_values_is_sort (max_threads : nat) (data : Tensor) (k axis : Z)
    (is_ascend : bool) :
  0 < max_threads →
  let shape := t_shape data in
  let ax :=
    if (axis <? 0)%Z then (axis + Z.of_nat (length shape))%Z else axis in
  (0 <= ax < Z.of_nat (length shape))%Z →
  ∃ sorted, sort max_threads data axis is_ascend = Ok sorted ∧
    topk max_threads data k axis "values" is_ascend
    = Ok (if (k <? 1)%Z then OutTensor sorted
          else OutList [strided_slice sorted (topk_end shape ax k)]).
Proof.
  intros HM shape ax Hax.
  destruct (topk_run max_threads data k axis "values" is_ascend HM eq_refl
              Hax) as (vo & io & _ & _ & _ & Hsort & Htopk).
  exists (mkTensor shape vo). split; [exact Hsort|].
  rewrite Htopk. cbv zeta. cbn [String.eqb Ascii.eqb Bool.eqb].
  by destruct (k <? 1)%Z.
Qed.

Lemma topk_values_is_sort_witness :
  ∃ sorted, sort 4 (mkTensor [2; 3] [1; 5; 3; 4; 0; 2]%Z) (-1) false
            = Ok sorted ∧
    topk 4 (mkTensor [2; 3] [1; 5; 3; 4; 0; 2]%Z) 2 (-1) "values" false
    = Ok (OutList [strided_slice sorted (topk_end [2; 3] 1 2)]).
Proof.
  apply (topk_values_is_sort 4 (mkTensor [2; 3] [1; 5; 3; 4; 0; 2]%Z) 2 (-1)
           false).
  - lia.
  - simpl. lia.
Defined.

(** ** Inside the merge-sort engine *)

(** X20: the result of [sort_ir] does not depend on what its output and
    swap buffers hold when it starts (the kernels write every cell before
    they read it). *)
Theorem sort_ir_ignores_initial_contents (max_threads : nat)
    (shape : list nat) (data : list Z) (st1 st2 : Bufs) (axis : Z)
    (is_ascend track : bool) :
  0 < max_threads → valid_axis shape axis →
  bufs_ok (shape_size shape) track st1 →
  bufs_ok (shape_size shape) track st2 →
  ∃ st1' st2',
    sort_ir max_threads shape data st1 axis is_ascend = Ok st1' ∧
    sort_ir max_threads shape data st2 axis is_ascend = Ok st2' ∧
    values_out st1' = values_out st2' ∧
    indices_out st1' = indices_out st2'.
Proof.
  intros HM Hax Hok1 Hok2.
  destruct (sort_ir_pairs max_threads shape data st1 axis is_ascend track
              HM Hax Hok1) as (st1' & Hrun1 & Hok1' & Hp1).
  destruct (sort_ir_pairs max_threads shape data st2 axis is_ascend track
              HM Hax Hok2) as (st2' & Hrun2 & Hok2' & Hp2).
  exists st1', st2'. split; [done|]. split; [done|].
  destruct (axis_layout_valid shape axis Hax) as [_ HN].
  destruct (bufs_ok_idx_out _ _ _ _ Hok2' Hok1') as (Hidx & _).
  destruct Hok1' as (Hl1 & _), Hok2' as (Hl2 & _).
  apply (pairs_ext (layout_of shape axis) (shape_size shape) track);
    [done..|].
  intros b z Hb Hz. by rewrite (Hp1 b z Hb Hz), (Hp2 b z Hb Hz).
Qed.

Lemma sort_ir_ignores_initial_contents_witness :
  ∃ st1' st2',
    sort_ir 4 [4] [3; 1; 2; 0]%Z
      (mkBufs [0; 0; 0; 0]%Z [0; 0; 0; 0]%Z None None) 0 true = Ok st1' ∧
    sort_ir 4 [4] [3; 1; 2; 0]%Z
      (mkBufs [9; 8; 7; 6]%Z [5; 5; 5; 5]%Z None None) 0 true = Ok st2' ∧
    values_out st1' = values_out st2' ∧
    indices_out st1' = indices_out st2'.
Proof.
  apply (sort_ir_ignores_initial_contents 4 [4] [3; 1; 2; 0]%Z
           (mkBufs [0; 0; 0; 0]%Z [0; 0; 0; 0]%Z None None)
           (mkBufs [9; 8; 7; 6]%Z [5; 5; 5; 5]%Z None None) 0 true false).
  - lia.
  - unfold valid_axis, normalize_axis. simpl. lia.
  - repeat split.
  - repeat split.
Defined.



(** X22: what one call of [bottom_up_merge] does, for
    [start <= middle <= end <= axisLen]: it writes into the cells
    [start .. end) of the destination segment the merge of the source runs
    [start .. middle) and [middle .. end), the left run first on ties, and
    leaves the source buffers, the other cells of the destination segment
    and every other segment as they are. *)
Theorem bottom_up_merge_contract (L : Layout) (is_ascend track : bool)
    (b z start middle end_ : nat) (even : bool) (st : Bufs) :
  b < axis_mul_before L → z < axis_mul_after L →
  bufs_ok (numel L) track st →
  start ≤ middle → middle ≤ end_ → end_ ≤ axis_len L →
  let Src := pairs L b z (src_vals even st) (src_idx even st) in
  let D := pairs L b z (dst_vals even st) (dst_idx even st) in
  let st' := bottom_up_merge L is_ascend b z start middle end_ even st in
  src_vals even st' = src_vals even st ∧
  src_idx even st' = src_idx even st ∧
  pairs L b z (dst_vals even st') (dst_idx even st')
  = take start D
    ++ ref_merge (le_fst is_ascend) (slice start middle Src)
         (slice middle end_ Src)
    ++ drop end_ D ∧
  (∀ b' z', z' < axis_mul_after L → (b', z') ≠ (b, z) →
     pairs L b' z' (dst_vals even st') (dst_idx even st')
     = pairs L b' z' (dst_vals even st) (dst_idx even st)).
Proof.
  intros Hb Hz Hok Hsm Hme Hen Src D st'.
  destruct (bottom_up_merge_view L is_ascend b z Hb Hz track start middle
              end_ even st Hok Hsm Hme Hen) as (_ & H1 & H2 & H3 & H4).
  by split_and!.
Qed.

Lemma bottom_up_merge_contract_witness :
  values_out_swap
    (bottom_up_merge (mkLayout 1 4 1) true 0 0 0 2 4 true
       (mkBufs [2; 5; 1; 3]%Z [0; 0; 0; 0]%Z None None))
  = [1; 2; 3; 5]%Z ∧
  values_out
    (bottom_up_merge (mkLayout 1 4 1) true 0 0 0 2 4 true
       (mkBufs [2; 5; 1; 3]%Z [0; 0; 0; 0]%Z None None))
  = [2; 5; 1; 3]%Z.
Proof.
  destruct (bottom_up_merge_contract (mkLayout 1 4 1) true false 0 0 0 2 4
              true (mkBufs [2; 5; 1; 3]%Z [0; 0; 0; 0]%Z None None))
    as (H1 & _).
  - simpl. lia.
  - simpl. lia.
  - repeat split.
  - lia.
  - lia.
  - simpl. lia.
  - split; [reflexivity|exact H1].
Defined.



(** ** The transposition engine as a function of its input *)

(** Every segment after [sort_nms_ir]: the stable sort of the first
    [validCount] tagged cells, then the other tagged cells. *)
Lemma sort_nms_ir_nview max_threads shape valid_count st axis asc :
  0 < max_threads → valid_axis shape axis →
  nms_ok (shape_size shape) st →
  let L := layout_of shape axis in
  (∀ i j, i < axis_mul_before L → j < axis_mul_after L →
     current_sort_num L valid_count i j ≤ axis_len L) →
  ∃ st', sort_nms_ir max_threads shape valid_count st axis asc = Ok st' ∧
    nms_ok (shape_size shape) st' ∧
    ∀ b z, b < axis_mul_before L → z < axis_mul_after L →
      let c := current_sort_num L valid_count b z in
      let l0 := tag_identity (seg L b z (nms_data st)) in
      nview L b z st' = ref_sort (le_fst asc) (take c l0) ++ drop c l0.
Proof.
  intros HM Hax Hok L Hvc.
  destruct (sort_nms_ir_stable_view max_threads shape valid_count st axis
              asc HM Hax Hok Hvc) as (st' & Hrun & Hok' & Ht).
  destruct (sort_nms_ir_segments max_threads shape valid_count st axis
              asc HM Hax Hok Hvc) as (st'' & Hrun' & _ & Hd).
  assert (st'' = st') as -> by congruence.
  exists st'. split; [done|]. split; [done|]. intros b z Hb Hz c l0.
  destruct (Hd b z Hb Hz) as (Hdrop & _). specialize (Ht b z Hb Hz).
  cbv zeta in Ht, Hdrop. fold L c l0 in Ht, Hdrop.
  rewrite <- Ht, <- Hdrop. by rewrite take_drop.
Qed.




(** X25: valid counts of at most one, zero and negative counts among them,
    sort nothing: when every segment of a non-empty axis has such a count,
    [sort_nms_ir] returns the data as it is and the identity indices along
    the axis. *)
Theorem sort_nms_ir_nothing_to_sort (max_threads : nat) (shape : list nat)
    (valid_count : list Z) (st : NmsBufs) (axis : Z) (is_ascend : bool) :
  0 < max_threads → valid_axis shape axis →
  nms_ok (shape_size shape) st →
  let L := layout_of shape axis in
  0 < axis_len L →
  (∀ b z, b < axis_mul_before L → z < axis_mul_after L →
     (valid_count !!! (b * axis_mul_after L + z)%nat <= 1)%Z) →
  ∃ st', sort_nms_ir max_threads shape valid_count st axis is_ascend = Ok st' ∧
    nms_data st' = nms_data st ∧
    ∀ b z t, b < axis_mul_before L → z < axis_mul_after L → t < axis_len L →
      nms_output st' !!! pos L b z t = Z.of_nat t.
Proof.
  intros HM Hax Hok L Hn Hvc.
  assert (∀ i j, i < axis_mul_before L → j < axis_mul_after L →
            current_sort_num L valid_count i j ≤ 1) as Hc.
  { intros i j Hi Hj. unfold current_sort_num.
    specialize (Hvc i j Hi Hj). lia. }
  destruct (axis_layout_valid shape axis Hax) as [_ HN]. fold L in HN.
  destruct (sort_nms_ir_nview max_threads shape valid_count st axis
              is_ascend HM Hax Hok) as (st' & Hrun & Hok' & Hv).
  { intros i j Hi Hj. fold L. specialize (Hc i j Hi Hj). lia. }
  exists st'. split; [done|].
  assert (∀ b z, b < axis_mul_before L → z < axis_mul_after L →
            nview L b z st' = tag_identity (seg L b z (nms_data st))) as Hv'.
  { intros b z Hb Hz. etransitivity; [exact (Hv b z Hb Hz)|]. fold L.
    set (l0 := tag_identity (seg L b z (nms_data st))).
    specialize (Hc b z Hb Hz).
    destruct (current_sort_num L valid_count b z) as [|[|c]]; [done| |lia].
    destruct l0 as [|x l0]; [done|]. done. }
  destruct Hok as [Hl1 Hl2], Hok' as [Hl1' Hl2']. split.
  - apply (buf_ext L); [congruence..|]. intros b z Hb Hz.
    rewrite <- (pairs_fst L b z (nms_data st') (Some (nms_output st'))).
    fold (nview L b z st'). rewrite (Hv' b z Hb Hz).
    apply tag_identity_fst.
  - intros b z t Hb Hz Ht.
    pose proof (pairs_snd L b z (nms_data st') (Some (nms_output st')))
      as Hs.
    change (default [] (Some (nms_output st'))) with (nms_output st') in Hs.
    fold (nview L b z st') in Hs. rewrite (Hv' b z Hb Hz) in Hs.
    rewrite tag_identity_snd, length_seg in Hs.
    rewrite <- (seg_lookup_total L b z (nms_output st') t) by done.
    rewrite <- Hs. apply list_lookup_total_correct.
    by rewrite list_lookup_fmap, lookup_seq_lt.
Qed.

Lemma sort_nms_ir_nothing_to_sort_witness :
  ∃ st', sort_nms_ir 4 [2; 3] [0; -2]%Z
           (mkNmsBufs [5; 1; 4; 2; 6; 3]%Z (replicate 6 9%Z)) 1 true = Ok st' ∧
    nms_data st' = [5; 1; 4; 2; 6; 3]%Z.
Proof.
  destruct (sort_nms_ir_nothing_to_sort 4 [2; 3] [0; -2]%Z
              (mkNmsBufs [5; 1; 4; 2; 6; 3]%Z (replicate 6 9%Z)) 1 true)
    as (st' & Hrun & Hd & _).
  - lia.
  - unfold valid_axis, normalize_axis. simpl. lia.
  - repeat split.
  - simpl. lia.
  - intros b z Hb Hz. change (b < 2) in Hb. change (z < 1) in Hz.
    assert (z = 0) as -> by lia.
    destruct b as [|[|b]]; [vm_compute; congruence..|lia].
  - exists st'. split; [exact Hrun|exact Hd].
Defined.

(** ** Across the facades, and the launch grids *)

(** X26: [topk] with [k < 1] and [ret_type] "indices" is [argsort] without
    a valid count: the tensor it returns holds the indices [argsort] puts
    at the location it returns. *)
Theorem topk_indices_is_argsort (max_threads : nat) (h : Heap)
    (data : TensorRef) (k axis : Z) (is_ascend : bool) :
  0 < max_threads → r_loc data < length h → (k < 1)%Z →
  let shape := r_shape data in
  let ax :=
    if (axis <? 0)%Z then (axis + Z.of_nat (length shape))%Z else axis in
  (0 <= ax < Z.of_nat (length shape))%Z →
  ∃ h' out io,
    argsort max_threads h data None axis is_ascend = Ok (h', out) ∧
    h' !! r_loc out = Some io ∧
    topk max_threads (mkTensor shape (h !!! r_loc data)) k axis "indices"
      is_ascend
    = Ok (OutTensor (mkTensor shape io)).
Proof.
  intros HM Hd Hk shape ax Hax.
  destruct (layout_of_nonneg shape axis Hax) as [Hva HL]. fold ax in HL.
  pose proof (valid_axis_nonneg shape ax Hax) as Hvalid.
  pose proof (sort_ir_valid max_threads shape (h !!! r_loc data) _ axis
                is_ascend true Hva (decl_bufs_ok shape true)) as Hrun.
  pose proof (sort_ir_valid max_threads shape (h !!! r_loc data) _ ax
                is_ascend true Hvalid (decl_bufs_ok shape true)) as Hrun'.
  rewrite HL in Hrun. cbn [negb] in Hrun, Hrun'.
  set (outs := sort_kernels (layout_of shape ax) max_threads is_ascend
                 (h !!! r_loc data) _) in *.
  rewrite argsort_none_run by done. fold shape. rewrite Hrun.
  cbn [bind_result].
  eexists _, _, (default [] (indices_out outs)).
  split; [reflexivity|]. cbn [r_loc]. split.
  - unfold Heap in *. rewrite lookup_app_r by lia.
    by replace (length h + 1 - length h) with 1 by lia.
  - rewrite (topk_unfold max_threads (mkTensor shape (h !!! r_loc data)) k
               axis "indices" is_ascend outs eq_refl Hax Hrun').
    by rewrite (proj2 (Z.ltb_lt k 1)) by done.
Qed.

Lemma topk_indices_is_argsort_witness :
  ∃ h' out io,
    argsort 4 [[5; 3; 4; 1; 2]%Z] (mkRef [5] 0) None (-1) true = Ok (h', out) ∧
    h' !! r_loc out = Some io ∧
    topk 4 (mkTensor [5] [5; 3; 4; 1; 2]%Z) 0 (-1) "indices" true
    = Ok (OutTensor (mkTensor [5] io)).
Proof.
  apply (topk_indices_is_argsort 4 [[5; 3; 4; 1; 2]%Z] (mkRef [5] 0) 0 (-1)
           true).
  - lia.
  - simpl. lia.
  - lia.
  - simpl. lia.
Defined.

(** X27: the launch grids leave no cell without its thread.  The threads
    of a launch are [0 .. blocks * threads), each once; the grid of the
    seed pass and of the writeback covers the axis with less than one
    block to spare; in a merge round every run of the axis has its thread;
    and the one launch of [sort_nms_ir] has more threads than the tensor
    has cells. *)
Theorem launch_grids_cover (n size max_threads r tid : nat) :
  0 < max_threads →
  thread_ids (ceil_div n max_threads) max_threads
  = seq 0 (ceil_div n max_threads * max_threads) ∧
  n ≤ ceil_div n max_threads * max_threads ∧
  ceil_div n max_threads * max_threads < n + max_threads ∧
  (Nat.shiftl 2 r * tid < n →
   tid < ceil_div n (Nat.shiftl 2 r * max_threads) * max_threads) ∧
  size < (size / max_threads + 1) * max_threads.
Proof.
  intros HM. split; [apply thread_ids_seq|]. split; [by apply ceil_div_mul_ge|].
  split; [|split].
  - unfold ceil_div.
    pose proof (Nat.div_mod_eq (n + max_threads - 1) max_threads).
    pose proof (Nat.mod_upper_bound (n + max_threads - 1) max_threads).
    nia.
  - intros Ht. pose proof (shiftl_2_pos r) as Hw.
    set (w := Nat.shiftl 2 r) in *.
    pose proof (ceil_div_mul_ge n (w * max_threads) ltac:(nia)) as Hc.
    set (c := ceil_div n (w * max_threads)) in *.
    assert (w * tid < w * (c * max_threads)) as Hlt by nia.
    apply Nat.mul_lt_mono_pos_l in Hlt; [done|lia].
  - pose proof (Nat.div_mod_eq size max_threads).
    pose proof (Nat.mod_upper_bound size max_threads). nia.
Qed.

Lemma launch_grids_cover_witness :
  thread_ids (ceil_div 10 4) 4 = seq 0 (ceil_div 10 4 * 4) ∧
  2 < ceil_div 10 (Nat.shiftl 2 1 * 4) * 4.
Proof.
  destruct (launch_grids_cover 10 10 4 1 2) as (H1 & _ & _ & H4 & _).
  - lia.
  - split; [exact H1|]. apply H4. simpl. lia.
Defined.
